(** * Connect4: a shallow embedding of [Connect4.py] and its specification

    The development follows the layout of the Python source:
    - [Py]: the pieces of Python's run-time behaviour the program relies on
      (exceptions, list indexing with negative indices, [all], [max] with a
      key, [random.choice], the functions of [math]);
    - class [Connect4]: the board with [copy], [get_possible_moves],
      [make_move], [is_terminal] and [evaluate], as functions on values, and
      [copy] and [make_move] once more on objects whose row lists live in a
      store, to follow what is written in place;
    - class [Node], in module [Node], and the function [mcts], over the heap
      of the node objects;
    - [play_game], from the tree it has loaded to the tree it saves, with
      what it prints.  The functions that read and write the pickle file are
      not part of the model.

    Python integers are [Z], one-character strings are [ascii], lists are
    [list]; a call that can raise returns a [result]; a loop whose end is not
    structural takes fuel.  Floating-point numbers are binary64 numbers in
    the module [Binary64], which has [select_child] as Python computes it;
    the search of module [Node] and [mcts], whose theorems are about the
    shape of the tree and the counts and not about the child that is
    selected, takes them as real numbers. *)

From Stdlib Require Import ZArith List Ascii String Bool Lia Reals Lra Sorted.
From Stdlib Require Floats.
From stdpp Require Import base list.
Import ListNotations.

Local Open Scope Z_scope.

(** ** Python run-time behaviour *)

Module Py.

(** The exceptions that can leave the modelled functions.  The source never
    raises [IllegalMoveError]: it is only named by the specification. *)
Inductive exn : Type :=
| IndexError
| ValueError
| ZeroDivisionError
| OverflowError
| IllegalMoveError.

(** Outcome of a call: a value, a raised exception, or a loop of the model
    that used up its fuel (the Python loop would still be running). *)
Inductive result (A : Type) : Type :=
| Ok (a : A)
| Raise (e : exn)
| OutOfFuel.

Arguments Ok {A} a.
Arguments Raise {A} e.
Arguments OutOfFuel {A}.

Definition bind {A B : Type} (m : result A) (k : A -> result B) : result B :=
  match m with
  | Ok a => k a
  | Raise e => Raise e
  | OutOfFuel => OutOfFuel
  end.

(** [l[i]] position: indices [0 .. len-1] and, counted from the end,
    [-len .. -1]; anything else is an [IndexError]. *)
Definition norm_index (len : nat) (i : Z) : option nat :=
  if (0 <=? i) && (i <? Z.of_nat len) then Some (Z.to_nat i)
  else if (- Z.of_nat len <=? i) && (i <? 0) then Some (Z.to_nat (Z.of_nat len + i))
  else None.

(** [l[i]] *)
Definition getitem {A : Type} (l : list A) (i : Z) : result A :=
  match norm_index (length l) i with
  | Some k => match l !! k with Some x => Ok x | None => Raise IndexError end
  | None => Raise IndexError
  end.

(** [l[i] = x] *)
Definition setitem {A : Type} (l : list A) (i : Z) (x : A) : result (list A) :=
  match norm_index (length l) i with
  | Some k => Ok (<[k := x]> l)
  | None => Raise IndexError
  end.

(** [range(n)] *)
Definition range (n : nat) : list Z := map Z.of_nat (seq 0 n).

(** [range(lo, hi)] for [lo <= hi] *)
Definition range2 (lo hi : nat) : list Z := map Z.of_nat (seq lo (hi - lo)).

(** [all(f(i) for i in l)]: stops at the first false element. *)
Fixpoint all_gen {A : Type} (f : A -> result bool) (l : list A) : result bool :=
  match l with
  | [] => Ok true
  | x :: l' =>
      bind (f x) (fun b => if b then all_gen f l' else Ok false)
  end.

(** [max(l, key=key)]: the keys are computed once each, in order; a later
    item replaces the best one only when its key is strictly greater; the
    empty list raises [ValueError]. *)
Fixpoint max_loop {A K : Type} (gt : K -> K -> bool) (key : A -> result K)
    (best : A) (best_key : K) (l : list A) : result A :=
  match l with
  | [] => Ok best
  | x :: l' =>
      bind (key x) (fun k =>
        if gt k best_key then max_loop gt key x k l'
        else max_loop gt key best best_key l')
  end.

Definition max_key {A K : Type} (gt : K -> K -> bool) (key : A -> result K)
    (l : list A) : result A :=
  match l with
  | [] => Raise ValueError
  | x :: l' => bind (key x) (fun k => max_loop gt key x k l')
  end.

(** The random source: [draws g i] is the [i]-th number drawn, [pos g] the
    number of draws made so far. *)
Record rng : Type := mkRng {
  draws : nat -> nat;
  pos : nat
}.

(** [random.choice(l)] *)
Definition choice {A : Type} (g : rng) (l : list A) : result (A * rng) :=
  match l !! (draws g (pos g) mod length l)%nat with
  | Some x => Ok (x, {| draws := draws g; pos := S (pos g) |})
  | None => Raise IndexError
  end.

(** Floating-point numbers taken as real numbers, for the search of module
    [Node]; [math.log], [math.sqrt] and [/] raise where Python's do.  The
    binary64 numbers of Python are in the module [Binary64]. *)
Definition math_log (x : R) : result R :=
  if Rle_dec x 0 then Raise ValueError else Ok (ln x).

Definition math_sqrt (x : R) : result R :=
  if Rlt_dec x 0 then Raise ValueError else Ok (R_sqrt.sqrt x).

Definition float_div (x y : R) : result R :=
  if Req_dec_T y 0 then Raise ZeroDivisionError else Ok (x / y)%R.

Definition float_gt (x y : R) : bool :=
  if Rgt_dec x y then true else false.

End Py.

Import Py.

Notation "x <- m ;; k" := (bind m (fun x => k))
  (at level 62, m at next level, right associativity).

(** ** class Connect4 *)

Definition SPACE : ascii := " "%char.
Definition X : ascii := "X"%char.
Definition O : ascii := "O"%char.

(** ['O' if player == 'X' else 'X'] *)
Definition other_player (player : ascii) : ascii :=
  if Ascii.eqb player X then O else X.

Abbreviation grid := (list (list ascii)).

Record Connect4 : Type := mkConnect4 {
  board : grid;
  player : ascii
}.

(** [Connect4()] *)
Definition new_game : Connect4 :=
  {| board := repeat (repeat SPACE 7) 6; player := X |}.

(** [copy]: every row is rebuilt ([row[:]]), so the copy shares no list with
    the receiver. *)
Definition copy (self : Connect4) : Connect4 :=
  {| board := map (fun row => firstn (length row) row) (board self);
     player := player self |}.

(** [self.board[row][col]] *)
Definition cell (b : grid) (row col : Z) : result ascii :=
  r <- getitem b row ;; getitem r col.

(** [get_possible_moves] *)
Fixpoint possible_from (b : grid) (cols : list Z) : result (list Z) :=
  match cols with
  | [] => Ok []
  | col :: cols' =>
      c <- cell b 0 col ;;
      rest <- possible_from b cols' ;;
      Ok (if Ascii.eqb c SPACE then col :: rest else rest)
  end.

Definition get_possible_moves (self : Connect4) : result (list Z) :=
  possible_from (board self) (range 7).

(** The [for row in range(5, -1, -1)] loop of [make_move], with its [break]. *)
Fixpoint drop_piece (b : grid) (rows : list Z) (col : Z) (p : ascii) : result grid :=
  match rows with
  | [] => Ok b
  | row :: rows' =>
      c <- cell b row col ;;
      if Ascii.eqb c SPACE then
        r <- getitem b row ;;
        r' <- setitem r col p ;;
        setitem b row r'
      else drop_piece b rows' col p
  end.

(** [make_move] *)
Definition make_move (self : Connect4) (col : Z) (p : ascii) : result Connect4 :=
  let new_board := copy self in
  b' <- drop_piece (board new_board) [5; 4; 3; 2; 1; 0] col p ;;
  Ok {| board := b'; player := other_player p |}.

(** [m1] when it found something (or raised), otherwise [m2]: two scans that
    follow each other, the first one returning from the function on a hit. *)
Definition or_else {A : Type} (m1 m2 : result (option A)) : result (option A) :=
  match m1 with
  | Ok None => m2
  | _ => m1
  end.

(** [self.board[row][col] != ' ' and
     all(self.board[row + i*dr][col + i*dc] == self.board[row][col]
         for i in range(4))] *)
Definition four_from (b : grid) (dr dc : Z) (row col : Z) : result bool :=
  c0 <- cell b row col ;;
  if negb (Ascii.eqb c0 SPACE) then
    all_gen (fun i =>
               c <- cell b (row + i * dr) (col + i * dc) ;;
               c1 <- cell b row col ;;
               Ok (Ascii.eqb c c1))
            (range 4)
  else Ok false.

(** One pair of nested [for row ... for col ...] loops, the cells taken in
    row-major order; the result is the first cell where a line starts. *)
Fixpoint scan (b : grid) (dr dc : Z) (cells : list (Z * Z)) : result (option (Z * Z)) :=
  match cells with
  | [] => Ok None
  | (row, col) :: cells' =>
      hit <- four_from b dr dc row col ;;
      if hit then Ok (Some (row, col)) else scan b dr dc cells'
  end.

Definition horizontal_starts : list (Z * Z) := list_prod (range 6) (range 4).
Definition vertical_starts : list (Z * Z) := list_prod (range 3) (range 7).
Definition diagonal_pos_starts : list (Z * Z) := list_prod (range 3) (range 4).
Definition diagonal_neg_starts : list (Z * Z) := list_prod (range 3) (range2 3 7).

(** The four scans of [is_terminal] and of [evaluate], in the order of the
    source: horizontal, vertical, positive slope, negative slope. *)
Definition first_line (b : grid) : result (option (Z * Z)) :=
  or_else (scan b 0 1 horizontal_starts)
    (or_else (scan b 1 0 vertical_starts)
       (or_else (scan b 1 1 diagonal_pos_starts)
          (scan b 1 (-1) diagonal_neg_starts))).

(** [is_terminal] *)
Definition is_terminal (self : Connect4) : result bool :=
  hit <- first_line (board self) ;;
  match hit with
  | Some _ => Ok true
  | None =>
      all_gen (fun col => c <- cell (board self) 0 col ;; Ok (negb (Ascii.eqb c SPACE)))
              (range 7)
  end.

(** [evaluate] *)
Definition evaluate (self : Connect4) : result Z :=
  hit <- first_line (board self) ;;
  match hit with
  | Some (row, col) =>
      c <- cell (board self) row col ;;
      Ok (if Ascii.eqb c X then 1 else -1)
  | None => Ok 0
  end.

(** *** Boards of the game: six rows of seven cells *)

Definition wf_grid (b : grid) : Prop :=
  length b = 6%nat /\ Forall (fun row => length row = 7%nat) b.

Definition wf_gridb (b : grid) : bool :=
  Nat.eqb (length b) 6 && forallb (fun row => Nat.eqb (length row) 7) b.

(** The mark in a cell of a well-formed board ([SPACE] off the board). *)
Definition mark (b : grid) (row col : Z) : ascii :=
  match cell b row col with Ok c => c | _ => SPACE end.

(** The directions in which four marks are aligned: right, down, down-right,
    down-left. *)
Definition directions : list (Z * Z) := [(0, 1); (1, 0); (1, 1); (1, -1)].

Definition on_board (row col : Z) : Prop :=
  0 <= row <= 5 /\ 0 <= col <= 6.

(** Four marks [m], none of them empty, aligned from [(row, col)] in
    direction [(dr, dc)], all four on the board. *)
Definition line_from (b : grid) (m : ascii) (dr dc row col : Z) : Prop :=
  m <> SPACE /\
  on_board row col /\ on_board (row + 3 * dr) (col + 3 * dc) /\
  forall i, 0 <= i <= 3 -> mark b (row + i * dr) (col + i * dc) = m.

Definition has_line (b : grid) (m : ascii) : Prop :=
  exists dr dc row col, In (dr, dc) directions /\ line_from b m dr dc row col.

Definition no_line (b : grid) : Prop := forall m, ~ has_line b m.

(** Every cell holds a mark. *)
Definition filled (b : grid) : Prop :=
  forall row col, on_board row col -> mark b row col <> SPACE.

(** The test of [four_from] on the marks of a well-formed board. *)
Definition line4b (b : grid) (dr dc : Z) (cell0 : Z * Z) : bool :=
  let (row, col) := cell0 in
  negb (Ascii.eqb (mark b row col) SPACE) &&
  forallb (fun i => Ascii.eqb (mark b (row + i * dr) (col + i * dc)) (mark b row col))
          (range 4).

(** The first cell, in the order of the four scans, where a line starts. *)
Definition first_line_cell (b : grid) : option (Z * Z) :=
  match find (line4b b 0 1) horizontal_starts with
  | Some c => Some c
  | None =>
      match find (line4b b 1 0) vertical_starts with
      | Some c => Some c
      | None =>
          match find (line4b b 1 1) diagonal_pos_starts with
          | Some c => Some c
          | None => find (line4b b 1 (-1)) diagonal_neg_starts
          end
      end
  end.

(** The cells where the scan in direction [(dr, dc)] starts. *)
Definition starts_of (dr dc : Z) : list (Z * Z) :=
  if (dr =? 0) then horizontal_starts
  else if (dc =? 0) then vertical_starts
  else if (dc =? 1) then diagonal_pos_starts
  else diagonal_neg_starts.

(** *** The order of the scans *)

(** The cells of the rows [rows] and the columns [cols], row by row. *)
Definition cells_of (rows cols : list Z) : list (Z * Z) :=
  flat_map (fun row => map (fun col => (row, col)) cols) rows.

(** The places where four aligned marks can start, each with the direction of
    the line, in the order in which the scans come to them: the horizontal
    lines, from the top row down and in a row from the left; then the
    vertical lines; then the lines of positive slope, which go down to the
    right; then the lines of negative slope, which go down to the left. *)
Definition lines_in_scan_order : list ((Z * Z) * (Z * Z)) :=
  map (pair (0, 1)) (cells_of [0; 1; 2; 3; 4; 5] [0; 1; 2; 3]) ++
  map (pair (1, 0)) (cells_of [0; 1; 2] [0; 1; 2; 3; 4; 5; 6]) ++
  map (pair (1, 1)) (cells_of [0; 1; 2] [0; 1; 2; 3]) ++
  map (pair (1, -1)) (cells_of [0; 1; 2] [3; 4; 5; 6]).

(** The [k]-th place of the scan order holds a line of [m]. *)
Definition line_at (b : grid) (m : ascii) (k : nat) : Prop :=
  exists dr dc row col,
    lines_in_scan_order !! k = Some ((dr, dc), (row, col)) /\
    line_from b m dr dc row col.

(** The first line of the board in the scan order is a line of [m]. *)
Definition first_line_of (b : grid) (m : ascii) : Prop :=
  exists k, line_at b m k /\ forall j m', (j < k)%nat -> ~ line_at b m' j.

(** [line4b] at a place of the scan order. *)
Definition lineb (b : grid) (l : (Z * Z) * (Z * Z)) : bool :=
  line4b b (fst (fst l)) (snd (fst l)) (snd l).

(** [make_move] applied for each (column, player) of [ms] in turn. *)
Fixpoint play_moves (s : Connect4) (ms : list (Z * ascii)) : result Connect4 :=
  match ms with
  | [] => Ok s
  | (col, p) :: ms' => s' <- make_move s col p ;; play_moves s' ms'
  end.

(** A board with four ['X'] in the bottom row and four ['O'] on top of them:
    the position after the moves X0 O0 X1 O1 X2 O2 X3 O3. *)
Definition both_lines : Connect4 :=
  {| board := [ [" "; " "; " "; " "; " "; " "; " "];
                [" "; " "; " "; " "; " "; " "; " "];
                [" "; " "; " "; " "; " "; " "; " "];
                [" "; " "; " "; " "; " "; " "; " "];
                ["O"; "O"; "O"; "O"; " "; " "; " "];
                ["X"; "X"; "X"; "X"; " "; " "; " "] ]%char;
     player := X |}.

(** A board that is filled and has no four aligned marks. *)
Definition drawn_game : Connect4 :=
  {| board := [ ["X"; "X"; "O"; "O"; "X"; "X"; "O"];
                ["O"; "O"; "X"; "X"; "O"; "O"; "X"];
                ["X"; "X"; "O"; "O"; "X"; "X"; "O"];
                ["O"; "O"; "X"; "X"; "O"; "O"; "X"];
                ["X"; "X"; "O"; "O"; "X"; "X"; "O"];
                ["O"; "O"; "X"; "X"; "O"; "O"; "X"] ]%char;
     player := X |}.

(** *** Words of the specification about a move *)

(** The grid with [p] written at [(row, col)], both on the board. *)
Definition place (b : grid) (row col : Z) (p : ascii) : grid :=
  alter (fun r => <[Z.to_nat col := p]> r) (Z.to_nat row) b.

(** The lowest empty row of a column: the first empty one from row 5 up. *)
Definition lowest_empty (b : grid) (col : Z) : option Z :=
  find (fun row => Ascii.eqb (mark b row col) SPACE) [5; 4; 3; 2; 1; 0].

(** A column without an empty cell. *)
Definition column_full (b : grid) (col : Z) : Prop :=
  forall row, 0 <= row <= 5 -> mark b row col <> SPACE.

(** The column is empty. *)
Definition column_empty (b : grid) (col : Z) : Prop :=
  forall row, 0 <= row <= 5 -> mark b row col = SPACE.

(** [make_move] applied for each player of [ps] in turn, in one column. *)
Fixpoint make_moves (s : Connect4) (col : Z) (ps : list ascii) : result Connect4 :=
  match ps with
  | [] => Ok s
  | p :: ps' => s' <- make_move s col p ;; make_moves s' col ps'
  end.

(** [k] marks stacked at the bottom of a column, the cells above them empty. *)
Definition stacked (b : grid) (col : Z) (k : nat) : Prop :=
  forall row, 0 <= row <= 5 -> (mark b row col = SPACE <-> row < 6 - Z.of_nat k).

Definition column_fullb (b : grid) (col : Z) : bool :=
  forallb (fun row => negb (Ascii.eqb (mark b row col) SPACE)) (range 6).

(** The position after six moves in column 0, the players alternating. *)
Definition column0_full : Connect4 :=
  {| board := [ ["O"; " "; " "; " "; " "; " "; " "];
                ["X"; " "; " "; " "; " "; " "; " "];
                ["O"; " "; " "; " "; " "; " "; " "];
                ["X"; " "; " "; " "; " "; " "; " "];
                ["O"; " "; " "; " "; " "; " "; " "];
                ["X"; " "; " "; " "; " "; " "; " "] ]%char;
     player := X |}.

(** *** The boards as Python objects

    [self.board] is a list of six row lists and [make_move] writes into a row
    list in place.  The store holds the row lists by address; a [Connect4]
    object is the addresses of its rows (the outer list is only ever built,
    never written) and its [player] attribute. *)

Record Connect4_obj : Type := mkObj {
  row_objs : list nat;
  turn : ascii
}.

Abbreviation store := (list (list ascii)).

(** The value an object denotes in a store. *)
Definition value_of (st : store) (o : Connect4_obj) : Connect4 :=
  {| board := map (fun a => st !!! a) (row_objs o); player := turn o |}.

(** The rows of an object exist in the store. *)
Definition valid_obj (st : store) (o : Connect4_obj) : Prop :=
  Forall (fun a => (a < length st)%nat) (row_objs o).

(** [Connect4()]: six fresh rows. *)
Definition new_obj (st : store) : store * Connect4_obj :=
  (st ++ repeat (repeat SPACE 7) 6, {| row_objs := seq (length st) 6; turn := X |}).

(** [copy], on objects: a fresh object, then a fresh list for every row. *)
Definition copy_obj (st : store) (self : Connect4_obj) : store * Connect4_obj :=
  let st1 := fst (new_obj st) in
  let fresh := map (fun a => let row := st1 !!! a in firstn (length row) row) (row_objs self) in
  (st1 ++ fresh, {| row_objs := seq (length st1) (length fresh); turn := turn self |}).

(** The loop of [make_move], writing into the row object. *)
Fixpoint drop_piece_obj (st : store) (b : list nat) (rws : list Z) (col : Z) (p : ascii)
  : result store :=
  match rws with
  | [] => Ok st
  | row :: rws' =>
      a <- getitem b row ;;
      c <- getitem (st !!! a) col ;;
      if Ascii.eqb c SPACE then
        r' <- setitem (st !!! a) col p ;;
        Ok (<[a := r']> st)
      else drop_piece_obj st b rws' col p
  end.

(** [make_move], on objects. *)
Definition make_move_obj (st : store) (self : Connect4_obj) (col : Z) (p : ascii)
  : result (store * Connect4_obj) :=
  let (st1, new_board) := copy_obj st self in
  st2 <- drop_piece_obj st1 (row_objs new_board) [5; 4; 3; 2; 1; 0] col p ;;
  Ok (st2, {| row_objs := row_objs new_board; turn := other_player p |}).

(** The object of [column0_full], its rows at the addresses 0 to 5 of the
    store [board column0_full]. *)
Definition column0_full_obj : Connect4_obj :=
  {| row_objs := [0; 1; 2; 3; 4; 5]%nat; turn := X |}.

(** ** class Node

    The nodes are objects that refer to each other (children, parent) and
    are updated in place, so they live in a heap: the list of the [Node]
    objects in the order of their creation, an object being named by its
    position. *)

Module Node.

Record t : Type := mk {
  state : Connect4;
  player : ascii;
  children : list nat;
  visits : Z;
  score : Z;
  parent : option nat
}.

Definition default : t :=
  {| state := new_game; player := X; children := []; visits := 0; score := 0;
     parent := None |}.

#[global] Instance inhabited : Inhabited t := populate default.

(** [Node(state, player, parent)]: the new object and the heap with it. *)
Definition new (h : list t) (st : Connect4) (p : ascii) (par : option nat)
  : list t * nat :=
  (h ++ [{| state := st; player := p; children := []; visits := 0; score := 0;
            parent := par |}],
   length h).

(** [1e-8] *)
Definition eps : R := (1 / 100000000)%R.

(** [sum(child.visits for child in self.children)] *)
Definition total_visits (h : list t) (self : nat) : Z :=
  fold_left (fun acc child => acc + visits (h !!! child)) (children (h !!! self)) 0.

(** [math.log(total_visits + 1e-8) if total_visits else 0] *)
Definition log_exploration_value (h : list t) (self : nat) : result R :=
  if total_visits h self =? 0 then Ok 0%R
  else Py.math_log (IZR (total_visits h self) + eps)%R.

(** [ucb_score(node)], the key of [select_child] *)
Definition ucb_score (h : list t) (lev : R) (node : nat) : result R :=
  a <- Py.float_div (IZR (score (h !!! node))) (IZR (visits (h !!! node)) + eps)%R ;;
  q <- Py.float_div lev (IZR (visits (h !!! node)) + eps)%R ;;
  r <- Py.math_sqrt q ;;
  Ok (a + r)%R.

(** [select_child] *)
Definition select_child (h : list t) (self : nat) : result nat :=
  lev <- log_exploration_value h self ;;
  max_key Py.float_gt (ucb_score h lev) (children (h !!! self)).

(** [self.children.append(child)] *)
Definition append_child (h : list t) (self child : nat) : list t :=
  let n := h !!! self in
  <[self := {| state := state n; player := player n;
               children := children n ++ [child];
               visits := visits n; score := score n; parent := parent n |}]> h.

(** The [for move in possible_moves] loop of [expand]. *)
Fixpoint expand_loop (h : list t) (self : nat) (moves : list Z) : result (list t) :=
  match moves with
  | [] => Ok h
  | move :: moves' =>
      new_state <- make_move (state (h !!! self)) move (player (h !!! self)) ;;
      let new_player := other_player (player (h !!! self)) in
      let (h1, child) := new h new_state new_player (Some self) in
      expand_loop (append_child h1 self child) self moves'
  end.

(** [expand]: the heap after it and the list [self.children] it returns. *)
Definition expand (h : list t) (self : nat) : result (list t * list nat) :=
  possible_moves <- get_possible_moves (state (h !!! self)) ;;
  h' <- expand_loop h self possible_moves ;;
  Ok (h', children (h' !!! self)).

(** The [while not state.is_terminal()] loop of [simulate]. *)
Fixpoint simulate_loop (fuel : nat) (g : rng) (st : Connect4) (p : ascii)
  : result (Z * rng) :=
  match fuel with
  | 0%nat => OutOfFuel
  | S fuel' =>
      terminal <- is_terminal st ;;
      if terminal then
        v <- evaluate st ;; Ok (v, g)
      else
        possible_moves <- get_possible_moves st ;;
        mg <- choice g possible_moves ;;
        st' <- make_move st (fst mg) p ;;
        simulate_loop fuel' (snd mg) st' (other_player p)
  end.

(** [simulate] *)
Definition simulate (fuel : nat) (g : rng) (h : list t) (self : nat)
  : result (Z * rng) :=
  simulate_loop fuel g (copy (state (h !!! self))) (player (h !!! self)).

(** [self.visits += 1; self.score += score] *)
Definition record_score (h : list t) (self : nat) (sc : Z) : list t :=
  let n := h !!! self in
  <[self := {| state := state n; player := player n; children := children n;
               visits := visits n + 1; score := score n + sc;
               parent := parent n |}]> h.

(** [backpropagate] *)
Fixpoint backpropagate (fuel : nat) (h : list t) (self : nat) (sc : Z)
  : result (list t) :=
  match fuel with
  | 0%nat => OutOfFuel
  | S fuel' =>
      let h1 := record_score h self sc in
      match parent (h1 !!! self) with
      | Some p => backpropagate fuel' h1 p (- sc)
      | None => Ok h1
      end
  end.

End Node.

Abbreviation heap := (list Node.t).

(** ** mcts *)

(** [while node.children and not node.state.is_terminal():
       node = node.select_child()] *)
Fixpoint select_loop (fuel : nat) (h : heap) (node : nat) : result nat :=
  match fuel with
  | 0%nat => OutOfFuel
  | S fuel' =>
      match Node.children (h !!! node) with
      | [] => Ok node
      | _ :: _ =>
          terminal <- is_terminal (Node.state (h !!! node)) ;;
          if terminal then Ok node
          else
            child <- Node.select_child h node ;;
            select_loop fuel' h child
      end
  end.

(** One round of the [for _ in range(iterations)] loop. *)
Definition iteration (fuel : nat) (h : heap) (g : rng) (root : nat)
  : result (heap * rng) :=
  node <- select_loop fuel h root ;;
  terminal <- is_terminal (Node.state (h !!! node)) ;;
  hn <- (if negb terminal then
           hc <- Node.expand h node ;;
           first <- getitem (snd hc) 0 ;;
           Ok (fst hc, first)
         else Ok (h, node)) ;;
  sg <- Node.simulate fuel g (fst hn) (snd hn) ;;
  h' <- Node.backpropagate fuel (fst hn) (snd hn) (fst sg) ;;
  Ok (h', snd sg).

Fixpoint iterations_loop (n : nat) (fuel : nat) (h : heap) (g : rng) (root : nat)
  : result (heap * rng) :=
  match n with
  | 0%nat => Ok (h, g)
  | S n' =>
      hg <- iteration fuel h g root ;;
      iterations_loop n' fuel (fst hg) (snd hg) root
  end.

(** [mcts(root, iterations)]: the returned node, with the heap and the random
    source after the call.  [fuel] bounds each of the loops of a round. *)
Definition mcts (fuel : nat) (h : heap) (g : rng) (root : nat) (iterations : Z)
  : result (nat * heap * rng) :=
  hg <- iterations_loop (Z.to_nat iterations) fuel h g root ;;
  best <- max_key Z.gtb (fun node => Ok (Node.visits (fst hg !!! node)))
                  (Node.children (fst hg !!! root)) ;;
  Ok (best, fst hg, snd hg).

(** *** Words of the specification about the tree *)

(** A node with its ancestors, the node first, at most [fuel] of them. *)
Fixpoint lineage (fuel : nat) (h : heap) (node : nat) : list nat :=
  match fuel with
  | 0%nat => []
  | S fuel' =>
      node :: match Node.parent (h !!! node) with
              | Some p => lineage fuel' h p
              | None => []
              end
  end.

(** A parent is an object that existed when its child was created. *)
Definition parents_before (h : heap) : Prop :=
  forall i p, (i < length h)%nat -> Node.parent (h !!! i) = Some p -> (p < i)%nat.

Definition parents_beforeb (h : heap) : bool :=
  forallb (fun i => match Node.parent (h !!! i) with
                    | Some p => Nat.ltb p i
                    | None => true
                    end)
          (seq 0 (length h)).

(** Two heaps with the same objects, up to their statistics. *)
Definition same_tree (h h' : heap) : Prop :=
  length h' = length h /\
  forall j, Node.state (h' !!! j) = Node.state (h !!! j) /\
            Node.player (h' !!! j) = Node.player (h !!! j) /\
            Node.children (h' !!! j) = Node.children (h !!! j) /\
            Node.parent (h' !!! j) = Node.parent (h !!! j).

(** The cells of the board. *)
Definition all_cells : list (Z * Z) := list_prod (range 6) (range 7).

(** The number of empty cells of a board. *)
Definition count_empty (b : grid) : nat :=
  list_sum (map (fun rc => if Ascii.eqb (mark b (fst rc) (snd rc)) SPACE then 1%nat else 0%nat)
                all_cells).

(** A node of a search tree: a 6x7 board, a player, a visit count that is
    not negative, and children that are distinct objects created after the
    node, with the node as their parent. *)
Definition wf_node (h : heap) (i : nat) : Prop :=
  wf_grid (board (Node.state (h !!! i))) /\
  Node.player (h !!! i) <> SPACE /\
  0 <= Node.visits (h !!! i) /\
  NoDup (Node.children (h !!! i)) /\
  forall c, In c (Node.children (h !!! i)) ->
            (i < c < length h)%nat /\ Node.parent (h !!! c) = Some i.

Definition wf_heap (h : heap) : Prop :=
  parents_before h /\ forall i, (i < length h)%nat -> wf_node h i.

(** [h'] is [h] after some rounds of the search: the old objects keep their
    state, player and parent, and their children unless they had none. *)
Definition extends (h h' : heap) : Prop :=
  (length h <= length h')%nat /\
  forall j, (j < length h)%nat ->
    Node.state (h' !!! j) = Node.state (h !!! j) /\
    Node.player (h' !!! j) = Node.player (h !!! j) /\
    Node.parent (h' !!! j) = Node.parent (h !!! j) /\
    (Node.children (h' !!! j) = Node.children (h !!! j) \/ Node.children (h !!! j) = []).

(** The state of [c] is the result of a move of the player of [node] on the
    state of [node], in one of the columns 0 to 6. *)
Definition child_by_move (h : heap) (node c : nat) : Prop :=
  exists col, 0 <= col <= 6 /\
    make_move (Node.state (h !!! node)) col (Node.player (h !!! node)) =
    Ok (Node.state (h !!! c)).

(** [x], at position [i], is the first item of [l] with the greatest key
    [kf], the keys compared by [gt]. *)
Definition first_max {A K : Type} (gt : K -> K -> bool) (kf : A -> K)
    (l : list A) (i : nat) (x : A) : Prop :=
  l !! i = Some x /\
  (forall j y, l !! j = Some y -> gt (kf y) (kf x) = false) /\
  (forall j y, (j < i)%nat -> l !! j = Some y -> gt (kf x) (kf y) = true).

(** The value of [ucb_score] for a child of [self], when nothing raises. *)
Definition ucb (h : heap) (self node : nat) : R :=
  let lev := if Node.total_visits h self =? 0 then 0%R
             else ln (IZR (Node.total_visits h self) + Node.eps) in
  (IZR (Node.score (h !!! node)) / (IZR (Node.visits (h !!! node)) + Node.eps) +
   R_sqrt.sqrt (lev / (IZR (Node.visits (h !!! node)) + Node.eps)))%R.

(** A root on the empty board and its first child, before any visit. *)
Definition root_and_child : heap :=
  [ {| Node.state := new_game; Node.player := X; Node.children := [1%nat];
       Node.visits := 0; Node.score := 0; Node.parent := None |};
    {| Node.state := {| board := place (board new_game) 5 0 X; player := O |};
       Node.player := O; Node.children := [];
       Node.visits := 0; Node.score := 0; Node.parent := Some 0%nat |} ].

(** The heap with a fresh root on the empty board alone,
    [Node(Connect4(), 'X')]. *)
Definition fresh_root : heap := fst (Node.new [] new_game X None).

(** Fuel that is enough for every loop of [mcts] on the heap [h]: a round
    goes down at most the length of the heap, creates at most 7 nodes, plays
    at most 42 moves and comes back up at most the length of the heap. *)
Definition enough_fuel (h : heap) (iterations : Z) : nat :=
  (length h + 7 * Z.to_nat iterations + 43)%nat.

(** A random source that always draws 0. *)
Definition zero_rng : rng := {| draws := fun _ => 0%nat; pos := 0 |}.

(** The heap after one round of [mcts] on a fresh root. *)
Definition after_one_round : heap :=
  match iterations_loop 1 60 fresh_root zero_rng 0 with
  | Ok (h, _) => h
  | _ => fresh_root
  end.

(** The board with ['X'] in the columns 0 to 3 of the bottom row. *)
Definition x_wins : Connect4 :=
  {| board := [ [" "; " "; " "; " "; " "; " "; " "];
                [" "; " "; " "; " "; " "; " "; " "];
                [" "; " "; " "; " "; " "; " "; " "];
                [" "; " "; " "; " "; " "; " "; " "];
                [" "; " "; " "; " "; " "; " "; " "];
                ["X"; "X"; "X"; "X"; " "; " "; " "] ]%char;
     player := O |}.

(** The heap with a root on [x_wins] alone. *)
Definition terminal_root : heap := fst (Node.new [] x_wins O None).

(** The root of [terminal_root] after [expand] has been called on it: its
    state is terminal and it has a child for each of the seven columns. *)
Definition terminal_root_expanded : heap :=
  match Node.expand terminal_root 0 with
  | Ok (h, _) => h
  | _ => terminal_root
  end.

(** *** More words about boards *)

(** The top row has no empty cell. *)
Definition top_full (b : grid) : Prop :=
  forall col, 0 <= col <= 6 -> mark b 0 col <> SPACE.

(** No mark floats: below a mark of a column there are only marks. *)
Definition gravity (b : grid) : Prop :=
  forall row col, on_board row col -> mark b row col <> SPACE ->
  forall r, row <= r <= 5 -> mark b r col <> SPACE.

Definition gravityb (b : grid) : bool :=
  forallb (fun rc =>
             Ascii.eqb (mark b (fst rc) (snd rc)) SPACE ||
             forallb (fun r => (r <? fst rc) || negb (Ascii.eqb (mark b r (snd rc)) SPACE))
                     (range 6))
          all_cells.

(** The state after moves in the columns [cols], the players taking turns
    from [p], when every move is made on a state that is not terminal and in
    a column of its possible moves; [None] otherwise. *)
Fixpoint play_legal (s : Connect4) (p : ascii) (cols : list Z) : option Connect4 :=
  match cols with
  | [] => Some s
  | col :: cols' =>
      match is_terminal s, get_possible_moves s, make_move s col p with
      | Ok false, Ok moves, Ok s1 =>
          if existsb (Z.eqb col) moves then play_legal s1 (other_player p) cols'
          else None
      | _, _, _ => None
      end
  end.

(** *** Invariants of the search tree *)






(** ** [play_game] *)

(** What the program has written to the standard output is a string. *)
Definition newline : string := String (ascii_of_nat 10) EmptyString.

(** [print(text)] *)
Definition print (out : string) (text : string) : string :=
  (out ++ (text ++ newline))%string.

(** ['\n'.join([''.join(row) for row in board])] *)
Definition show_board (b : grid) : string :=
  String.concat newline (map string_of_list_ascii b).

(** The [while] loop of [play_game]: the tree, the random source and the
    output after it, with the last values of [root] and [game].  [rounds]
    bounds the loop, [fuel] the loops of [mcts]. *)
Fixpoint play_loop (rounds fuel : nat) (h : heap) (g : rng) (out : string)
    (root : nat) (game : Connect4) : result (heap * rng * string * nat * Connect4) :=
  match rounds with
  | 0%nat => OutOfFuel
  | S rounds' =>
      terminal <- is_terminal game ;;
      if negb terminal then
        r <- mcts fuel h g root 1000 ;;
        let '(best_child, h1, g1) := r in
        let game1 := Node.state (h1 !!! best_child) in
        let out1 := print out (show_board (board game1)) in
        let out2 := print out1 EmptyString in
        play_loop rounds' fuel h1 g1 out2 best_child game1
      else Ok (h, g, out, root, game)
  end.

Definition result_text (score : Z) : string :=
  if score =? 0 then "Draw"%string
  else if score =? 1 then "X wins"%string else "O wins"%string.

(** [play_game] on the tree that [load_or_create_tree] returns, the node
    [root] of the heap [h]: the heap, the random source and the output after
    it, and the node that is handed to [save_tree]. *)
Definition play_game (rounds fuel : nat) (h : heap) (g : rng) (root : nat)
  : result (heap * rng * string * nat) :=
  let game := Node.state (h !!! root) in
  r <- play_loop rounds fuel h g EmptyString root game ;;
  let '(h1, g1, out1, root1, game1) := r in
  score <- evaluate game1 ;;
  let out2 := print out1 ("Game over. Result: " ++ result_text score)%string in
  h2 <- Node.backpropagate fuel h1 root1 score ;;
  Ok (h2, g1, out2, root1).




(** ** [select_child] in floating-point arithmetic *)

(** Python's [float] is the IEEE 754 binary64 format: the primitive floats
    of Rocq, whose operations round to nearest, ties to even.  The
    logarithm of the C library is not one of them: the definitions take it
    as the function [libm_log]. *)
Module Binary64.
Import PrimFloat.

Abbreviation float := PrimFloat.float.

(** The conversion of an [int] operand of an operation with a [float]:
    the nearest binary64 number, ties to even, and [OverflowError] when
    that is beyond the greatest one. *)
Definition float_of_int (z : Z) : result float :=
  let x := FloatOps.SF2Prim
             (SpecFloat.binary_normalize FloatOps.prec FloatOps.emax z 0 false) in
  if is_infinity x then Raise OverflowError else Ok x.

(** [x / y] *)
Definition float_div (x y : float) : result float :=
  if (y =? 0)%float then Raise ZeroDivisionError else Ok (x / y)%float.

(** [x > y] *)
Definition float_gt (x y : float) : bool := (y <? x)%float.

(** A function of the [math] module made from the function [func] of the C
    library: a result that is not a number for an argument that is one, or
    an infinite result for a finite argument, is a domain error. *)
Definition math_1 (func : float -> float) (x : float) : result float :=
  let r := func x in
  if is_nan r && negb (is_nan x) then Raise ValueError
  else if is_infinity r && is_finite x then Raise ValueError
  else Ok r.

(** The logarithm that [math.log] hands to [math_1]: the one of the C
    library on the finite positive numbers. *)
Definition m_log (libm_log : float -> float) (x : float) : float :=
  if is_finite x then
    if (0 <? x)%float then libm_log x
    else if (x =? 0)%float then neg_infinity else nan
  else if is_nan x then x
  else if (0 <? x)%float then x else nan.

(** [math.log(x)] *)
Definition math_log (libm_log : float -> float) (x : float) : result float :=
  math_1 (m_log libm_log) x.

(** [math.sqrt(x)] *)
Definition math_sqrt (x : float) : result float := math_1 sqrt x.

(** [1e-8] *)
Definition eps : float := 0x1.5798ee2308c3ap-27%float.

(** [n + 1e-8] for an [int] [n] *)
Definition plus_eps (n : Z) : result float :=
  x <- float_of_int n ;; Ok (x + eps)%float.

(** [math.log(total_visits + 1e-8) if total_visits else 0]; the [int] 0 is
    converted when it is divided. *)
Definition log_exploration_value (libm_log : float -> float) (h : list Node.t) (self : nat)
  : result float :=
  if Node.total_visits h self =? 0 then Ok 0%float
  else x <- plus_eps (Node.total_visits h self) ;; math_log libm_log x.

(** [ucb_score(node)], the key of [select_child] *)
Definition ucb_score (h : list Node.t) (lev : float) (node : nat) : result float :=
  d <- plus_eps (Node.visits (h !!! node)) ;;
  s <- float_of_int (Node.score (h !!! node)) ;;
  a <- float_div s d ;;
  d' <- plus_eps (Node.visits (h !!! node)) ;;
  q <- float_div lev d' ;;
  r <- math_sqrt q ;;
  Ok (a + r)%float.

(** [select_child] *)
Definition select_child (libm_log : float -> float) (h : list Node.t) (self : nat)
  : result nat :=
  lev <- log_exploration_value libm_log h self ;;
  max_key float_gt (ucb_score h lev) (Node.children (h !!! self)).

(** The upper-confidence bound in the words of the specification:
    [childScore / (childVisits + eps)
     + sqrt(log(totalSiblingVisits + eps) / (childVisits + eps))],
    the logarithm taken whatever the total is. *)
Definition spec_ucb_score (libm_log : float -> float) (h : list Node.t) (self node : nat)
  : result float :=
  d <- plus_eps (Node.visits (h !!! node)) ;;
  s <- float_of_int (Node.score (h !!! node)) ;;
  a <- float_div s d ;;
  x <- plus_eps (Node.total_visits h self) ;;
  l <- math_log libm_log x ;;
  d' <- plus_eps (Node.visits (h !!! node)) ;;
  q <- float_div l d' ;;
  r <- math_sqrt q ;;
  Ok (a + r)%float.

(** [math.log(19898 + 1e-8)] as CPython 3.11 on Linux x86-64 returns it. *)
Definition log_19898 : float := 0x1.3cbf7be2d2d67p+3%float.

(** Values of [math.log] as CPython 3.11 on Linux x86-64 returns them, at
    [1e-8], at [19898 + 1e-8] and at [16089 + 1e-8]. *)
Definition log_samples : list (float * float) :=
  [ (0x1.5798ee2308c3ap-27, -0x1.26bb1bbb55516p+4);
    (0x1.36e8000000abdp+14, log_19898);
    (0x1.f6c800000157ap+13, 0x1.35f2d1ddc29d9p+3) ]%float.

(** A logarithm with the values of [log_samples]. *)
Definition sample_log (x : float) : float :=
  match find (fun p => (fst p =? x)%float) log_samples with
  | Some p => snd p
  | None => nan
  end.

(** The keys of the children [(visits, score)] = (7900, 4807), (3809, 2259),
    (4380, -4380), (3809, 2259) as Python computes them. *)
Definition sample_keys : list float :=
  [ 0x1.49aa664b93488p-1; 0x1.49c06fe09e37cp-1; -0x1.e7a90acbfeb9fp-1;
    0x1.49c06fe09e37cp-1 ]%float.

(** The key of the child [c] of the root of [four_children]. *)
Definition sample_key (c : nat) : float := nth (c - 1) sample_keys nan.

(** The keys of the children (7900, 4807), (3809, 2259), (4380, -4380) alone
    as Python computes them: the first two are next to each other. *)
Definition near_keys : list float :=
  [ 0x1.497854eb42a1bp-1; 0x1.497854eb42a1cp-1; -0x1.e7ec488d545bbp-1 ]%float.

End Binary64.

(** A root with three children that have been visited. *)
Definition three_children : heap :=
  [ {| Node.state := new_game; Node.player := X; Node.children := [1; 2; 3]%nat;
       Node.visits := 16089; Node.score := 0; Node.parent := None |};
    {| Node.state := new_game; Node.player := O; Node.children := [];
       Node.visits := 7900; Node.score := 4807; Node.parent := Some 0%nat |};
    {| Node.state := new_game; Node.player := O; Node.children := [];
       Node.visits := 3809; Node.score := 2259; Node.parent := Some 0%nat |};
    {| Node.state := new_game; Node.player := O; Node.children := [];
       Node.visits := 4380; Node.score := -4380; Node.parent := Some 0%nat |} ].

(** A root with four children that have been visited, the fourth with the
    visits and the score of the second. *)
Definition four_children : heap :=
  [ {| Node.state := new_game; Node.player := X; Node.children := [1; 2; 3; 4]%nat;
       Node.visits := 19898; Node.score := 0; Node.parent := None |};
    {| Node.state := new_game; Node.player := O; Node.children := [];
       Node.visits := 7900; Node.score := 4807; Node.parent := Some 0%nat |};
    {| Node.state := new_game; Node.player := O; Node.children := [];
       Node.visits := 3809; Node.score := 2259; Node.parent := Some 0%nat |};
    {| Node.state := new_game; Node.player := O; Node.children := [];
       Node.visits := 4380; Node.score := -4380; Node.parent := Some 0%nat |};
    {| Node.state := new_game; Node.player := O; Node.children := [];
       Node.visits := 3809; Node.score := 2259; Node.parent := Some 0%nat |} ].

(** * Properties *)

(** ** Python lists *)

Lemma norm_index_nonneg (len : nat) (i : Z) :
  0 <= i < Z.of_nat len -> norm_index len i = Some (Z.to_nat i).
Proof.
  intros H. unfold norm_index.
  destruct (Z.leb_spec 0 i); [|lia]. destruct (Z.ltb_spec i (Z.of_nat len)); [|lia].
  reflexivity.
Qed.

Lemma norm_index_out (len : nat) (i : Z) :
  i < - Z.of_nat len \/ Z.of_nat len <= i -> norm_index len i = None.
Proof.
  intros H. unfold norm_index.
  destruct (Z.leb_spec 0 i), (Z.ltb_spec i (Z.of_nat len)),
    (Z.leb_spec (- Z.of_nat len) i), (Z.ltb_spec i 0); simpl; try reflexivity; lia.
Qed.

Lemma getitem_lookup {A : Type} (l : list A) (i : Z) (x : A) :
  0 <= i -> l !! Z.to_nat i = Some x -> getitem l i = Ok x.
Proof.
  intros Hi Hx. unfold getitem.
  rewrite norm_index_nonneg.
  - rewrite Hx. reflexivity.
  - apply lookup_lt_Some in Hx. lia.
Qed.

Lemma getitem_out {A : Type} (l : list A) (i : Z) :
  i < - Z.of_nat (length l) \/ Z.of_nat (length l) <= i ->
  getitem l i = Raise IndexError.
Proof. intros H. unfold getitem. rewrite norm_index_out by exact H. reflexivity. Qed.

Lemma setitem_insert {A : Type} (l : list A) (i : Z) (x : A) :
  0 <= i < Z.of_nat (length l) -> setitem l i x = Ok (<[Z.to_nat i := x]> l).
Proof. intros H. unfold setitem. rewrite norm_index_nonneg by exact H. reflexivity. Qed.

Lemma alter_as_insert {A : Type} (f : A -> A) (l : list A) (i : nat) (x : A) :
  l !! i = Some x -> alter f i l = <[i := f x]> l.
Proof.
  revert i. induction l as [|y l IH]; intros [|i] H; simpl in *; try discriminate.
  - injection H as ->. reflexivity.
  - f_equal. apply IH. exact H.
Qed.

(** ** Well-formed boards *)

Lemma wf_gridb_spec (b : grid) : wf_gridb b = true <-> wf_grid b.
Proof.
  unfold wf_gridb, wf_grid. rewrite andb_true_iff, Nat.eqb_eq, forallb_forall, List.Forall_forall.
  split; intros [H1 H2]; split; auto; intros x Hx.
  - apply Nat.eqb_eq. auto.
  - apply Nat.eqb_eq. auto.
Qed.

Lemma wf_grid_row (b : grid) (row : Z) :
  wf_grid b -> 0 <= row <= 5 ->
  exists r, b !! Z.to_nat row = Some r /\ length r = 7%nat.
Proof.
  intros [Hlen Hrows] Hrow.
  destruct (lookup_lt_is_Some_2 b (Z.to_nat row)) as [r Hr]; [lia|].
  exists r. split; [exact Hr|].
  rewrite List.Forall_forall in Hrows. apply Hrows.
  apply list_elem_of_In. eapply list_elem_of_lookup_2. exact Hr.
Qed.

Lemma wf_grid_cell (b : grid) (row col : Z) :
  wf_grid b -> on_board row col ->
  exists r c, b !! Z.to_nat row = Some r /\ r !! Z.to_nat col = Some c /\
              length r = 7%nat /\ cell b row col = Ok c.
Proof.
  intros Hwf [Hrow Hcol].
  destruct (wf_grid_row b row Hwf Hrow) as (r & Hr & Hlen).
  destruct (lookup_lt_is_Some_2 r (Z.to_nat col)) as [c Hc]; [lia|].
  exists r, c. repeat split; auto.
  unfold cell. rewrite (getitem_lookup b row r) by (auto; lia). simpl.
  apply getitem_lookup; [lia|exact Hc].
Qed.

Lemma cell_mark (b : grid) (row col : Z) :
  wf_grid b -> on_board row col -> cell b row col = Ok (mark b row col).
Proof.
  intros Hwf Hon. destruct (wf_grid_cell b row col Hwf Hon) as (r & c & _ & _ & _ & Hc).
  unfold mark. rewrite Hc. reflexivity.
Qed.

Lemma copy_board (s : Connect4) : board (copy s) = board s.
Proof.
  unfold copy. simpl. induction (board s) as [|r b IH]; simpl; [reflexivity|].
  rewrite firstn_all, IH. reflexivity.
Qed.

Lemma wf_place (b : grid) (row col : Z) (p : ascii) :
  wf_grid b -> wf_grid (place b row col p).
Proof.
  intros [Hlen Hrows]. unfold place. split.
  - rewrite length_alter. exact Hlen.
  - rewrite List.Forall_forall in *. intros r Hr.
    apply list_elem_of_In, list_elem_of_lookup in Hr as [i Hi].
    destruct (decide (Z.to_nat row = i)) as [<-|Hne].
    + rewrite list_lookup_alter_eq in Hi.
      destruct (b !! Z.to_nat row) as [r0|] eqn:Hr0; simpl in Hi; [|discriminate].
      injection Hi as <-. rewrite length_insert. apply Hrows.
      apply list_elem_of_In. eapply list_elem_of_lookup_2. exact Hr0.
    + rewrite list_lookup_alter_ne in Hi by exact Hne.
      apply Hrows, list_elem_of_In. eapply list_elem_of_lookup_2. exact Hi.
Qed.

Lemma mark_place (b : grid) (row col : Z) (p : ascii) (r c : Z) :
  wf_grid b -> on_board row col -> on_board r c ->
  mark (place b row col p) r c =
  if (r =? row) && (c =? col) then p else mark b r c.
Proof.
  intros Hwf Hrc Hon.
  destruct (wf_grid_cell b r c Hwf Hon) as (rw & x & Hrw & Hx & Hlen & Hcell).
  assert (Hm : mark b r c = x) by (unfold mark; rewrite Hcell; reflexivity).
  rewrite Hm.
  destruct Hon as [Hr Hc]. destruct Hrc as [Hrow Hcol].
  unfold mark, cell, place.
  destruct (Z.eqb_spec r row) as [->|Hne]; simpl.
  - rewrite (getitem_lookup _ row (<[Z.to_nat col := p]> rw)); [|lia|].
    2:{ rewrite list_lookup_alter_eq, Hrw. reflexivity. }
    simpl. destruct (Z.eqb_spec c col) as [->|Hnc].
    + rewrite (getitem_lookup _ col p); [reflexivity|lia|].
      apply list_lookup_insert_eq. lia.
    + rewrite (getitem_lookup _ c x); [reflexivity|lia|].
      rewrite list_lookup_insert_ne by lia. exact Hx.
  - rewrite (getitem_lookup _ r rw); [|lia|].
    2:{ rewrite list_lookup_alter_ne by lia. exact Hrw. }
    simpl. rewrite (getitem_lookup _ c x); [reflexivity|lia|exact Hx].
Qed.

(** ** make_move *)

Lemma drop_piece_find (b : grid) (rows : list Z) (col : Z) (p : ascii) :
  wf_grid b -> 0 <= col <= 6 -> List.Forall (fun row => 0 <= row <= 5) rows ->
  drop_piece b rows col p =
  Ok (match find (fun row => Ascii.eqb (mark b row col) SPACE) rows with
      | Some row => place b row col p
      | None => b
      end).
Proof.
  intros Hwf Hcol Hrows. induction Hrows as [|row rows Hrow _ IH]; simpl; [reflexivity|].
  destruct (wf_grid_cell b row col Hwf (conj Hrow Hcol)) as (r & c & Hr & Hc & Hlen & Hcell).
  rewrite Hcell. simpl. unfold mark at 1. rewrite Hcell.
  destruct (Ascii.eqb c SPACE); [|exact IH].
  rewrite (getitem_lookup b row r) by (auto; lia). simpl.
  rewrite setitem_insert by lia. simpl.
  rewrite setitem_insert by (destruct Hwf; lia).
  unfold place. rewrite (alter_as_insert _ b _ r Hr). reflexivity.
Qed.

Lemma make_move_lowest (s : Connect4) (col : Z) (p : ascii) :
  wf_grid (board s) -> 0 <= col <= 6 ->
  make_move s col p =
  Ok {| board := match lowest_empty (board s) col with
                 | Some row => place (board s) row col p
                 | None => board s
                 end;
        player := other_player p |}.
Proof.
  intros Hwf Hcol. unfold make_move, lowest_empty. rewrite copy_board.
  rewrite drop_piece_find; auto.
  repeat constructor; lia.
Qed.

Lemma lowest_empty_None (b : grid) (col : Z) :
  lowest_empty b col = None <-> column_full b col.
Proof.
  unfold lowest_empty, column_full. split.
  - intros H row Hrow Hm.
    assert (Hin : In row [5; 4; 3; 2; 1; 0]) by (simpl; lia).
    eapply find_none in H; [|exact Hin]. simpl in H.
    rewrite Hm in H. discriminate.
  - intros H. simpl.
    repeat match goal with
    | |- context [Ascii.eqb (mark b ?r col) SPACE] =>
        destruct (Ascii.eqb_spec (mark b r col) SPACE) as [E|_];
        [exfalso; apply (H r); [lia|exact E]|]
    end. reflexivity.
Qed.

Lemma lowest_empty_Some (b : grid) (col row : Z) :
  lowest_empty b col = Some row <->
  0 <= row <= 5 /\ mark b row col = SPACE /\
  forall r, row < r <= 5 -> mark b r col <> SPACE.
Proof.
  unfold lowest_empty. split.
  - intros H. simpl in H.
    repeat match type of H with
    | context [Ascii.eqb (mark b ?r col) SPACE] =>
        destruct (Ascii.eqb_spec (mark b r col) SPACE)
    end; try discriminate; injection H as <-;
    (split; [lia|split; [assumption|]]); intros r Hr;
    assert (r = 5 \/ r = 4 \/ r = 3 \/ r = 2 \/ r = 1) as Hcases by lia;
    repeat (destruct Hcases as [->|Hcases]); subst; try assumption; try lia.
  - intros (Hrow & Hm & Hbelow).
    assert (Hne : forall r, row < r <= 5 -> Ascii.eqb (mark b r col) SPACE = false).
    { intros r Hr. apply Ascii.eqb_neq. apply Hbelow. exact Hr. }
    assert (Heq : Ascii.eqb (mark b row col) SPACE = true) by (apply Ascii.eqb_eq; exact Hm).
    assert (row = 5 \/ row = 4 \/ row = 3 \/ row = 2 \/ row = 1 \/ row = 0) as Hcases by lia.
    simpl.
    repeat (destruct Hcases as [->|Hcases]); subst;
      rewrite ?Hne by lia; rewrite Heq; reflexivity.
Qed.

Lemma in_range (n : nat) (z : Z) : In z (range n) <-> 0 <= z < Z.of_nat n.
Proof.
  unfold range. rewrite in_map_iff. split.
  - intros (k & <- & Hk). apply in_seq in Hk. lia.
  - intros H. exists (Z.to_nat z). split; [lia|]. apply in_seq. lia.
Qed.

Lemma in_range2 (lo hi : nat) (z : Z) :
  In z (range2 lo hi) <-> Z.of_nat lo <= z < Z.of_nat hi.
Proof.
  unfold range2. rewrite in_map_iff. split.
  - intros (k & <- & Hk). apply in_seq in Hk. lia.
  - intros H. exists (Z.to_nat z). split; [lia|]. apply in_seq. lia.
Qed.

Lemma possible_from_filter (b : grid) (cols : list Z) :
  wf_grid b -> List.Forall (fun col => 0 <= col <= 6) cols ->
  possible_from b cols = Ok (List.filter (fun col => Ascii.eqb (mark b 0 col) SPACE) cols).
Proof.
  intros Hwf Hcols. induction Hcols as [|col cols Hcol _ IH]; simpl; [reflexivity|].
  rewrite cell_mark by (auto; split; lia). simpl. rewrite IH. reflexivity.
Qed.

Lemma get_possible_moves_filter (s : Connect4) :
  wf_grid (board s) ->
  get_possible_moves s =
  Ok (List.filter (fun col => Ascii.eqb (mark (board s) 0 col) SPACE) (range 7)).
Proof.
  intros Hwf. apply possible_from_filter; [exact Hwf|].
  apply List.Forall_forall. intros col Hcol. apply in_range in Hcol. lia.
Qed.

Lemma in_possible_moves (s : Connect4) (moves : list Z) (col : Z) :
  wf_grid (board s) -> get_possible_moves s = Ok moves ->
  (In col moves <-> 0 <= col <= 6 /\ mark (board s) 0 col = SPACE).
Proof.
  intros Hwf Hm.
  assert (E : moves = List.filter (fun c => Ascii.eqb (mark (board s) 0 c) SPACE) (range 7)).
  { rewrite get_possible_moves_filter in Hm by exact Hwf. congruence. }
  rewrite E, List.filter_In, in_range, Ascii.eqb_eq. simpl. intuition lia.
Qed.

Lemma make_move_only_IndexError (s : Connect4) (col : Z) (p : ascii) (e : exn) :
  make_move s col p = Raise e -> e = IndexError.
Proof.
  assert (Hget : forall (A : Type) (l : list A) i e', getitem l i = Raise e' -> e' = IndexError).
  { intros A l i e'. unfold getitem. destruct (norm_index _ _); [destruct (l !! n)|]; congruence. }
  assert (Hset : forall (A : Type) (l : list A) i x e',
            setitem l i x = Raise e' -> e' = IndexError).
  { intros A l i x e'. unfold setitem. destruct (norm_index _ _); congruence. }
  unfold make_move. generalize (board (copy s)) as b. intros b.
  assert (Hdrop : forall rows, drop_piece b rows col p = Raise e -> e = IndexError).
  { induction rows as [|row rows IH]; simpl; [discriminate|].
    unfold cell. destruct (getitem b row) as [r| |] eqn:Hr; simpl.
    - destruct (getitem r col) as [c| |] eqn:Hc; simpl.
      + destruct (Ascii.eqb c SPACE); [|exact IH].
        destruct (setitem r col p) as [r'| |] eqn:Hs; simpl.
        * apply Hset.
        * intros [= <-]. eapply Hset. exact Hs.
        * discriminate.
      + intros [= <-]. eapply Hget. exact Hc.
      + discriminate.
    - intros [= <-]. eapply Hget. exact Hr.
    - discriminate. }
  destruct (drop_piece b _ col p) eqn:Hd; simpl; try discriminate.
  intros [= <-]. eapply Hdrop. exact Hd.
Qed.

Lemma make_move_out_of_range (s : Connect4) (col : Z) (p : ascii) :
  wf_grid (board s) -> col < -7 \/ 6 < col ->
  make_move s col p = Raise IndexError.
Proof.
  intros Hwf Hcol. unfold make_move. rewrite copy_board. simpl.
  destruct (wf_grid_row (board s) 5 Hwf) as (r & Hr & Hlen); [lia|].
  unfold cell. rewrite (getitem_lookup _ 5 r) by (auto; lia). simpl.
  rewrite getitem_out by lia. reflexivity.
Qed.

Lemma cell_negative (b : grid) (row col : Z) :
  wf_grid b -> 0 <= row <= 5 -> -7 <= col < 0 ->
  cell b row col = cell b row (col + 7).
Proof.
  intros Hwf Hrow Hcol.
  destruct (wf_grid_row b row Hwf Hrow) as (r & Hr & Hlen).
  unfold cell. rewrite (getitem_lookup _ row r) by (auto; lia). simpl.
  unfold getitem, norm_index. rewrite Hlen.
  destruct (Z.leb_spec 0 col); [lia|]. simpl.
  destruct (Z.leb_spec (- Z.of_nat 7) col); [|lia].
  destruct (Z.ltb_spec col 0); [|lia]. simpl.
  destruct (Z.leb_spec 0 (col + 7)); [|lia].
  destruct (Z.ltb_spec (col + 7) (Z.of_nat 7)); [|lia]. simpl.
  replace (Z.of_nat 7 + col) with (col + 7) by lia. reflexivity.
Qed.

Lemma make_move_negative (s : Connect4) (col : Z) (p : ascii) :
  wf_grid (board s) -> -7 <= col < 0 ->
  make_move s col p = make_move s (col + 7) p.
Proof.
  intros Hwf Hcol. unfold make_move. rewrite copy_board. f_equal.
  assert (H : forall rows, List.Forall (fun row => 0 <= row <= 5) rows ->
            drop_piece (board s) rows col p = drop_piece (board s) rows (col + 7) p).
  { induction 1 as [|row rows Hrow _ IH]; simpl; [reflexivity|].
    rewrite cell_negative by auto.
    destruct (cell (board s) row (col + 7)) as [c| |]; simpl; try reflexivity.
    destruct (Ascii.eqb c SPACE); [|exact IH].
    destruct (wf_grid_row (board s) row Hwf Hrow) as (r & Hr & Hlen).
    rewrite (getitem_lookup _ row r) by (auto; lia). simpl.
    assert (Hs : setitem r col p = setitem r (col + 7) p).
    { unfold setitem, norm_index. rewrite Hlen.
      destruct (Z.leb_spec 0 col); [lia|]. simpl.
      destruct (Z.leb_spec (- Z.of_nat 7) col); [|lia].
      destruct (Z.ltb_spec col 0); [|lia]. simpl.
      destruct (Z.leb_spec 0 (col + 7)); [|lia].
      destruct (Z.ltb_spec (col + 7) (Z.of_nat 7)); [|lia]. simpl.
      replace (Z.of_nat 7 + col) with (col + 7) by lia. reflexivity. }
    rewrite Hs. reflexivity. }
  apply H. repeat constructor; lia.
Qed.

(** ** make_move on objects *)

Lemma lookup_map {A B : Type} (f : A -> B) (l : list A) (i : nat) :
  map f l !! i = f <$> (l !! i).
Proof.
  revert i. induction l as [|x l IH]; intros [|i]; simpl; try reflexivity. apply IH.
Qed.

Lemma getitem_map {A B : Type} (f : A -> B) (l : list A) (i : Z) :
  getitem (map f l) i =
  match getitem l i with Ok x => Ok (f x) | Raise e => Raise e | OutOfFuel => OutOfFuel end.
Proof.
  unfold getitem. rewrite length_map.
  destruct (norm_index (length l) i) as [k|]; [|reflexivity].
  rewrite lookup_map. destruct (l !! k); reflexivity.
Qed.

Lemma map_store_insert (st : store) (addrs : list nat) (k a : nat) (v : list ascii) :
  NoDup addrs -> addrs !! k = Some a -> (a < length st)%nat ->
  map (fun x => <[a := v]> st !!! x) addrs = <[k := v]> (map (fun x => st !!! x) addrs).
Proof.
  intros Hnd Hk Ha. apply list_eq. intros i.
  rewrite lookup_map.
  destruct (decide (i = k)) as [->|Hne].
  - rewrite Hk. simpl. rewrite list_lookup_insert_eq.
    + rewrite list_lookup_total_insert_eq by exact Ha. reflexivity.
    + rewrite length_map. eapply lookup_lt_Some. exact Hk.
  - rewrite list_lookup_insert_ne by auto. rewrite lookup_map.
    destruct (addrs !! i) as [x|] eqn:Hi; simpl; [|reflexivity].
    rewrite list_lookup_total_insert_ne; [reflexivity|].
    intros ->. apply Hne. eapply NoDup_lookup; eauto.
Qed.

Lemma map_store_app (st fresh : store) :
  map (fun a => (st ++ fresh) !!! a) (seq (length st) (length fresh)) = fresh.
Proof.
  apply list_eq. intros i. rewrite lookup_map.
  destruct (fresh !! i) as [r|] eqn:Hi.
  - assert (Hlt : (i < length fresh)%nat) by (eapply lookup_lt_Some; exact Hi).
    rewrite lookup_seq_lt by exact Hlt. simpl. f_equal.
    rewrite lookup_total_app_r by lia.
    replace (length st + i - length st)%nat with i by lia.
    apply list_lookup_total_correct. exact Hi.
  - apply lookup_ge_None in Hi. rewrite lookup_seq_ge by lia. reflexivity.
Qed.

Lemma drop_piece_obj_refines (st : store) (addrs : list nat) (rws : list Z)
      (col : Z) (p : ascii) :
  NoDup addrs -> List.Forall (fun a => (a < length st)%nat) addrs ->
  match drop_piece (map (fun a => st !!! a) addrs) rws col p with
  | Ok b' =>
      exists st', drop_piece_obj st addrs rws col p = Ok st' /\
                  map (fun a => st' !!! a) addrs = b' /\
                  length st' = length st /\
                  forall a, ~ In a addrs -> st' !! a = st !! a
  | Raise e => drop_piece_obj st addrs rws col p = Raise e
  | OutOfFuel => drop_piece_obj st addrs rws col p = OutOfFuel
  end.
Proof.
  intros Hnd Hval. induction rws as [|row rws IH]; simpl.
  - exists st. auto.
  - unfold cell. rewrite getitem_map.
    destruct (getitem addrs row) as [a| |] eqn:Ha; simpl; try reflexivity.
    destruct (getitem (st !!! a) col) as [c| |] eqn:Hc; simpl; try reflexivity.
    destruct (Ascii.eqb c SPACE); [|exact IH].
    destruct (setitem (st !!! a) col p) as [r'| |] eqn:Hs; simpl; try reflexivity.
    unfold getitem in Ha. unfold setitem. rewrite length_map.
    destruct (norm_index (length addrs) row) as [k|]; [|discriminate].
    destruct (addrs !! k) as [a0|] eqn:Hk; [|discriminate].
    injection Ha as ->.
    assert (Hlt : (a < length st)%nat).
    { rewrite List.Forall_forall in Hval. apply Hval.
      apply list_elem_of_In. eapply list_elem_of_lookup_2. exact Hk. }
    exists (<[a := r']> st). repeat split.
    + apply map_store_insert; assumption.
    + apply length_insert.
    + intros a' Hnot. apply list_lookup_insert_ne. intros ->. apply Hnot.
      apply list_elem_of_In. eapply list_elem_of_lookup_2. exact Hk.
Qed.

Lemma copy_obj_value (st : store) (o : Connect4_obj) :
  valid_obj st o ->
  value_of (fst (copy_obj st o)) (snd (copy_obj st o)) = copy (value_of st o).
Proof.
  intros Hval. unfold copy_obj, value_of, copy. simpl. f_equal.
  rewrite map_store_app. rewrite map_map. apply map_ext_in.
  intros a Ha. unfold valid_obj in Hval. rewrite List.Forall_forall in Hval.
  rewrite lookup_total_app_l by (apply Hval; exact Ha). reflexivity.
Qed.

Lemma make_move_obj_refines (st : store) (o : Connect4_obj) (col : Z) (p : ascii) :
  valid_obj st o ->
  match make_move (value_of st o) col p with
  | Ok s' =>
      exists st' o', make_move_obj st o col p = Ok (st', o') /\
                     value_of st' o' = s' /\
                     (length st <= length st')%nat /\
                     forall a, (a < length st)%nat -> st' !! a = st !! a
  | Raise e => make_move_obj st o col p = Raise e
  | OutOfFuel => make_move_obj st o col p = OutOfFuel
  end.
Proof.
  intros Hval. unfold make_move, make_move_obj.
  rewrite <- copy_obj_value by exact Hval.
  destruct (copy_obj st o) as [st1 nb] eqn:Hcopy. simpl fst. simpl snd.
  assert (Hnb : row_objs nb = seq (length (st ++ repeat (repeat SPACE 7) 6))
                                  (length (row_objs o)) /\
                st1 = (st ++ repeat (repeat SPACE 7) 6) ++
                      map (fun a => let row := (st ++ repeat (repeat SPACE 7) 6) !!! a in
                                    firstn (length row) row) (row_objs o)).
  { unfold copy_obj in Hcopy. simpl in Hcopy. injection Hcopy as <- <-.
    simpl. rewrite length_map. auto. }
  destruct Hnb as [Hrows Hst1].
  pose proof (drop_piece_obj_refines st1 (row_objs nb) [5; 4; 3; 2; 1; 0] col p) as Hd.
  unfold value_of at 1. simpl board.
  destruct (drop_piece _ _ col p) as [b'| |] eqn:Hb; cbn [bind].
  - destruct Hd as (st' & Hd & Hmap & Hlen & Hframe).
    + rewrite Hrows. apply NoDup_seq.
    + rewrite Hrows, Hst1. apply List.Forall_forall. intros a Ha. apply in_seq in Ha.
      rewrite !length_app, length_map. rewrite length_app in Ha. lia.
    + rewrite Hd. simpl. eexists _, _. split; [reflexivity|].
      split; [unfold value_of; simpl; rewrite Hmap; reflexivity|].
      split; [rewrite Hlen, Hst1, !length_app; lia|].
      intros a Ha. rewrite Hframe.
      * rewrite Hst1. rewrite <- app_assoc. apply lookup_app_l. exact Ha.
      * rewrite Hrows. intros Hin. apply in_seq in Hin. rewrite length_app in Hin. lia.
  - rewrite Hd; [reflexivity|rewrite Hrows; apply NoDup_seq|].
    rewrite Hrows, Hst1. apply List.Forall_forall. intros a Ha. apply in_seq in Ha.
    rewrite !length_app, length_map. rewrite length_app in Ha. lia.
  - rewrite Hd; [reflexivity|rewrite Hrows; apply NoDup_seq|].
    rewrite Hrows, Hst1. apply List.Forall_forall. intros a Ha. apply in_seq in Ha.
    rewrite !length_app, length_map. rewrite length_app in Ha. lia.
Qed.

Lemma value_of_frame (st st' : store) (o : Connect4_obj) :
  valid_obj st o -> (forall a, (a < length st)%nat -> st' !! a = st !! a) ->
  value_of st' o = value_of st o.
Proof.
  intros Hval Hframe. unfold value_of. f_equal. apply map_ext_in. intros a Ha.
  unfold valid_obj in Hval. rewrite List.Forall_forall in Hval.
  rewrite !list_lookup_total_alt. rewrite Hframe by (apply Hval; exact Ha). reflexivity.
Qed.

(** ** The effect of a move *)

Lemma column_fullb_spec (b : grid) (col : Z) :
  column_fullb b col = true <-> column_full b col.
Proof.
  unfold column_fullb, column_full. rewrite forallb_forall. split.
  - intros H row Hrow. apply Ascii.eqb_neq, negb_true_iff, H, in_range. lia.
  - intros H row Hrow. apply in_range in Hrow. apply negb_true_iff, Ascii.eqb_neq, H. lia.
Qed.

Lemma make_move_full (s : Connect4) (col : Z) (p : ascii) :
  wf_grid (board s) -> 0 <= col <= 6 -> column_full (board s) col ->
  make_move s col p = Ok {| board := board s; player := other_player p |}.
Proof.
  intros Hwf Hcol Hfull. rewrite make_move_lowest by assumption.
  apply lowest_empty_None in Hfull. rewrite Hfull. reflexivity.
Qed.

Lemma full_not_possible (s : Connect4) (col : Z) :
  wf_grid (board s) -> column_full (board s) col ->
  exists moves, get_possible_moves s = Ok moves /\ ~ In col moves.
Proof.
  intros Hwf Hfull. eexists. split; [apply get_possible_moves_filter; exact Hwf|].
  rewrite List.filter_In, Ascii.eqb_eq. intros [_ H]. apply (Hfull 0); [lia|exact H].
Qed.

Lemma make_move_stacked (s : Connect4) (col : Z) (p : ascii) (k : nat) :
  wf_grid (board s) -> 0 <= col <= 6 -> (k < 6)%nat -> p <> SPACE ->
  stacked (board s) col k ->
  exists s', make_move s col p = Ok s' /\ wf_grid (board s') /\
             stacked (board s') col (S k).
Proof.
  intros Hwf Hcol Hk Hp Hst.
  assert (Hlow : lowest_empty (board s) col = Some (5 - Z.of_nat k)).
  { apply lowest_empty_Some. split; [lia|]. split.
    - apply Hst; lia.
    - intros r Hr Hm. apply Hst in Hm; lia. }
  rewrite make_move_lowest by assumption. rewrite Hlow.
  eexists. split; [reflexivity|]. simpl. split; [apply wf_place; exact Hwf|].
  intros row Hrow. rewrite mark_place by (auto; split; lia).
  rewrite Z.eqb_refl, andb_true_r.
  destruct (Z.eqb_spec row (5 - Z.of_nat k)) as [->|Hne].
  - split; [contradiction|lia].
  - rewrite (Hst row Hrow). lia.
Qed.

Lemma make_moves_fill (ps : list ascii) (s : Connect4) (col : Z) (k : nat) :
  wf_grid (board s) -> 0 <= col <= 6 -> (k + length ps = 6)%nat ->
  List.Forall (fun p => p <> SPACE) ps -> stacked (board s) col k ->
  exists s', make_moves s col ps = Ok s' /\ wf_grid (board s') /\
             column_full (board s') col.
Proof.
  revert s k. induction ps as [|p ps IH]; intros s k Hwf Hcol Hlen Hps Hst; simpl in *.
  - exists s. split; [reflexivity|]. split; [exact Hwf|].
    intros row Hrow Hm. apply Hst in Hm; lia.
  - inversion Hps as [|? ? Hp Hps']; subst.
    destruct (make_move_stacked s col p k) as (s1 & Hmv & Hwf1 & Hst1); auto; [lia|].
    rewrite Hmv. simpl. apply (IH s1 (S k)); auto. lia.
Qed.

(** ** Claims about [make_move] *)

(** C10: for every 6x7 board, every player and every column 0..6 without an
    empty cell, [make_move] raises nothing and returns a new state whose grid
    is the receiver's grid cell for cell, with the player to move set to the
    opponent of the mover; the receiver object denotes the same state after
    the call as before. *)
Theorem make_move_full_column_dropped
    (st : store) (o : Connect4_obj) (col : Z) (p : ascii) :
  valid_obj st o -> wf_grid (board (value_of st o)) -> 0 <= col <= 6 ->
  column_full (board (value_of st o)) col ->
  make_move (value_of st o) col p =
    Ok {| board := board (value_of st o); player := other_player p |} /\
  exists st' o',
    make_move_obj st o col p = Ok (st', o') /\
    value_of st' o' = {| board := board (value_of st o); player := other_player p |} /\
    value_of st' o = value_of st o.
Proof.
  intros Hval Hwf Hcol Hfull.
  pose proof (make_move_full _ col p Hwf Hcol Hfull) as Hmv.
  split; [exact Hmv|].
  pose proof (make_move_obj_refines st o col p Hval) as Href.
  rewrite Hmv in Href. destruct Href as (st' & o' & Hobj & Hv & _ & Hframe).
  exists st', o'. split; [exact Hobj|]. split; [exact Hv|].
  apply value_of_frame; assumption.
Qed.

Lemma make_move_full_column_dropped_witness :
  make_move (value_of (board column0_full) column0_full_obj) 0 O =
    Ok {| board := board (value_of (board column0_full) column0_full_obj);
          player := other_player O |} /\
  exists st' o',
    make_move_obj (board column0_full) column0_full_obj 0 O = Ok (st', o') /\
    value_of st' o' =
      {| board := board (value_of (board column0_full) column0_full_obj);
         player := other_player O |} /\
    value_of st' column0_full_obj = value_of (board column0_full) column0_full_obj.
Proof.
  apply (make_move_full_column_dropped (board column0_full) column0_full_obj 0 O).
  - repeat constructor.
  - apply wf_gridb_spec. reflexivity.
  - lia.
  - apply column_fullb_spec. reflexivity.
Defined.

(** C7: for every 6x7 board, every player and every column listed by
    [get_possible_moves], [make_move] returns a new state that has the
    player's mark in the lowest empty row of the column, every other cell as
    in the receiver, and the opponent of the mover to move; the receiver
    object denotes the same state after the call as before. *)
Theorem make_move_legal
    (st : store) (o : Connect4_obj) (col : Z) (p : ascii) (moves : list Z) :
  valid_obj st o -> wf_grid (board (value_of st o)) ->
  get_possible_moves (value_of st o) = Ok moves -> In col moves ->
  exists row st' o',
    make_move_obj st o col p = Ok (st', o') /\
    make_move (value_of st o) col p = Ok (value_of st' o') /\
    0 <= row <= 5 /\
    mark (board (value_of st o)) row col = SPACE /\
    (forall r, row < r <= 5 -> mark (board (value_of st o)) r col <> SPACE) /\
    wf_grid (board (value_of st' o')) /\
    (forall r c, on_board r c ->
       mark (board (value_of st' o')) r c =
       if (r =? row) && (c =? col) then p else mark (board (value_of st o)) r c) /\
    player (value_of st' o') = other_player p /\
    value_of st' o = value_of st o.
Proof.
  intros Hval Hwf Hmoves Hin.
  apply (in_possible_moves _ moves col Hwf Hmoves) in Hin as [Hcol Htop].
  destruct (lowest_empty (board (value_of st o)) col) as [row|] eqn:Hlow.
  2:{ apply lowest_empty_None in Hlow. exfalso. apply (Hlow 0); [lia|exact Htop]. }
  pose proof (make_move_lowest _ col p Hwf Hcol) as Hmv. rewrite Hlow in Hmv.
  pose proof (make_move_obj_refines st o col p Hval) as Href.
  rewrite Hmv in Href. destruct Href as (st' & o' & Hobj & Hv & _ & Hframe).
  apply lowest_empty_Some in Hlow as (Hrow & Hm & Hbelow).
  exists row, st', o'. rewrite Hv.
  split; [exact Hobj|]. split; [exact Hmv|]. split; [exact Hrow|].
  split; [exact Hm|]. split; [exact Hbelow|]. simpl.
  split; [apply wf_place; exact Hwf|].
  split; [intros r c Hon; apply mark_place; auto; split; lia|].
  split; [reflexivity|]. apply value_of_frame; assumption.
Qed.

Lemma make_move_legal_witness :
  exists row st' o',
    make_move_obj (board column0_full) column0_full_obj 3 X = Ok (st', o') /\
    make_move (value_of (board column0_full) column0_full_obj) 3 X = Ok (value_of st' o') /\
    0 <= row <= 5 /\
    mark (board (value_of (board column0_full) column0_full_obj)) row 3 = SPACE /\
    (forall r, row < r <= 5 ->
       mark (board (value_of (board column0_full) column0_full_obj)) r 3 <> SPACE) /\
    wf_grid (board (value_of st' o')) /\
    (forall r c, on_board r c ->
       mark (board (value_of st' o')) r c =
       if (r =? row) && (c =? 3) then X
       else mark (board (value_of (board column0_full) column0_full_obj)) r c) /\
    player (value_of st' o') = other_player X /\
    value_of st' column0_full_obj = value_of (board column0_full) column0_full_obj.
Proof.
  apply (make_move_legal (board column0_full) column0_full_obj 3 X [1; 2; 3; 4; 5; 6]).
  - repeat constructor.
  - apply wf_gridb_spec. reflexivity.
  - reflexivity.
  - simpl. lia.
Defined.

(** C1, counterexample: column 0 of [column0_full] is full (its topmost cell
    holds a mark), and [make_move] on it returns a state instead of raising
    [IllegalMoveError]. *)
Lemma make_move_full_column_returns :
  mark (board column0_full) 0 0 <> SPACE /\
  make_move column0_full 0 X = Ok {| board := board column0_full; player := O |} /\
  make_move column0_full 0 X <> Raise IllegalMoveError.
Proof.
  split; [|split].
  - vm_compute. discriminate.
  - reflexivity.
  - vm_compute. discriminate.
Qed.

(** C1, as the code has it: [make_move] never raises [IllegalMoveError].  On a
    6x7 board a column above 6 or below -7 raises [IndexError], a column
    -7..-1 is the column counted from the right, and a move in a full column
    0..6 returns the same grid without an error.  After six moves with
    non-empty marks in an empty column 0..6, [get_possible_moves] no longer
    lists the column and a seventh move in it returns the grid unchanged. *)
Theorem make_move_errors (s : Connect4) (col : Z) (p : ascii) :
  wf_grid (board s) ->
  make_move s col p <> Raise IllegalMoveError /\
  (col < -7 \/ 6 < col -> make_move s col p = Raise IndexError) /\
  (-7 <= col < 0 -> make_move s col p = make_move s (col + 7) p) /\
  (0 <= col <= 6 -> column_full (board s) col ->
     make_move s col p = Ok {| board := board s; player := other_player p |}) /\
  (0 <= col <= 6 -> column_empty (board s) col ->
     forall ps, length ps = 6%nat -> List.Forall (fun q => q <> SPACE) ps ->
     exists s6 moves,
       make_moves s col ps = Ok s6 /\
       get_possible_moves s6 = Ok moves /\ ~ In col moves /\
       make_move s6 col p = Ok {| board := board s6; player := other_player p |}).
Proof.
  intros Hwf. split; [|split; [|split; [|split]]].
  - intros H. apply make_move_only_IndexError in H. discriminate.
  - apply make_move_out_of_range. exact Hwf.
  - apply make_move_negative. exact Hwf.
  - apply make_move_full. exact Hwf.
  - intros Hcol Hempty ps Hlen Hps.
    destruct (make_moves_fill ps s col 0) as (s6 & Hmv & Hwf6 & Hfull); auto.
    { intros row Hrow. split; [lia|]. intros _. apply Hempty. exact Hrow. }
    destruct (full_not_possible s6 col Hwf6 Hfull) as (moves & Hmoves & Hnot).
    exists s6, moves. split; [exact Hmv|]. split; [exact Hmoves|]. split; [exact Hnot|].
    apply make_move_full; assumption.
Qed.

Lemma make_move_errors_witness :
  make_move new_game 0 X <> Raise IllegalMoveError /\
  (0 < -7 \/ 6 < 0 -> make_move new_game 0 X = Raise IndexError) /\
  (-7 <= 0 < 0 -> make_move new_game 0 X = make_move new_game (0 + 7) X) /\
  (0 <= 0 <= 6 -> column_full (board new_game) 0 ->
     make_move new_game 0 X = Ok {| board := board new_game; player := other_player X |}) /\
  (0 <= 0 <= 6 -> column_empty (board new_game) 0 ->
     forall ps, length ps = 6%nat -> List.Forall (fun q => q <> SPACE) ps ->
     exists s6 moves,
       make_moves new_game 0 ps = Ok s6 /\
       get_possible_moves s6 = Ok moves /\ ~ In 0 moves /\
       make_move s6 0 X = Ok {| board := board s6; player := other_player X |}).
Proof.
  apply (make_move_errors new_game 0 X).
  apply wf_gridb_spec. reflexivity.
Defined.

(** ** Lines of four: [is_terminal] and [evaluate] *)

Lemma all_gen_forallb {A : Type} (f : A -> result bool) (g : A -> bool) (l : list A) :
  (forall x, In x l -> f x = Ok (g x)) -> all_gen f l = Ok (forallb g l).
Proof.
  induction l as [|x l IH]; intros H; simpl; [reflexivity|].
  rewrite (H x) by (left; reflexivity). simpl.
  destruct (g x); [|reflexivity]. apply IH. intros y Hy. apply H. right. exact Hy.
Qed.

Lemma four_from_line4b (b : grid) (dr dc row col : Z) :
  wf_grid b -> on_board row col -> on_board (row + 3 * dr) (col + 3 * dc) ->
  four_from b dr dc row col = Ok (line4b b dr dc (row, col)).
Proof.
  intros Hwf Hon Hend. unfold four_from, line4b.
  rewrite cell_mark by assumption. cbn [bind].
  destruct (negb (Ascii.eqb (mark b row col) SPACE)); [|reflexivity].
  rewrite andb_true_l.
  apply all_gen_forallb. intros i Hi. apply in_range in Hi.
  rewrite (cell_mark b (row + i * dr) (col + i * dc)); [|exact Hwf|].
  - cbn [bind]. reflexivity.
  - destruct Hon as [[? ?] [? ?]], Hend as [[? ?] [? ?]]. split; nia.
Qed.

Lemma scan_find (b : grid) (dr dc : Z) (cells : list (Z * Z)) :
  wf_grid b ->
  (forall row col, In (row, col) cells ->
     on_board row col /\ on_board (row + 3 * dr) (col + 3 * dc)) ->
  scan b dr dc cells = Ok (find (line4b b dr dc) cells).
Proof.
  intros Hwf. induction cells as [|[row col] cells IH]; intros H; [reflexivity|].
  cbn [scan find]. destruct (H row col) as [Hon Hend]; [left; reflexivity|].
  rewrite four_from_line4b by assumption. cbn [bind].
  destruct (line4b b dr dc (row, col)); [reflexivity|].
  apply IH. intros r c Hin. apply H. right. exact Hin.
Qed.

Lemma in_horizontal_starts (row col : Z) :
  In (row, col) horizontal_starts <-> 0 <= row <= 5 /\ 0 <= col <= 3.
Proof. unfold horizontal_starts. rewrite in_prod_iff, !in_range. lia. Qed.

Lemma in_vertical_starts (row col : Z) :
  In (row, col) vertical_starts <-> 0 <= row <= 2 /\ 0 <= col <= 6.
Proof. unfold vertical_starts. rewrite in_prod_iff, !in_range. lia. Qed.

Lemma in_diagonal_pos_starts (row col : Z) :
  In (row, col) diagonal_pos_starts <-> 0 <= row <= 2 /\ 0 <= col <= 3.
Proof. unfold diagonal_pos_starts. rewrite in_prod_iff, !in_range. lia. Qed.

Lemma in_diagonal_neg_starts (row col : Z) :
  In (row, col) diagonal_neg_starts <-> 0 <= row <= 2 /\ 3 <= col <= 6.
Proof. unfold diagonal_neg_starts. rewrite in_prod_iff, in_range, in_range2. lia. Qed.

Lemma first_line_ok (b : grid) :
  wf_grid b -> first_line b = Ok (first_line_cell b).
Proof.
  intros Hwf. unfold first_line, first_line_cell.
  rewrite !scan_find; try exact Hwf.
  - destruct (find (line4b b 0 1) horizontal_starts); [reflexivity|]. cbn [or_else].
    destruct (find (line4b b 1 0) vertical_starts); [reflexivity|]. cbn [or_else].
    destruct (find (line4b b 1 1) diagonal_pos_starts); reflexivity.
  - intros row col H. apply in_diagonal_neg_starts in H. unfold on_board. lia.
  - intros row col H. apply in_diagonal_pos_starts in H. unfold on_board. lia.
  - intros row col H. apply in_vertical_starts in H. unfold on_board. lia.
  - intros row col H. apply in_horizontal_starts in H. unfold on_board. lia.
Qed.

Lemma line4b_line_from (b : grid) (dr dc row col : Z) :
  on_board row col -> on_board (row + 3 * dr) (col + 3 * dc) ->
  (line4b b dr dc (row, col) = true <-> line_from b (mark b row col) dr dc row col).
Proof.
  intros Hon Hend. unfold line4b, line_from.
  rewrite andb_true_iff, negb_true_iff, Ascii.eqb_neq, forallb_forall. split.
  - intros [Hne Hall]. repeat split; try apply Hon; try apply Hend; auto.
    intros i Hi. apply Ascii.eqb_eq, Hall, in_range. lia.
  - intros (Hne & _ & _ & Hall). split; [exact Hne|].
    intros i Hi. apply in_range in Hi. apply Ascii.eqb_eq, Hall. lia.
Qed.

Lemma line_from_start (b : grid) (m : ascii) (dr dc row col : Z) :
  line_from b m dr dc row col -> mark b row col = m.
Proof.
  intros (_ & _ & _ & H). specialize (H 0). rewrite !Z.mul_0_l, !Z.add_0_r in H.
  apply H. lia.
Qed.

Lemma in_starts_of (dr dc row col : Z) :
  In (dr, dc) directions ->
  (In (row, col) (starts_of dr dc) <->
   on_board row col /\ on_board (row + 3 * dr) (col + 3 * dc)).
Proof.
  unfold directions, on_board. simpl.
  intros [H|[H|[H|[H|[]]]]]; injection H as <- <-.
  - change (starts_of 0 1) with horizontal_starts. rewrite in_horizontal_starts. lia.
  - change (starts_of 1 0) with vertical_starts. rewrite in_vertical_starts. lia.
  - change (starts_of 1 1) with diagonal_pos_starts. rewrite in_diagonal_pos_starts. lia.
  - change (starts_of 1 (-1)) with diagonal_neg_starts. rewrite in_diagonal_neg_starts. lia.
Qed.

Lemma find_starts_line (b : grid) (dr dc row col : Z) :
  In (dr, dc) directions ->
  find (line4b b dr dc) (starts_of dr dc) = Some (row, col) ->
  has_line b (mark b row col).
Proof.
  intros Hdir Hfind. apply find_some in Hfind as [Hin Hline].
  apply (in_starts_of dr dc row col Hdir) in Hin as [Hon Hend].
  apply line4b_line_from in Hline; [|exact Hon|exact Hend].
  exists dr, dc, row, col. split; assumption.
Qed.

Lemma first_line_cell_Some (b : grid) (row col : Z) :
  first_line_cell b = Some (row, col) -> has_line b (mark b row col).
Proof.
  unfold first_line_cell.
  destruct (find (line4b b 0 1) horizontal_starts) as [c1|] eqn:H1.
  { intros [= ->]. apply (find_starts_line b 0 1); [simpl; auto|exact H1]. }
  destruct (find (line4b b 1 0) vertical_starts) as [c2|] eqn:H2.
  { intros [= ->]. apply (find_starts_line b 1 0); [simpl; auto|exact H2]. }
  destruct (find (line4b b 1 1) diagonal_pos_starts) as [c3|] eqn:H3.
  { intros [= ->]. apply (find_starts_line b 1 1); [simpl; auto|exact H3]. }
  intros H4. apply (find_starts_line b 1 (-1)); [simpl; auto 6|exact H4].
Qed.

Lemma has_line_first (b : grid) (m : ascii) :
  has_line b m -> exists row col, first_line_cell b = Some (row, col).
Proof.
  intros (dr & dc & row & col & Hdir & Hline).
  assert (Hfind : find (line4b b dr dc) (starts_of dr dc) <> None).
  { intros Hnone. eapply find_none in Hnone.
    - pose proof Hline as (_ & Hon & Hend & _).
      apply (line_from_start b m) in Hline as Hm. rewrite <- Hm in Hline.
      apply line4b_line_from in Hline; [|exact Hon|exact Hend].
      rewrite Hline in Hnone. discriminate.
    - destruct Hline as (_ & Hon & Hend & _). apply in_starts_of; auto. }
  unfold first_line_cell.
  destruct (find (line4b b 0 1) horizontal_starts) as [[r c]|] eqn:H1; [eauto|].
  destruct (find (line4b b 1 0) vertical_starts) as [[r c]|] eqn:H2; [eauto|].
  destruct (find (line4b b 1 1) diagonal_pos_starts) as [[r c]|] eqn:H3; [eauto|].
  destruct (find (line4b b 1 (-1)) diagonal_neg_starts) as [[r c]|] eqn:H4; [eauto|].
  exfalso. apply Hfind. simpl in Hdir.
  destruct Hdir as [H|[H|[H|[H|[]]]]]; injection H as <- <-; assumption.
Qed.

Lemma no_line_first (b : grid) : no_line b -> first_line_cell b = None.
Proof.
  intros Hno. destruct (first_line_cell b) as [[row col]|] eqn:H; [|reflexivity].
  exfalso. apply (Hno (mark b row col)). apply first_line_cell_Some. exact H.
Qed.

Lemma has_line_on_board (b : grid) (row col : Z) :
  first_line_cell b = Some (row, col) -> on_board row col.
Proof.
  unfold first_line_cell.
  destruct (find (line4b b 0 1) horizontal_starts) as [c1|] eqn:H1.
  { intros [= ->]. apply find_some in H1 as [H _].
    apply in_horizontal_starts in H. unfold on_board. lia. }
  destruct (find (line4b b 1 0) vertical_starts) as [c2|] eqn:H2.
  { intros [= ->]. apply find_some in H2 as [H _].
    apply in_vertical_starts in H. unfold on_board. lia. }
  destruct (find (line4b b 1 1) diagonal_pos_starts) as [c3|] eqn:H3.
  { intros [= ->]. apply find_some in H3 as [H _].
    apply in_diagonal_pos_starts in H. unfold on_board. lia. }
  intros H4. apply find_some in H4 as [H _].
  apply in_diagonal_neg_starts in H. unfold on_board. lia.
Qed.

(** [evaluate] reports the first line met in the order of the scans. *)
Lemma evaluate_first_line (s : Connect4) :
  wf_grid (board s) ->
  evaluate s = Ok (match first_line_cell (board s) with
                   | Some (row, col) =>
                       if Ascii.eqb (mark (board s) row col) X then 1 else -1
                   | None => 0
                   end).
Proof.
  intros Hwf. unfold evaluate. rewrite first_line_ok by exact Hwf. cbn [bind].
  destruct (first_line_cell (board s)) as [[row col]|] eqn:H; [|reflexivity].
  rewrite cell_mark; [reflexivity|exact Hwf|]. eapply has_line_on_board. exact H.
Qed.

Lemma is_terminal_first_line (s : Connect4) :
  wf_grid (board s) ->
  is_terminal s = Ok (match first_line_cell (board s) with
                      | Some _ => true
                      | None => forallb (fun col => negb (Ascii.eqb (mark (board s) 0 col) SPACE))
                                        (range 7)
                      end).
Proof.
  intros Hwf. unfold is_terminal. rewrite first_line_ok by exact Hwf. cbn [bind].
  destruct (first_line_cell (board s)); [reflexivity|].
  apply all_gen_forallb. intros col Hcol. apply in_range in Hcol.
  rewrite cell_mark; [reflexivity|exact Hwf|]. unfold on_board. lia.
Qed.

Lemma find_app_or {A : Type} (f : A -> bool) (l1 l2 : list A) :
  find f (l1 ++ l2) = match find f l1 with Some x => Some x | None => find f l2 end.
Proof.
  induction l1 as [|x l1 IH]; simpl; [reflexivity|]. destruct (f x); [reflexivity|exact IH].
Qed.

Lemma find_map_pair {A B : Type} (f : B -> bool) (g : A -> B) (l : list A) :
  find f (map g l) = option_map g (find (fun x => f (g x)) l).
Proof.
  induction l as [|x l IH]; simpl; [reflexivity|]. destruct (f (g x)); [reflexivity|exact IH].
Qed.

Lemma find_first {A : Type} (f : A -> bool) (l : list A) (k : nat) (x : A) :
  l !! k = Some x -> f x = true ->
  (forall j y, (j < k)%nat -> l !! j = Some y -> f y = false) ->
  find f l = Some x.
Proof.
  revert k. induction l as [|a l IH]; intros k Hk Hx Hbefore; [destruct k; discriminate|].
  destruct k as [|k]; simpl in *.
  - injection Hk as ->. rewrite Hx. reflexivity.
  - rewrite (Hbefore 0%nat a) by (lia || reflexivity).
    apply (IH k); auto. intros j y Hj Hy. apply (Hbefore (S j) y); [lia|exact Hy].
Qed.

Lemma find_first_inv {A : Type} (f : A -> bool) (l : list A) (x : A) :
  find f l = Some x ->
  exists k, l !! k = Some x /\ f x = true /\
            forall j y, (j < k)%nat -> l !! j = Some y -> f y = false.
Proof.
  induction l as [|a l IH]; simpl; [discriminate|].
  destruct (f a) eqn:Ha.
  - intros [= ->]. exists 0%nat. split; [reflexivity|]. split; [exact Ha|]. intros; lia.
  - intros H. destruct (IH H) as (k & Hk & Hx & Hbefore). exists (S k).
    split; [exact Hk|]. split; [exact Hx|].
    intros [|j] y Hj Hy; simpl in Hy; [congruence|]. apply (Hbefore j y); [lia|exact Hy].
Qed.

(** The scans of the source go through the places of the scan order. *)
Lemma first_line_cell_scan_order (b : grid) :
  first_line_cell b = option_map snd (find (lineb b) lines_in_scan_order).
Proof.
  unfold first_line_cell.
  change lines_in_scan_order with
    (map (pair (0, 1)) horizontal_starts ++ map (pair (1, 0)) vertical_starts ++
     map (pair (1, 1)) diagonal_pos_starts ++ map (pair (1, -1)) diagonal_neg_starts).
  rewrite !find_app_or, !find_map_pair. unfold lineb. cbn [fst snd].
  destruct (find (fun x => line4b b 0 1 x) horizontal_starts); [reflexivity|].
  destruct (find (fun x => line4b b 1 0 x) vertical_starts); [reflexivity|].
  destruct (find (fun x => line4b b 1 1 x) diagonal_pos_starts); [reflexivity|].
  destruct (find (fun x => line4b b 1 (-1) x) diagonal_neg_starts); reflexivity.
Qed.

Lemma scan_order_on_board (dr dc row col : Z) :
  In ((dr, dc), (row, col)) lines_in_scan_order ->
  on_board row col /\ on_board (row + 3 * dr) (col + 3 * dc).
Proof.
  intros H.
  assert (Hall : forallb (fun l => let '((dr, dc), (row, col)) := l in
                   (0 <=? row) && (row <=? 5) && (0 <=? col) && (col <=? 6) &&
                   (0 <=? row + 3 * dr) && (row + 3 * dr <=? 5) &&
                   (0 <=? col + 3 * dc) && (col + 3 * dc <=? 6))
                 lines_in_scan_order = true) by reflexivity.
  rewrite forallb_forall in Hall. specialize (Hall _ H). cbn beta iota in Hall.
  unfold on_board. lia.
Qed.

Lemma lineb_line_at (b : grid) (k : nat) (l : (Z * Z) * (Z * Z)) :
  lines_in_scan_order !! k = Some l ->
  (lineb b l = true <-> exists m, line_at b m k).
Proof.
  destruct l as [[dr dc] [row col]]. intros Hk.
  assert (Hin : In ((dr, dc), (row, col)) lines_in_scan_order).
  { apply list_elem_of_In. eapply list_elem_of_lookup_2. exact Hk. }
  destruct (scan_order_on_board _ _ _ _ Hin) as [H0 H3].
  unfold lineb. cbn [fst snd]. rewrite (line4b_line_from b dr dc row col H0 H3). split.
  - intros Hl. exists (mark b row col), dr, dc, row, col. auto.
  - intros (m & dr' & dc' & row' & col' & Hk' & Hl). rewrite Hk in Hk'.
    injection Hk' as <- <- <- <-. rewrite (line_from_start _ _ _ _ _ _ Hl). exact Hl.
Qed.

Lemma first_line_of_find (b : grid) (m : ascii) :
  first_line_of b m <->
  exists dr dc row col,
    find (lineb b) lines_in_scan_order = Some ((dr, dc), (row, col)) /\
    mark b row col = m.
Proof.
  split.
  - intros (k & (dr & dc & row & col & Hk & Hl) & Hbefore).
    exists dr, dc, row, col. split; [|eapply line_from_start; exact Hl].
    apply (find_first _ _ k); [exact Hk| |].
    + apply (lineb_line_at b k _ Hk). exists m, dr, dc, row, col. auto.
    + intros j y Hj Hy. destruct (lineb b y) eqn:E; [|reflexivity].
      apply (lineb_line_at b j y Hy) in E as (m' & E). exfalso. exact (Hbefore j m' Hj E).
  - intros (dr & dc & row & col & Hf & Hm).
    apply find_first_inv in Hf as (k & Hk & Hx & Hbefore). exists k. split.
    + apply (lineb_line_at b k _ Hk) in Hx as (m' & dr' & dc' & row' & col' & Hk' & Hl).
      rewrite Hk in Hk'. injection Hk' as <- <- <- <-.
      rewrite (line_from_start _ _ _ _ _ _ Hl) in Hm. subst m'.
      exists dr, dc, row, col. auto.
    + intros j m' Hj (dr' & dc' & row' & col' & Hj' & Hl).
      assert (E : lineb b ((dr', dc'), (row', col')) = true).
      { apply (lineb_line_at b j _ Hj'). exists m', dr', dc', row', col'. auto. }
      rewrite (Hbefore j _ Hj Hj') in E. discriminate.
Qed.

(** C6, counterexample: [both_lines], reached from the empty board by eight
    calls of [make_move], contains four aligned ['X'] in its bottom row, and
    [evaluate] returns -1, the value of the ['O'] line of the row above,
    which the scan meets first. *)
Lemma evaluate_both_lines :
  play_moves new_game [(0, X); (0, O); (1, X); (1, O); (2, X); (2, O); (3, X); (3, O)]
    = Ok both_lines /\
  has_line (board both_lines) X /\ is_terminal both_lines = Ok true /\
  evaluate both_lines = Ok (-1) /\ evaluate both_lines <> Ok 1.
Proof.
  split; [reflexivity|].
  split; [|split; [reflexivity|split; [reflexivity|vm_compute; discriminate]]].
  exists 0, 1, 5, 0. split; [simpl; auto|].
  split; [discriminate|]. split; [unfold on_board; lia|]. split; [unfold on_board; lia|].
  intros i Hi. assert (i = 0 \/ i = 1 \/ i = 2 \/ i = 3) as [->|[->|[->| ->]]] by lia;
    reflexivity.
Qed.

Lemma filled_drawn_game : filled (board drawn_game).
Proof.
  intros row col [Hr Hc].
  assert (row = 0 \/ row = 1 \/ row = 2 \/ row = 3 \/ row = 4 \/ row = 5) as Hrow by lia.
  assert (col = 0 \/ col = 1 \/ col = 2 \/ col = 3 \/ col = 4 \/ col = 5 \/ col = 6)
    as Hcol by lia.
  destruct Hrow as [->|[->|[->|[->|[->| ->]]]]];
    destruct Hcol as [->|[->|[->|[->|[->|[->| ->]]]]]]; vm_compute; discriminate.
Qed.

Lemma no_line_drawn_game : no_line (board drawn_game).
Proof.
  intros m Hm. apply has_line_first in Hm as (row & col & H).
  vm_compute in H. discriminate.
Qed.

Lemma has_line_x_wins : has_line (board x_wins) X.
Proof.
  exists 0, 1, 5, 0. split; [simpl; auto|].
  split; [discriminate|]. split; [unfold on_board; lia|]. split; [unfold on_board; lia|].
  intros i Hi. assert (i = 0 \/ i = 1 \/ i = 2 \/ i = 3) as [->|[->|[->| ->]]] by lia;
    reflexivity.
Qed.

Lemma only_x_wins (m : ascii) : has_line (board x_wins) m -> m = X.
Proof.
  intros (dr & dc & row & col & Hd & Hm & H0 & H3 & Hl).
  pose proof (Hl 0) as E. rewrite !Z.mul_0_l, !Z.add_0_r in E. specialize (E ltac:(lia)).
  destruct H0 as [Hr Hc].
  assert (row = 0 \/ row = 1 \/ row = 2 \/ row = 3 \/ row = 4 \/ row = 5) as Hrow by lia.
  assert (col = 0 \/ col = 1 \/ col = 2 \/ col = 3 \/ col = 4 \/ col = 5 \/ col = 6)
    as Hcol by lia.
  destruct Hrow as [->|[->|[->|[->|[->| ->]]]]];
    destruct Hcol as [->|[->|[->|[->|[->|[->| ->]]]]]]; vm_compute in E;
    first [symmetry; exact E | exfalso; apply Hm; rewrite <- E; reflexivity].
Qed.

Lemma has_line_both_lines : has_line (board both_lines) O.
Proof.
  exists 0, 1, 4, 0. split; [simpl; auto|].
  split; [discriminate|]. split; [unfold on_board; lia|]. split; [unfold on_board; lia|].
  intros i Hi. assert (i = 0 \/ i = 1 \/ i = 2 \/ i = 3) as [->|[->|[->| ->]]] by lia;
    reflexivity.
Qed.

Lemma no_line_new_game : no_line (board new_game).
Proof.
  intros m Hm. apply has_line_first in Hm as (row & col & H).
  vm_compute in H. discriminate.
Qed.

(** C6, as the code has it: on a 6x7 board with four aligned identical
    non-empty marks [is_terminal] returns true, and [evaluate] returns the
    value of the first line in scan order (horizontal lines row by row from
    the top, then vertical lines, then lines of positive slope, then lines
    of negative slope): +1 when that line is of ['X'], -1 otherwise.  So
    [evaluate] returns +1 when there is a line of ['X'] and every line on
    the board is of ['X'], and -1 when there is a line of ['O'] and no line
    of ['X']; on a filled board without a line [is_terminal] returns true
    and [evaluate] 0; [evaluate] returns 0 on every board without a line. *)
Theorem terminal_and_evaluate (s : Connect4) :
  wf_grid (board s) ->
  (forall m, has_line (board s) m -> is_terminal s = Ok true) /\
  (forall m, has_line (board s) m -> exists m', first_line_of (board s) m') /\
  (forall m, first_line_of (board s) m ->
     evaluate s = Ok (if Ascii.eqb m X then 1 else -1)) /\
  (has_line (board s) X -> (forall m, has_line (board s) m -> m = X) ->
     evaluate s = Ok 1) /\
  (has_line (board s) O -> ~ has_line (board s) X -> evaluate s = Ok (-1)) /\
  (filled (board s) -> no_line (board s) ->
     is_terminal s = Ok true /\ evaluate s = Ok 0) /\
  (no_line (board s) -> evaluate s = Ok 0).
Proof.
  intros Hwf. rewrite evaluate_first_line, is_terminal_first_line by exact Hwf.
  split; [|split; [|split; [|split; [|split; [|split]]]]].
  - intros m Hm. apply has_line_first in Hm as (row & col & ->). reflexivity.
  - intros m Hm. apply has_line_first in Hm as (row & col & H).
    rewrite first_line_cell_scan_order in H.
    destruct (find (lineb (board s)) lines_in_scan_order) as [[[dr dc] [row' col']]|] eqn:Hf;
      [|discriminate].
    exists (mark (board s) row' col'). apply first_line_of_find.
    exists dr, dc, row', col'. auto.
  - intros m Hm. apply first_line_of_find in Hm as (dr & dc & row & col & Hf & Hmark).
    rewrite first_line_cell_scan_order, Hf. cbn [option_map snd]. rewrite Hmark. reflexivity.
  - intros HX Hall. apply has_line_first in HX as (row & col & H). rewrite H.
    apply first_line_cell_Some, Hall in H. rewrite H. reflexivity.
  - intros HO HnX. apply has_line_first in HO as (row & col & H). rewrite H.
    apply first_line_cell_Some in H.
    destruct (Ascii.eqb_spec (mark (board s) row col) X) as [E|_]; [|reflexivity].
    exfalso. apply HnX. rewrite <- E. exact H.
  - intros Hfilled Hno. rewrite (no_line_first _ Hno). split; [|reflexivity].
    f_equal. apply forallb_forall. intros col Hcol. apply in_range in Hcol.
    apply negb_true_iff, Ascii.eqb_neq, Hfilled. unfold on_board. lia.
  - intros Hno. rewrite (no_line_first _ Hno). reflexivity.
Qed.

Lemma terminal_and_evaluate_witness :
  (first_line_of (board both_lines) O /\ evaluate both_lines = Ok (-1) /\
   is_terminal both_lines = Ok true) /\
  evaluate x_wins = Ok 1 /\
  (is_terminal drawn_game = Ok true /\ evaluate drawn_game = Ok 0) /\
  evaluate new_game = Ok 0 /\
  (forall m, has_line (board both_lines) m -> is_terminal both_lines = Ok true) /\
  (forall m, has_line (board both_lines) m -> exists m', first_line_of (board both_lines) m') /\
  (forall m, first_line_of (board both_lines) m ->
     evaluate both_lines = Ok (if Ascii.eqb m X then 1 else -1)) /\
  (has_line (board both_lines) X -> (forall m, has_line (board both_lines) m -> m = X) ->
     evaluate both_lines = Ok 1) /\
  (has_line (board both_lines) O -> ~ has_line (board both_lines) X ->
     evaluate both_lines = Ok (-1)) /\
  (filled (board both_lines) -> no_line (board both_lines) ->
     is_terminal both_lines = Ok true /\ evaluate both_lines = Ok 0) /\
  (no_line (board both_lines) -> evaluate both_lines = Ok 0).
Proof.
  assert (Hfirst : first_line_of (board both_lines) O).
  { apply first_line_of_find. exists 0, 1, 4, 0. split; reflexivity. }
  split; [|split; [|split; [|split]]].
  - split; [exact Hfirst|]. split.
    + apply (terminal_and_evaluate both_lines) in Hfirst;
        [exact Hfirst|apply wf_gridb_spec; reflexivity].
    + apply (terminal_and_evaluate both_lines) with (m := O);
        [apply wf_gridb_spec; reflexivity|exact has_line_both_lines].
  - apply (terminal_and_evaluate x_wins);
      [apply wf_gridb_spec; reflexivity|exact has_line_x_wins|exact only_x_wins].
  - apply (terminal_and_evaluate drawn_game);
      [apply wf_gridb_spec; reflexivity|exact filled_drawn_game|exact no_line_drawn_game].
  - apply (terminal_and_evaluate new_game);
      [apply wf_gridb_spec; reflexivity|exact no_line_new_game].
  - apply (terminal_and_evaluate both_lines). apply wf_gridb_spec. reflexivity.
Defined.

(** ** backpropagate *)

Lemma record_score_length (h : heap) (i : nat) (s : Z) :
  length (Node.record_score h i s) = length h.
Proof. unfold Node.record_score. apply length_insert. Qed.

Lemma record_score_other (h : heap) (i j : nat) (s : Z) :
  j <> i -> Node.record_score h i s !!! j = h !!! j.
Proof.
  intros Hne. unfold Node.record_score. apply list_lookup_total_insert_ne. auto.
Qed.

Lemma record_score_same (h : heap) (i : nat) (s : Z) :
  (i < length h)%nat ->
  Node.record_score h i s !!! i =
  {| Node.state := Node.state (h !!! i); Node.player := Node.player (h !!! i);
     Node.children := Node.children (h !!! i);
     Node.visits := Node.visits (h !!! i) + 1;
     Node.score := Node.score (h !!! i) + s;
     Node.parent := Node.parent (h !!! i) |}.
Proof.
  intros Hlt. unfold Node.record_score. apply list_lookup_total_insert_eq. exact Hlt.
Qed.

Lemma record_score_same_tree (h : heap) (i : nat) (s : Z) :
  same_tree h (Node.record_score h i s).
Proof.
  split; [apply record_score_length|]. intros j.
  destruct (decide (j = i)) as [->|Hne].
  - destruct (decide (i < length h)%nat) as [Hlt|Hge].
    + rewrite record_score_same by exact Hlt. simpl. auto.
    + unfold Node.record_score. rewrite list_insert_ge by lia. auto.
  - rewrite record_score_other by exact Hne. auto.
Qed.

Lemma same_tree_refl (h : heap) : same_tree h h.
Proof. split; [reflexivity|]. intros j. auto. Qed.

Lemma same_tree_trans (h1 h2 h3 : heap) :
  same_tree h1 h2 -> same_tree h2 h3 -> same_tree h1 h3.
Proof.
  intros [L1 F1] [L2 F2]. split; [congruence|]. intros j.
  destruct (F1 j) as (? & ? & ? & ?), (F2 j) as (? & ? & ? & ?).
  repeat split; congruence.
Qed.

Lemma lineage_same_tree (h h' : heap) (fuel node : nat) :
  same_tree h h' -> lineage fuel h' node = lineage fuel h node.
Proof.
  intros [_ F]. revert node. induction fuel as [|fuel IH]; intros node; simpl; [reflexivity|].
  destruct (F node) as (_ & _ & _ & ->).
  destruct (Node.parent (h !!! node)); [rewrite IH|]; reflexivity.
Qed.

Lemma parents_before_same_tree (h h' : heap) :
  same_tree h h' -> parents_before h -> parents_before h'.
Proof.
  intros [L F] Hpb i p Hi Hp. destruct (F i) as (_ & _ & _ & E).
  rewrite E in Hp. apply Hpb; [lia|exact Hp].
Qed.

Lemma parents_beforeb_spec (h : heap) :
  parents_beforeb h = true <-> parents_before h.
Proof.
  unfold parents_beforeb, parents_before. rewrite forallb_forall. split.
  - intros H i p Hi Hp. specialize (H i). rewrite Hp in H.
    apply Nat.ltb_lt, H, in_seq. lia.
  - intros H i Hi. apply in_seq in Hi.
    destruct (Node.parent (h !!! i)) as [p|] eqn:Hp; [|reflexivity].
    apply Nat.ltb_lt, (H i p); [lia|exact Hp].
Qed.

(** The lineage goes down in the heap: every ancestor is older. *)
Lemma lineage_below (h : heap) (fuel node j : nat) :
  parents_before h -> (node < length h)%nat ->
  In j (lineage fuel h node) -> (j <= node)%nat.
Proof.
  intros Hpb. revert node. induction fuel as [|fuel IH]; intros node Hn Hin; simpl in Hin.
  - contradiction.
  - destruct Hin as [<-|Hin]; [lia|].
    destruct (Node.parent (h !!! node)) as [p|] eqn:Hp; [|contradiction].
    pose proof (Hpb node p Hn Hp). apply IH in Hin; lia.
Qed.

Lemma lineage_lookup_0 (h : heap) (fuel node : nat) :
  lineage (S fuel) h node !! 0%nat = Some node.
Proof. reflexivity. Qed.

Lemma lineage_lookup_S (h : heap) (fuel node p k : nat) :
  Node.parent (h !!! node) = Some p ->
  lineage (S fuel) h node !! S k = lineage fuel h p !! k.
Proof. intros Hp. simpl. rewrite Hp. reflexivity. Qed.

(** What [backpropagate] leaves in the heap: the [k]-th node of the lineage
    has one visit more and [(-1)^k * s] added to its score; nothing else
    changes. *)
Lemma backpropagate_spec (fuel : nat) (h : heap) (node : nat) (s : Z) :
  parents_before h -> (node < length h)%nat -> (node < fuel)%nat ->
  exists h', Node.backpropagate fuel h node s = Ok h' /\
    same_tree h h' /\
    (forall k j, lineage fuel h node !! k = Some j ->
       Node.visits (h' !!! j) = Node.visits (h !!! j) + 1 /\
       Node.score (h' !!! j) = Node.score (h !!! j) + (-1) ^ Z.of_nat k * s) /\
    (forall j, ~ In j (lineage fuel h node) -> h' !!! j = h !!! j).
Proof.
  revert h node s. induction fuel as [|fuel IH]; intros h node s Hpb Hn Hf; [lia|].
  cbn [Node.backpropagate].
  pose proof (record_score_same_tree h node s) as Hst1.
  set (h1 := Node.record_score h node s) in *.
  destruct Hst1 as [L1 F1]. destruct (F1 node) as (_ & _ & _ & Ep). rewrite Ep.
  assert (Hnode1 : Node.visits (h1 !!! node) = Node.visits (h !!! node) + 1 /\
                   Node.score (h1 !!! node) = Node.score (h !!! node) + s).
  { unfold h1. rewrite record_score_same by exact Hn. simpl. auto. }
  destruct (Node.parent (h !!! node)) as [p|] eqn:Hp.
  - assert (Hlt : (p < node)%nat) by (apply (Hpb node p Hn Hp)).
    destruct (IH h1 p (- s)) as (h' & Hb & Hst & Hin & Hout).
    { eapply parents_before_same_tree; [split; eassumption|exact Hpb]. }
    { lia. } { lia. }
    assert (Hlin : lineage fuel h1 p = lineage fuel h p).
    { apply lineage_same_tree. split; assumption. }
    assert (Hnotin : ~ In node (lineage fuel h p)).
    { intros Hc. apply lineage_below in Hc; [lia|exact Hpb|lia]. }
    exists h'. split; [exact Hb|]. split.
    { eapply same_tree_trans; [split; eassumption|exact Hst]. }
    split.
    + intros k j Hk. destruct k as [|k].
      * rewrite lineage_lookup_0 in Hk. injection Hk as <-.
        rewrite Hout by (rewrite Hlin; exact Hnotin).
        destruct Hnode1 as [-> ->]. split; [reflexivity|]. simpl. lia.
      * rewrite (lineage_lookup_S h fuel node p k Hp) in Hk.
        assert (Hj : j <> node).
        { intros ->. apply Hnotin. apply list_elem_of_In.
          eapply list_elem_of_lookup_2. exact Hk. }
        rewrite <- Hlin in Hk. destruct (Hin k j Hk) as [Hv Hs].
        unfold h1 in Hv, Hs. rewrite record_score_other in Hv, Hs by exact Hj.
        split; [exact Hv|]. rewrite Hs.
        replace (Z.of_nat (S k)) with (Z.of_nat k + 1) by lia.
        rewrite Z.pow_add_r by lia. rewrite Z.pow_1_r. ring.
    + intros j Hj. cbn [lineage] in Hj. rewrite Hp in Hj.
      rewrite Hout.
      * unfold h1. apply record_score_other. intros ->. apply Hj. left. reflexivity.
      * rewrite Hlin. intros Hc. apply Hj. right. exact Hc.
  - exists h1. split; [reflexivity|]. split; [split; assumption|]. split.
    + intros k j Hk. cbn [lineage] in Hk. rewrite Hp in Hk.
      destruct k as [|k]; [|destruct k; discriminate]. injection Hk as <-.
      destruct Hnode1 as [-> ->]. split; [reflexivity|]. simpl. lia.
    + intros j Hj. cbn [lineage] in Hj. rewrite Hp in Hj.
      unfold h1. apply record_score_other. intros ->. apply Hj. left. reflexivity.
Qed.

(** C4: [backpropagate(s)] on a node adds 1 to its visit count and [s] to its
    score and, when the node has a parent, goes on with [backpropagate(-s)]
    on the parent; after the call the node's score has grown by [s], its
    parent's by [-s], every ancestor has exactly one visit more (the [k]-th
    ancestor's score has grown by [(-1)^k * s]) and no other node changed. *)
Theorem backpropagate_flips_sign (fuel : nat) (h : heap) (node : nat) (s : Z) :
  parents_before h -> (node < length h)%nat -> (node < fuel)%nat ->
  Node.backpropagate fuel h node s =
    match Node.parent (h !!! node) with
    | Some p => Node.backpropagate (fuel - 1) (Node.record_score h node s) p (- s)
    | None => Ok (Node.record_score h node s)
    end /\
  Node.visits (Node.record_score h node s !!! node) = Node.visits (h !!! node) + 1 /\
  Node.score (Node.record_score h node s !!! node) = Node.score (h !!! node) + s /\
  exists h',
    Node.backpropagate fuel h node s = Ok h' /\
    same_tree h h' /\
    Node.visits (h' !!! node) = Node.visits (h !!! node) + 1 /\
    Node.score (h' !!! node) = Node.score (h !!! node) + s /\
    (forall p, Node.parent (h !!! node) = Some p ->
       Node.visits (h' !!! p) = Node.visits (h !!! p) + 1 /\
       Node.score (h' !!! p) = Node.score (h !!! p) - s) /\
    (forall k j, lineage fuel h node !! k = Some j ->
       Node.visits (h' !!! j) = Node.visits (h !!! j) + 1 /\
       Node.score (h' !!! j) = Node.score (h !!! j) + (-1) ^ Z.of_nat k * s) /\
    (forall j, ~ In j (lineage fuel h node) -> h' !!! j = h !!! j).
Proof.
  intros Hpb Hn Hf.
  split; [|split; [|split]].
  - destruct fuel as [|fuel]; [lia|]. cbn [Node.backpropagate].
    replace (S fuel - 1)%nat with fuel by lia.
    destruct (record_score_same_tree h node s) as [_ F].
    destruct (F node) as (_ & _ & _ & ->). reflexivity.
  - rewrite record_score_same by exact Hn. reflexivity.
  - rewrite record_score_same by exact Hn. reflexivity.
  - destruct (backpropagate_spec fuel h node s Hpb Hn Hf) as (h' & Hb & Hst & Hin & Hout).
    exists h'. split; [exact Hb|]. split; [exact Hst|].
    destruct fuel as [|fuel]; [lia|].
    destruct (Hin 0%nat node (lineage_lookup_0 h fuel node)) as [Hv Hs].
    split; [exact Hv|]. split; [rewrite Hs; simpl; lia|].
    split; [|split; [exact Hin|exact Hout]].
    intros p Hp.
    assert (Hlt : (p < node)%nat) by (apply (Hpb node p Hn Hp)).
    destruct fuel as [|fuel]; [lia|].
    destruct (Hin 1%nat p) as [Hv1 Hs1].
    { rewrite (lineage_lookup_S h (S fuel) node p 0 Hp). apply lineage_lookup_0. }
    split; [exact Hv1|]. rewrite Hs1. simpl. lia.
Qed.

Lemma backpropagate_flips_sign_witness :
  Node.backpropagate 2 root_and_child 1 1 =
    match Node.parent (root_and_child !!! 1%nat) with
    | Some p => Node.backpropagate (2 - 1) (Node.record_score root_and_child 1 1) p (- (1))
    | None => Ok (Node.record_score root_and_child 1 1)
    end /\
  Node.visits (Node.record_score root_and_child 1 1 !!! 1%nat) =
    Node.visits (root_and_child !!! 1%nat) + 1 /\
  Node.score (Node.record_score root_and_child 1 1 !!! 1%nat) =
    Node.score (root_and_child !!! 1%nat) + 1 /\
  exists h',
    Node.backpropagate 2 root_and_child 1 1 = Ok h' /\
    same_tree root_and_child h' /\
    Node.visits (h' !!! 1%nat) = Node.visits (root_and_child !!! 1%nat) + 1 /\
    Node.score (h' !!! 1%nat) = Node.score (root_and_child !!! 1%nat) + 1 /\
    (forall p, Node.parent (root_and_child !!! 1%nat) = Some p ->
       Node.visits (h' !!! p) = Node.visits (root_and_child !!! p) + 1 /\
       Node.score (h' !!! p) = Node.score (root_and_child !!! p) - 1) /\
    (forall k j, lineage 2 root_and_child 1 !! k = Some j ->
       Node.visits (h' !!! j) = Node.visits (root_and_child !!! j) + 1 /\
       Node.score (h' !!! j) = Node.score (root_and_child !!! j) + (-1) ^ Z.of_nat k * 1) /\
    (forall j, ~ In j (lineage 2 root_and_child 1) -> h' !!! j = root_and_child !!! j).
Proof.
  apply (backpropagate_flips_sign 2 root_and_child 1 1).
  - apply parents_beforeb_spec. reflexivity.
  - simpl. lia.
  - lia.
Defined.

(** ** expand *)

Lemma make_move_ok (s : Connect4) (col : Z) (p : ascii) :
  wf_grid (board s) -> 0 <= col <= 6 ->
  exists s', make_move s col p = Ok s' /\ wf_grid (board s') /\
             player s' = other_player p.
Proof.
  intros Hwf Hcol. rewrite make_move_lowest by assumption.
  eexists. split; [reflexivity|]. simpl. split; [|reflexivity].
  destruct (lowest_empty (board s) col); [apply wf_place|]; exact Hwf.
Qed.

Lemma append_child_length (h : heap) (self child : nat) :
  length (Node.append_child h self child) = length h.
Proof. unfold Node.append_child. apply length_insert. Qed.

Lemma append_child_other (h : heap) (self child j : nat) :
  j <> self -> Node.append_child h self child !!! j = h !!! j.
Proof. intros Hne. unfold Node.append_child. apply list_lookup_total_insert_ne. auto. Qed.

Lemma append_child_same (h : heap) (self child : nat) :
  (self < length h)%nat ->
  Node.append_child h self child !!! self =
  {| Node.state := Node.state (h !!! self); Node.player := Node.player (h !!! self);
     Node.children := Node.children (h !!! self) ++ [child];
     Node.visits := Node.visits (h !!! self); Node.score := Node.score (h !!! self);
     Node.parent := Node.parent (h !!! self) |}.
Proof. intros Hlt. unfold Node.append_child. apply list_lookup_total_insert_eq. exact Hlt. Qed.

(** The heap after the loop of [expand]: one new object for each move, at
    the end of the heap and in the order of the moves. *)
Lemma expand_loop_spec (moves : list Z) (h : heap) (self : nat) :
  (self < length h)%nat -> wf_grid (board (Node.state (h !!! self))) ->
  List.Forall (fun col => 0 <= col <= 6) moves ->
  exists h',
    Node.expand_loop h self moves = Ok h' /\
    length h' = (length h + length moves)%nat /\
    Node.children (h' !!! self) =
      Node.children (h !!! self) ++ seq (length h) (length moves) /\
    Node.state (h' !!! self) = Node.state (h !!! self) /\
    Node.player (h' !!! self) = Node.player (h !!! self) /\
    Node.visits (h' !!! self) = Node.visits (h !!! self) /\
    Node.score (h' !!! self) = Node.score (h !!! self) /\
    Node.parent (h' !!! self) = Node.parent (h !!! self) /\
    (forall j, (j < length h)%nat -> j <> self -> h' !!! j = h !!! j) /\
    (forall i move, moves !! i = Some move ->
       exists st, make_move (Node.state (h !!! self)) move (Node.player (h !!! self)) = Ok st /\
                  wf_grid (board st) /\
                  h' !!! (length h + i)%nat =
                  {| Node.state := st;
                     Node.player := other_player (Node.player (h !!! self));
                     Node.children := []; Node.visits := 0; Node.score := 0;
                     Node.parent := Some self |}).
Proof.
  revert h. induction moves as [|move moves IH]; intros h Hself Hwf Hmoves.
  - exists h. simpl. rewrite Nat.add_0_r, app_nil_r.
    repeat (split; [reflexivity|]). intros i mv H. discriminate.
  - inversion Hmoves as [|? ? Hmove Hmoves']; subst.
    cbn [Node.expand_loop].
    destruct (make_move_ok (Node.state (h !!! self)) move (Node.player (h !!! self)) Hwf Hmove)
      as (st & Hmv & Hwfst & _).
    rewrite Hmv. cbn [bind].
    set (newp := other_player (Node.player (h !!! self))).
    unfold Node.new at 1. 
    set (h1 := h ++ [ {| Node.state := st; Node.player := newp; Node.children := [];
                         Node.visits := 0; Node.score := 0; Node.parent := Some self |} ]).
    assert (Hlen1 : length h1 = S (length h)) by (unfold h1; rewrite length_app; simpl; lia).
    assert (Hold1 : forall j, (j < length h)%nat -> h1 !!! j = h !!! j).
    { intros j Hj. unfold h1. apply lookup_total_app_l. exact Hj. }
    assert (Hnew1 : h1 !!! length h =
                    {| Node.state := st; Node.player := newp; Node.children := [];
                       Node.visits := 0; Node.score := 0; Node.parent := Some self |}).
    { unfold h1. rewrite lookup_total_app_r by lia. rewrite Nat.sub_diag. reflexivity. }
    set (h2 := Node.append_child h1 self (length h)).
    assert (Hlen2 : length h2 = S (length h)).
    { unfold h2. rewrite append_child_length. exact Hlen1. }
    assert (Hself2 : h2 !!! self =
              {| Node.state := Node.state (h !!! self); Node.player := Node.player (h !!! self);
                 Node.children := Node.children (h !!! self) ++ [length h];
                 Node.visits := Node.visits (h !!! self); Node.score := Node.score (h !!! self);
                 Node.parent := Node.parent (h !!! self) |}).
    { unfold h2. rewrite append_child_same by lia. rewrite Hold1 by exact Hself. reflexivity. }
    assert (Hother2 : forall j, j <> self -> h2 !!! j = h1 !!! j).
    { intros j Hj. unfold h2. apply append_child_other. exact Hj. }
    destruct (IH h2) as (h' & Hloop & Hlen & Hch & Hst & Hpl & Hvi & Hsc & Hpa & Hframe & Hnew).
    { lia. } { rewrite Hself2. simpl. exact Hwf. } { exact Hmoves'. }
    exists h'. split; [exact Hloop|].
    rewrite Hself2 in Hch, Hst, Hpl, Hvi, Hsc, Hpa. simpl in Hch, Hst, Hpl, Hvi, Hsc, Hpa.
    split; [rewrite Hlen, Hlen2; simpl; lia|].
    split; [rewrite Hch, Hlen2, <- app_assoc; reflexivity|].
    repeat (split; [assumption|]). split.
    + intros j Hj Hne. rewrite Hframe by (auto; lia). rewrite Hother2 by exact Hne.
      apply Hold1. exact Hj.
    + intros i mv Hi. destruct i as [|i].
      * injection Hi as <-. exists st. split; [exact Hmv|]. split; [exact Hwfst|].
        rewrite Nat.add_0_r. rewrite Hframe by lia. rewrite Hother2 by lia. exact Hnew1.
      * destruct (Hnew i mv Hi) as (st' & Hmv' & Hwf' & Hlook).
        rewrite Hself2 in Hmv', Hlook. simpl in Hmv', Hlook.
        exists st'. split; [exact Hmv'|]. split; [exact Hwf'|].
        rewrite Hlen2 in Hlook. replace (length h + S i)%nat with (S (length h) + i)%nat by lia.
        exact Hlook.
Qed.

Lemma possible_moves_range (s : Connect4) (moves : list Z) :
  wf_grid (board s) -> get_possible_moves s = Ok moves ->
  List.Forall (fun col => 0 <= col <= 6) moves /\ NoDup moves.
Proof.
  intros Hwf Hm. split.
  - apply List.Forall_forall. intros col Hin.
    apply (in_possible_moves s moves col Hwf Hm) in Hin. lia.
  - rewrite get_possible_moves_filter in Hm by exact Hwf.
    assert (E : moves = List.filter (fun c => Ascii.eqb (mark (board s) 0 c) SPACE) (range 7))
      by congruence.
    rewrite E. apply NoDup_ListNoDup. apply List.NoDup_filter. unfold range.
    apply Finite.Injective_map_NoDup; [|apply List.seq_NoDup].
    intros a b Hab. lia.
Qed.

(** C5: [expand] on a node that has no children yet creates exactly one child
    for each move of [get_possible_moves], in the order of the moves and
    without duplicates; the state of a child is the result of [make_move]
    with its move and the node's player, its player is the opponent of the
    node's player, its parent is the expanded node, and it starts without
    children, visits or score; the node keeps its other attributes and the
    other nodes are untouched. *)
Theorem expand_children (h : heap) (self : nat) (moves : list Z) :
  (self < length h)%nat -> wf_grid (board (Node.state (h !!! self))) ->
  Node.children (h !!! self) = [] ->
  get_possible_moves (Node.state (h !!! self)) = Ok moves ->
  exists h' cs,
    Node.expand h self = Ok (h', cs) /\
    cs = Node.children (h' !!! self) /\
    length cs = length moves /\ NoDup cs /\ NoDup moves /\
    (forall i move, moves !! i = Some move ->
       exists child st,
         cs !! i = Some child /\ (length h <= child < length h')%nat /\
         make_move (Node.state (h !!! self)) move (Node.player (h !!! self)) = Ok st /\
         Node.state (h' !!! child) = st /\
         Node.player (h' !!! child) = other_player (Node.player (h !!! self)) /\
         Node.parent (h' !!! child) = Some self /\
         Node.children (h' !!! child) = [] /\
         Node.visits (h' !!! child) = 0 /\ Node.score (h' !!! child) = 0) /\
    Node.state (h' !!! self) = Node.state (h !!! self) /\
    Node.player (h' !!! self) = Node.player (h !!! self) /\
    Node.visits (h' !!! self) = Node.visits (h !!! self) /\
    Node.score (h' !!! self) = Node.score (h !!! self) /\
    Node.parent (h' !!! self) = Node.parent (h !!! self) /\
    (forall j, (j < length h)%nat -> j <> self -> h' !!! j = h !!! j).
Proof.
  intros Hself Hwf Hnone Hmoves.
  destruct (possible_moves_range _ moves Hwf Hmoves) as [Hrange Hnd].
  destruct (expand_loop_spec moves h self Hself Hwf Hrange)
    as (h' & Hloop & Hlen & Hch & Hst & Hpl & Hvi & Hsc & Hpa & Hframe & Hnew).
  rewrite Hnone in Hch. simpl in Hch.
  exists h', (Node.children (h' !!! self)).
  split; [unfold Node.expand; rewrite Hmoves; cbn [bind]; rewrite Hloop; reflexivity|].
  split; [reflexivity|]. rewrite Hch.
  split; [apply length_seq|]. split; [apply NoDup_seq|]. split; [exact Hnd|].
  split; [|repeat (split; [assumption|]); exact Hframe].
  intros i move Hi. destruct (Hnew i move Hi) as (st & Hmv & _ & Hlook).
  assert (Hlt : (i < length moves)%nat) by (eapply lookup_lt_Some; exact Hi).
  exists (length h + i)%nat, st.
  split; [apply lookup_seq_lt; exact Hlt|]. split; [lia|]. split; [exact Hmv|].
  rewrite Hlook. simpl. repeat split; reflexivity.
Qed.

Lemma expand_children_witness :
  exists h' cs,
    Node.expand fresh_root 0 = Ok (h', cs) /\
    cs = Node.children (h' !!! 0%nat) /\
    length cs = length [0; 1; 2; 3; 4; 5; 6] /\ NoDup cs /\ NoDup [0; 1; 2; 3; 4; 5; 6] /\
    (forall i move, [0; 1; 2; 3; 4; 5; 6] !! i = Some move ->
       exists child st,
         cs !! i = Some child /\ (length fresh_root <= child < length h')%nat /\
         make_move (Node.state (fresh_root !!! 0%nat)) move
                   (Node.player (fresh_root !!! 0%nat)) = Ok st /\
         Node.state (h' !!! child) = st /\
         Node.player (h' !!! child) = other_player (Node.player (fresh_root !!! 0%nat)) /\
         Node.parent (h' !!! child) = Some 0%nat /\
         Node.children (h' !!! child) = [] /\
         Node.visits (h' !!! child) = 0 /\ Node.score (h' !!! child) = 0) /\
    Node.state (h' !!! 0%nat) = Node.state (fresh_root !!! 0%nat) /\
    Node.player (h' !!! 0%nat) = Node.player (fresh_root !!! 0%nat) /\
    Node.visits (h' !!! 0%nat) = Node.visits (fresh_root !!! 0%nat) /\
    Node.score (h' !!! 0%nat) = Node.score (fresh_root !!! 0%nat) /\
    Node.parent (h' !!! 0%nat) = Node.parent (fresh_root !!! 0%nat) /\
    (forall j, (j < length fresh_root)%nat -> j <> 0%nat -> h' !!! j = fresh_root !!! j).
Proof.
  apply (expand_children fresh_root 0 [0; 1; 2; 3; 4; 5; 6]).
  - simpl. lia.
  - apply wf_gridb_spec. reflexivity.
  - reflexivity.
  - reflexivity.
Defined.

(** ** Python's [max] *)

Section MaxKey.
Context {A K : Type}.
Variable gt : K -> K -> bool.
Variable key : A -> result K.
Variable kf : A -> K.

Hypothesis gt_irrefl : forall a, gt a a = false.
Hypothesis gt_chain : forall a b c,
  gt c b = true -> gt a b = false -> gt c a = true /\ gt a c = false.

Lemma max_loop_first (l done : list A) (i : nat) (best : A) :
  (forall x, In x l -> key x = Ok (kf x)) ->
  first_max gt kf done i best ->
  exists i' x, max_loop gt key best (kf best) l = Ok x /\
               first_max gt kf (done ++ l) i' x.
Proof.
  revert done i best. induction l as [|x l IH]; intros done i best Hkey Hbest.
  - exists i, best. split; [reflexivity|]. rewrite app_nil_r. exact Hbest.
  - cbn [max_loop]. rewrite (Hkey x) by (left; reflexivity). cbn [bind].
    destruct Hbest as (Hi & Hmax & Hfirst).
    assert (Hlt : (i < length done)%nat) by (eapply lookup_lt_Some; exact Hi).
    replace (done ++ x :: l) with ((done ++ [x]) ++ l) by (rewrite <- app_assoc; reflexivity).
    destruct (gt (kf x) (kf best)) eqn:Hgt.
    + apply (IH (done ++ [x]) (length done) x).
      { intros y Hy. apply Hkey. right. exact Hy. }
      split; [|split].
      * rewrite lookup_app_r by lia. rewrite Nat.sub_diag. reflexivity.
      * intros j y Hj. apply lookup_app_Some in Hj as [Hj|[Hge Hj]].
        -- apply (gt_chain (kf y) (kf best) (kf x)); [exact Hgt|]. eapply Hmax. exact Hj.
        -- destruct (j - length done)%nat; [|discriminate]. injection Hj as <-.
           apply gt_irrefl.
      * intros j y Hj Hy. rewrite lookup_app_l in Hy by lia.
        apply (gt_chain (kf y) (kf best) (kf x)); [exact Hgt|]. eapply Hmax. exact Hy.
    + apply (IH (done ++ [x]) i best).
      { intros y Hy. apply Hkey. right. exact Hy. }
      split; [|split].
      * rewrite lookup_app_l by lia. exact Hi.
      * intros j y Hj. apply lookup_app_Some in Hj as [Hj|[Hge Hj]].
        -- eapply Hmax. exact Hj.
        -- destruct (j - length done)%nat; [|discriminate]. injection Hj as <-. exact Hgt.
      * intros j y Hj Hy. rewrite lookup_app_l in Hy by lia. eapply Hfirst; eassumption.
Qed.

Lemma max_key_first (l : list A) :
  l <> [] -> (forall x, In x l -> key x = Ok (kf x)) ->
  exists i x, max_key gt key l = Ok x /\ first_max gt kf l i x.
Proof.
  intros Hne Hkey. destruct l as [|x l]; [contradiction|].
  cbn [max_key]. rewrite (Hkey x) by (left; reflexivity). cbn [bind].
  apply (max_loop_first l [x] 0 x).
  - intros y Hy. apply Hkey. right. exact Hy.
  - split; [reflexivity|]. split.
    + intros [|j] y Hj; [|discriminate]. injection Hj as <-. apply gt_irrefl.
    + intros j y Hj. lia.
Qed.

End MaxKey.

(** ** select_child *)

Lemma eps_pos : (0 < Node.eps < 1)%R.
Proof. unfold Node.eps. lra. Qed.

Lemma float_gt_irrefl (a : R) : Py.float_gt a a = false.
Proof. unfold Py.float_gt. destruct (Rgt_dec a a); [lra|reflexivity]. Qed.

Lemma float_gt_chain (a b c : R) :
  Py.float_gt c b = true -> Py.float_gt a b = false ->
  Py.float_gt c a = true /\ Py.float_gt a c = false.
Proof.
  unfold Py.float_gt. destruct (Rgt_dec c b), (Rgt_dec a b), (Rgt_dec c a), (Rgt_dec a c);
    intros; try discriminate; try lra; auto.
Qed.

Lemma fold_visits_nonneg (h : heap) (l : list nat) (acc : Z) :
  (forall c, In c l -> 0 <= Node.visits (h !!! c)) -> 0 <= acc ->
  0 <= fold_left (fun a child => a + Node.visits (h !!! child)) l acc.
Proof.
  revert acc. induction l as [|c l IH]; intros acc Hl Hacc; simpl; [exact Hacc|].
  apply IH.
  - intros c' Hc'. apply Hl. right. exact Hc'.
  - specialize (Hl c (or_introl eq_refl)). lia.
Qed.

Lemma total_visits_nonneg (h : heap) (self : nat) :
  (forall c, In c (Node.children (h !!! self)) -> 0 <= Node.visits (h !!! c)) ->
  0 <= Node.total_visits h self.
Proof. intros H. unfold Node.total_visits. apply fold_visits_nonneg; [exact H|lia]. Qed.

Lemma div_ok (x y : R) : (0 < y)%R -> Py.float_div x y = Ok (x / y)%R.
Proof. intros Hy. unfold Py.float_div. destruct (Req_dec_T y 0); [lra|reflexivity]. Qed.

Lemma sqrt_ok (x : R) : (0 <= x)%R -> Py.math_sqrt x = Ok (R_sqrt.sqrt x).
Proof. intros Hx. unfold Py.math_sqrt. destruct (Rlt_dec x 0); [lra|reflexivity]. Qed.

Lemma log_ok (x : R) : (1 <= x)%R -> Py.math_log x = Ok (ln x) /\ (0 <= ln x)%R.
Proof.
  intros Hx. unfold Py.math_log. destruct (Rle_dec x 0); [lra|]. split; [reflexivity|].
  destruct (Req_dec_T x 1) as [->|Hne]; [rewrite ln_1; lra|].
  rewrite <- ln_1. left. apply ln_increasing; lra.
Qed.

Lemma log_exploration_value_ok (h : heap) (self : nat) :
  (forall c, In c (Node.children (h !!! self)) -> 0 <= Node.visits (h !!! c)) ->
  exists lev,
    Node.log_exploration_value h self = Ok lev /\ (0 <= lev)%R /\
    lev = (if Node.total_visits h self =? 0 then 0%R
           else ln (IZR (Node.total_visits h self) + Node.eps)).
Proof.
  intros Hv. pose proof (total_visits_nonneg h self Hv) as Ht.
  unfold Node.log_exploration_value.
  destruct (Z.eqb_spec (Node.total_visits h self) 0) as [E|NE].
  - exists 0%R. split; [reflexivity|]. split; [lra|reflexivity].
  - assert (H1 : (1 <= IZR (Node.total_visits h self))%R) by (apply IZR_le; lia).
    destruct (log_ok (IZR (Node.total_visits h self) + Node.eps)) as [Hlog Hpos].
    { pose proof eps_pos. lra. }
    eexists. split; [exact Hlog|]. split; [exact Hpos|reflexivity].
Qed.

Lemma ucb_score_ok (h : heap) (lev : R) (node : nat) :
  0 <= Node.visits (h !!! node) -> (0 <= lev)%R ->
  Node.ucb_score h lev node =
  Ok (IZR (Node.score (h !!! node)) / (IZR (Node.visits (h !!! node)) + Node.eps) +
      R_sqrt.sqrt (lev / (IZR (Node.visits (h !!! node)) + Node.eps)))%R.
Proof.
  intros Hv Hlev. unfold Node.ucb_score.
  assert (Hd : (0 < IZR (Node.visits (h !!! node)) + Node.eps)%R).
  { pose proof eps_pos. apply IZR_le in Hv. lra. }
  rewrite !div_ok by exact Hd. cbn [bind].
  rewrite sqrt_ok; [reflexivity|].
  apply Rle_mult_inv_pos; assumption.
Qed.

Lemma select_child_first_max (h : heap) (self : nat) :
  Node.children (h !!! self) <> [] ->
  (forall c, In c (Node.children (h !!! self)) -> 0 <= Node.visits (h !!! c)) ->
  exists i child,
    Node.select_child h self = Ok child /\
    first_max Py.float_gt (ucb h self) (Node.children (h !!! self)) i child.
Proof.
  intros Hne Hv.
  destruct (log_exploration_value_ok h self Hv) as (lev & Hlev & Hpos & Elev).
  unfold Node.select_child. rewrite Hlev. cbn [bind].
  apply max_key_first; [apply float_gt_irrefl|apply float_gt_chain|exact Hne|].
  intros c Hc. rewrite ucb_score_ok; [|apply Hv; exact Hc|exact Hpos].
  unfold ucb. rewrite <- Elev. reflexivity.
Qed.

Lemma fold_visits_shift (h : heap) (l : list nat) (acc : Z) :
  fold_left (fun a child => a + Node.visits (h !!! child)) l acc =
  acc + fold_left (fun a child => a + Node.visits (h !!! child)) l 0.
Proof.
  revert acc. induction l as [|x l IH]; intros acc; simpl; [lia|].
  rewrite (IH (acc + _)), (IH (0 + _)). lia.
Qed.

(** ** Floating-point numbers *)

Lemma SFltb_irrefl (x : SpecFloat.spec_float) : SpecFloat.SFltb x x = false.
Proof.
  unfold SpecFloat.SFltb. destruct x as [[]|[]| |[] m e]; cbn; try reflexivity.
  - rewrite Z.compare_refl. change (Pos.compare_cont Eq m m) with (Pos.compare m m).
    rewrite Pos.compare_refl. reflexivity.
  - rewrite Z.compare_refl. change (Pos.compare_cont Eq m m) with (Pos.compare m m).
    rewrite Pos.compare_refl. reflexivity.
Qed.

Ltac sf_compare :=
  repeat match goal with
         | H : context [Z.compare ?a ?b] |- _ => destruct (Z.compare_spec a b); cbn in H
         | |- context [Z.compare ?a ?b] => destruct (Z.compare_spec a b); cbn
         | H : context [Pos.compare_cont Eq ?a ?b] |- _ =>
             change (Pos.compare_cont Eq a b) with (Pos.compare a b) in H;
             destruct (Pos.compare_spec a b); cbn in H
         | |- context [Pos.compare_cont Eq ?a ?b] =>
             change (Pos.compare_cont Eq a b) with (Pos.compare a b);
             destruct (Pos.compare_spec a b); cbn
         end;
  try congruence; try lia.

Lemma SFltb_chain (a b c : SpecFloat.spec_float) :
  a <> SpecFloat.S754_nan ->
  SpecFloat.SFltb b c = true -> SpecFloat.SFltb b a = false ->
  SpecFloat.SFltb a c = true /\ SpecFloat.SFltb c a = false.
Proof.
  unfold SpecFloat.SFltb.
  destruct a as [[]|[]| |[] ma ea]; intros Ha; try congruence;
    destruct b as [[]|[]| |[] mb eb]; destruct c as [[]|[]| |[] mc ec];
    cbn; intros Hbc Hba; try discriminate; try (split; reflexivity);
    split; sf_compare.
Qed.

Lemma SFltb_leb (x y : SpecFloat.spec_float) :
  x <> SpecFloat.S754_nan -> y <> SpecFloat.S754_nan ->
  SpecFloat.SFltb y x = false -> SpecFloat.SFleb x y = true.
Proof.
  unfold SpecFloat.SFltb, SpecFloat.SFleb.
  destruct x as [[]|[]| |[] mx ex]; intros Hx; try congruence;
    destruct y as [[]|[]| |[] my ey]; intros Hy; try congruence;
    cbn; intros H; try discriminate; try reflexivity; sf_compare.
Qed.

Lemma is_nan_Prim2SF (x : PrimFloat.float) :
  PrimFloat.is_nan x = false -> FloatOps.Prim2SF x <> SpecFloat.S754_nan.
Proof.
  unfold PrimFloat.is_nan. rewrite FloatAxioms.eqb_spec. intros H E.
  rewrite E in H. discriminate.
Qed.

Lemma float_gt_irreflexive (x : PrimFloat.float) : Binary64.float_gt x x = false.
Proof. unfold Binary64.float_gt. rewrite FloatAxioms.ltb_spec. apply SFltb_irrefl. Qed.

Lemma float_gt_chain_number (a b c : PrimFloat.float) :
  PrimFloat.is_nan a = false ->
  Binary64.float_gt c b = true -> Binary64.float_gt a b = false ->
  Binary64.float_gt c a = true /\ Binary64.float_gt a c = false.
Proof.
  unfold Binary64.float_gt. rewrite !FloatAxioms.ltb_spec. intros Ha.
  apply SFltb_chain. apply is_nan_Prim2SF. exact Ha.
Qed.

Lemma float_gt_false_leb (x y : PrimFloat.float) :
  PrimFloat.is_nan x = false -> PrimFloat.is_nan y = false ->
  Binary64.float_gt x y = false -> PrimFloat.leb x y = true.
Proof.
  unfold Binary64.float_gt. rewrite FloatAxioms.ltb_spec, FloatAxioms.leb_spec.
  intros Hx Hy. apply SFltb_leb; apply is_nan_Prim2SF; assumption.
Qed.

(** ** [max] with keys that are compared as numbers *)

Section MaxKeyOn.
Context {A K : Type}.
Variable gt : K -> K -> bool.
Variable key : A -> result K.
Variable kf : A -> K.
Variable good : K -> Prop.

Hypothesis gt_irrefl : forall a, gt a a = false.
Hypothesis gt_chain : forall a b c,
  good a -> gt c b = true -> gt a b = false -> gt c a = true /\ gt a c = false.

Lemma max_loop_first_on (l done : list A) (i : nat) (best : A) :
  (forall x, In x (done ++ l) -> key x = Ok (kf x) /\ good (kf x)) ->
  first_max gt kf done i best ->
  exists i' x, max_loop gt key best (kf best) l = Ok x /\
               first_max gt kf (done ++ l) i' x.
Proof.
  revert done i best. induction l as [|x l IH]; intros done i best Hkey Hbest.
  - exists i, best. split; [reflexivity|]. rewrite app_nil_r. exact Hbest.
  - cbn [max_loop].
    destruct (Hkey x) as [Hx _]; [apply in_app_iff; right; left; reflexivity|].
    rewrite Hx. cbn [bind].
    destruct Hbest as (Hi & Hmax & Hfirst).
    assert (Hlt : (i < length done)%nat) by (eapply lookup_lt_Some; exact Hi).
    assert (Hdone : forall j y, done !! j = Some y -> good (kf y)).
    { intros j y Hj. apply Hkey, in_app_iff. left.
      apply list_elem_of_In. eapply list_elem_of_lookup_2. exact Hj. }
    assert (Hkey' : forall y, In y ((done ++ [x]) ++ l) -> key y = Ok (kf y) /\ good (kf y)).
    { intros y Hy. apply Hkey. rewrite <- app_assoc in Hy. exact Hy. }
    replace (done ++ x :: l) with ((done ++ [x]) ++ l) by (rewrite <- app_assoc; reflexivity).
    destruct (gt (kf x) (kf best)) eqn:Hgt.
    + apply (IH (done ++ [x]) (length done) x Hkey').
      split; [|split].
      * rewrite lookup_app_r by lia. rewrite Nat.sub_diag. reflexivity.
      * intros j y Hj. apply lookup_app_Some in Hj as [Hj|[Hge Hj]].
        -- apply (gt_chain (kf y) (kf best) (kf x)); [eapply Hdone; exact Hj|exact Hgt|].
           eapply Hmax. exact Hj.
        -- destruct (j - length done)%nat; [|discriminate]. injection Hj as <-.
           apply gt_irrefl.
      * intros j y Hj Hy. rewrite lookup_app_l in Hy by lia.
        apply (gt_chain (kf y) (kf best) (kf x)); [eapply Hdone; exact Hy|exact Hgt|].
        eapply Hmax. exact Hy.
    + apply (IH (done ++ [x]) i best Hkey').
      split; [|split].
      * rewrite lookup_app_l by lia. exact Hi.
      * intros j y Hj. apply lookup_app_Some in Hj as [Hj|[Hge Hj]].
        -- eapply Hmax. exact Hj.
        -- destruct (j - length done)%nat; [|discriminate]. injection Hj as <-. exact Hgt.
      * intros j y Hj Hy. rewrite lookup_app_l in Hy by lia. eapply Hfirst; eassumption.
Qed.

Lemma max_key_first_on (l : list A) :
  l <> [] -> (forall x, In x l -> key x = Ok (kf x) /\ good (kf x)) ->
  exists i x, max_key gt key l = Ok x /\ first_max gt kf l i x.
Proof.
  intros Hne Hkey. destruct l as [|x l]; [contradiction|].
  cbn [max_key]. destruct (Hkey x) as [Hx _]; [left; reflexivity|]. rewrite Hx. cbn [bind].
  apply (max_loop_first_on l [x] 0 x).
  - exact Hkey.
  - split; [reflexivity|]. split.
    + intros [|j] y Hj; [|discriminate]. injection Hj as <-. apply gt_irrefl.
    + intros j y Hj. lia.
Qed.

(** The exception of the first key that raises leaves [max]. *)
Lemma max_loop_raise (l : list A) (best : A) (best_key : K) (j : nat) (x : A) (e : exn) :
  l !! j = Some x -> key x = Raise e ->
  (forall j' y, (j' < j)%nat -> l !! j' = Some y -> exists k, key y = Ok k) ->
  max_loop gt key best best_key l = Raise e.
Proof.
  revert best best_key j. induction l as [|y l IH]; intros best best_key j Hj Hx Hbefore;
    [destruct j; discriminate|].
  cbn [max_loop]. destruct j as [|j].
  - injection Hj as ->. rewrite Hx. reflexivity.
  - destruct (Hbefore 0%nat y) as [k Hk]; [lia|reflexivity|]. rewrite Hk. cbn [bind].
    assert (Hb : forall j' z, (j' < j)%nat -> l !! j' = Some z -> exists k, key z = Ok k).
    { intros j' z Hj' Hz. apply (Hbefore (S j') z); [lia|exact Hz]. }
    destruct (gt k best_key); apply (IH _ _ j); assumption.
Qed.

Lemma max_key_raise (l : list A) (j : nat) (x : A) (e : exn) :
  l !! j = Some x -> key x = Raise e ->
  (forall j' y, (j' < j)%nat -> l !! j' = Some y -> exists k, key y = Ok k) ->
  max_key gt key l = Raise e.
Proof.
  intros Hj Hx Hbefore. destruct l as [|y l]; [destruct j; discriminate|].
  cbn [max_key]. destruct j as [|j].
  - injection Hj as ->. rewrite Hx. reflexivity.
  - destruct (Hbefore 0%nat y) as [k Hk]; [lia|reflexivity|]. rewrite Hk. cbn [bind].
    apply (max_loop_raise l y k j x e Hj Hx).
    intros j' z Hj' Hz. apply (Hbefore (S j') z); [lia|exact Hz].
Qed.

End MaxKeyOn.

(** ** [select_child] *)

Lemma ucb_score_spec (libm_log : PrimFloat.float -> PrimFloat.float)
    (h : heap) (self : nat) (lev : PrimFloat.float) (c : nat) :
  Node.total_visits h self <> 0 ->
  Binary64.log_exploration_value libm_log h self = Ok lev ->
  Binary64.ucb_score h lev c = Binary64.spec_ucb_score libm_log h self c.
Proof.
  intros Ht Hlev. unfold Binary64.log_exploration_value in Hlev.
  apply Z.eqb_neq in Ht. rewrite Ht in Hlev.
  unfold Binary64.ucb_score, Binary64.spec_ucb_score.
  destruct (Binary64.plus_eps (Node.visits (h !!! c))) as [d| |]; cbn [bind]; try reflexivity.
  destruct (Binary64.float_of_int (Node.score (h !!! c))) as [s| |]; cbn [bind];
    try reflexivity.
  destruct (Binary64.float_div s d) as [a| |]; cbn [bind]; try reflexivity.
  destruct (Binary64.plus_eps (Node.total_visits h self)) as [x| |]; cbn [bind] in *;
    try discriminate.
  rewrite Hlev. reflexivity.
Qed.

(** C2, counterexample: the only child of the root of [root_and_child] has
    no visit, so the total is 0: [select_child] returns the child, while the
    bound of the specification has no value there, [log(0 + 1e-8)] being
    negative and its quotient outside the domain of [sqrt]. *)
Lemma select_child_unvisited :
  Node.children (root_and_child !!! 0%nat) = [1%nat] /\
  Binary64.select_child Binary64.sample_log root_and_child 0 = Ok 1%nat /\
  Binary64.spec_ucb_score Binary64.sample_log root_and_child 0 1 = Raise ValueError.
Proof. split; [reflexivity|]. split; vm_compute; reflexivity. Qed.

(** C2, as the code has it, in the binary64 arithmetic of Python's floats and
    for every logarithm of the C library.  On a node with children,
    [select_child] takes [L = log(total + eps)] when the total of the
    children's visits is not 0 and [L = 0] when it is 0, [eps = 1e-8], and
    computes for the children, in their order, the bound
    [childScore / (childVisits + eps) + sqrt(L / (childVisits + eps))], which
    is the bound of the specification when the total is not 0.  When the
    logarithm raises, or the bound of a child raises and those of the
    children before it do not, [select_child] raises that exception.  When
    every bound has a value and none is a NaN, [select_child] returns the
    child with the greatest bound, the first such child in child order. *)
Theorem select_child_ucb (libm_log : PrimFloat.float -> PrimFloat.float)
    (h : heap) (self : nat) :
  Node.children (h !!! self) <> [] ->
  (forall e, Binary64.log_exploration_value libm_log h self = Raise e ->
             Binary64.select_child libm_log h self = Raise e) /\
  (Node.total_visits h self = 0 ->
   Binary64.log_exploration_value libm_log h self = Ok PrimFloat.zero) /\
  (forall lev, Binary64.log_exploration_value libm_log h self = Ok lev ->
     (Node.total_visits h self <> 0 ->
      forall c, Binary64.ucb_score h lev c = Binary64.spec_ucb_score libm_log h self c) /\
     (forall j c e,
        Node.children (h !!! self) !! j = Some c ->
        Binary64.ucb_score h lev c = Raise e ->
        (forall j' c', (j' < j)%nat -> Node.children (h !!! self) !! j' = Some c' ->
                       exists k, Binary64.ucb_score h lev c' = Ok k) ->
        Binary64.select_child libm_log h self = Raise e) /\
     (forall kf : nat -> PrimFloat.float,
        (forall c, In c (Node.children (h !!! self)) ->
                   Binary64.ucb_score h lev c = Ok (kf c) /\ PrimFloat.is_nan (kf c) = false) ->
        exists i child,
          Binary64.select_child libm_log h self = Ok child /\
          Node.children (h !!! self) !! i = Some child /\
          (forall c, In c (Node.children (h !!! self)) ->
                     PrimFloat.leb (kf c) (kf child) = true) /\
          (forall j c, (j < i)%nat -> Node.children (h !!! self) !! j = Some c ->
                       PrimFloat.ltb (kf c) (kf child) = true))).
Proof.
  intros Hne. unfold Binary64.select_child. split; [|split].
  - intros e ->. reflexivity.
  - intros Ht. unfold Binary64.log_exploration_value. rewrite Ht. reflexivity.
  - intros lev Hlev. rewrite Hlev. cbn [bind]. split; [|split].
    + intros Ht c. apply ucb_score_spec; assumption.
    + intros j c e Hj He Hbefore. apply (max_key_raise _ _ _ j c e Hj He Hbefore).
    + intros kf Hkf.
      destruct (max_key_first_on Binary64.float_gt (Binary64.ucb_score h lev) kf
                  (fun k => PrimFloat.is_nan k = false)
                  float_gt_irreflexive float_gt_chain_number
                  (Node.children (h !!! self)) Hne Hkf)
        as (i & child & Hsel & Hi & Hmax & Hfirst).
      exists i, child. split; [exact Hsel|]. split; [exact Hi|].
      assert (Hchild : PrimFloat.is_nan (kf child) = false).
      { apply Hkf, list_elem_of_In. eapply list_elem_of_lookup_2. exact Hi. }
      split.
      * intros c Hc. pose proof Hc as Hc'.
        apply list_elem_of_In, list_elem_of_lookup in Hc' as [j Hj].
        apply float_gt_false_leb; [apply Hkf; exact Hc|exact Hchild|].
        eapply Hmax. exact Hj.
      * intros j c Hj Hc. exact (Hfirst j c Hj Hc).
Qed.

Lemma select_child_ucb_witness :
  Binary64.log_exploration_value Binary64.sample_log four_children 0 =
    Ok Binary64.log_19898 /\
  map (Binary64.ucb_score four_children Binary64.log_19898)
      (Node.children (four_children !!! 0%nat)) = map Ok Binary64.sample_keys /\
  Binary64.select_child Binary64.sample_log four_children 0 = Ok 2%nat /\
  (exists i child,
     Binary64.select_child Binary64.sample_log four_children 0 = Ok child /\
     Node.children (four_children !!! 0%nat) !! i = Some child /\
     (forall c, In c (Node.children (four_children !!! 0%nat)) ->
                PrimFloat.leb (Binary64.sample_key c) (Binary64.sample_key child) = true) /\
     (forall j c, (j < i)%nat -> Node.children (four_children !!! 0%nat) !! j = Some c ->
                  PrimFloat.ltb (Binary64.sample_key c) (Binary64.sample_key child) = true)) /\
  (forall e, Binary64.log_exploration_value Binary64.sample_log four_children 0 = Raise e ->
             Binary64.select_child Binary64.sample_log four_children 0 = Raise e) /\
  (Node.total_visits four_children 0 = 0 ->
   Binary64.log_exploration_value Binary64.sample_log four_children 0 = Ok PrimFloat.zero) /\
  (forall lev, Binary64.log_exploration_value Binary64.sample_log four_children 0 = Ok lev ->
     (Node.total_visits four_children 0 <> 0 ->
      forall c, Binary64.ucb_score four_children lev c =
                Binary64.spec_ucb_score Binary64.sample_log four_children 0 c) /\
     (forall j c e,
        Node.children (four_children !!! 0%nat) !! j = Some c ->
        Binary64.ucb_score four_children lev c = Raise e ->
        (forall j' c', (j' < j)%nat -> Node.children (four_children !!! 0%nat) !! j' = Some c' ->
                       exists k, Binary64.ucb_score four_children lev c' = Ok k) ->
        Binary64.select_child Binary64.sample_log four_children 0 = Raise e) /\
     (forall kf : nat -> PrimFloat.float,
        (forall c, In c (Node.children (four_children !!! 0%nat)) ->
                   Binary64.ucb_score four_children lev c = Ok (kf c) /\
                   PrimFloat.is_nan (kf c) = false) ->
        exists i child,
          Binary64.select_child Binary64.sample_log four_children 0 = Ok child /\
          Node.children (four_children !!! 0%nat) !! i = Some child /\
          (forall c, In c (Node.children (four_children !!! 0%nat)) ->
                     PrimFloat.leb (kf c) (kf child) = true) /\
          (forall j c, (j < i)%nat -> Node.children (four_children !!! 0%nat) !! j = Some c ->
                       PrimFloat.ltb (kf c) (kf child) = true))).
Proof.
  split; [vm_compute; reflexivity|]. split; [vm_compute; reflexivity|].
  split; [vm_compute; reflexivity|].
  split; [|apply (select_child_ucb Binary64.sample_log four_children 0); discriminate].
  destruct (select_child_ucb Binary64.sample_log four_children 0) as (_ & _ & H);
    [discriminate|].
  destruct (H Binary64.log_19898) as (_ & _ & Hmax); [vm_compute; reflexivity|].
  apply (Hmax Binary64.sample_key).
  intros c [<-|[<-|[<-|[<-|[]]]]]; split; vm_compute; reflexivity.
Defined.

(** With the first three children of [four_children] alone, the bounds of the
    first and of the second differ by one unit in the last place, and
    [select_child] returns the second. *)
Example select_child_near_keys :
  map (Binary64.spec_ucb_score Binary64.sample_log three_children 0)
      (Node.children (three_children !!! 0%nat)) = map Ok Binary64.near_keys /\
  Binary64.select_child Binary64.sample_log three_children 0 = Ok 2%nat.
Proof. split; vm_compute; reflexivity. Qed.

(** ** simulate *)

Lemma list_sum_lt {A : Type} (f g : A -> nat) (l : list A) (x : A) :
  (forall y, In y l -> (g y <= f y)%nat) -> In x l -> (g x < f x)%nat ->
  (list_sum (map g l) < list_sum (map f l))%nat.
Proof.
  intros Hle Hin Hlt.
  assert (Hall : forall l', (forall y, In y l' -> (g y <= f y)%nat) ->
            (list_sum (map g l') <= list_sum (map f l'))%nat).
  { induction l' as [|y l' IH]; intros H; simpl; [lia|].
    pose proof (H y (or_introl eq_refl)).
    assert (list_sum (map g l') <= list_sum (map f l'))%nat
      by (apply IH; intros z Hz; apply H; right; exact Hz).
    lia. }
  induction l as [|y l IH]; simpl; [contradiction|].
  destruct Hin as [->|Hin].
  - assert (list_sum (map g l) <= list_sum (map f l))%nat
      by (apply Hall; intros z Hz; apply Hle; right; exact Hz).
    lia.
  - pose proof (Hle y (or_introl eq_refl)).
    assert (list_sum (map g l) < list_sum (map f l))%nat
      by (apply IH; [intros z Hz; apply Hle; right; exact Hz|exact Hin]).
    lia.
Qed.

Lemma in_all_cells (row col : Z) : In (row, col) all_cells <-> on_board row col.
Proof. unfold all_cells, on_board. rewrite in_prod_iff, !in_range. lia. Qed.

Lemma count_empty_place (b : grid) (row col : Z) (p : ascii) :
  wf_grid b -> on_board row col -> mark b row col = SPACE -> p <> SPACE ->
  (count_empty (place b row col p) < count_empty b)%nat.
Proof.
  intros Hwf Hon Hm Hp. unfold count_empty.
  apply (list_sum_lt _ _ all_cells (row, col)).
  - intros [r c] Hin. apply in_all_cells in Hin. simpl fst. simpl snd.
    rewrite mark_place by assumption.
    destruct ((r =? row) && (c =? col)) eqn:E.
    + apply Ascii.eqb_neq in Hp. rewrite Hp.
      destruct (Ascii.eqb (mark b r c) SPACE); lia.
    + lia.
  - apply in_all_cells. exact Hon.
  - simpl fst. simpl snd. rewrite mark_place by assumption.
    rewrite !Z.eqb_refl. simpl andb. cbv iota.
    apply Ascii.eqb_neq in Hp. rewrite Hp. rewrite Hm. rewrite Ascii.eqb_refl. lia.
Qed.

Lemma other_player_not_space (p : ascii) : other_player p <> SPACE.
Proof. unfold other_player. destruct (Ascii.eqb p X); discriminate. Qed.

(** A legal move fills a cell. *)
Lemma make_move_fills (s : Connect4) (col : Z) (p : ascii) :
  wf_grid (board s) -> 0 <= col <= 6 -> mark (board s) 0 col = SPACE -> p <> SPACE ->
  exists s', make_move s col p = Ok s' /\ wf_grid (board s') /\
             (count_empty (board s') < count_empty (board s))%nat.
Proof.
  intros Hwf Hcol Htop Hp.
  destruct (lowest_empty (board s) col) as [row|] eqn:Hlow.
  2:{ apply lowest_empty_None in Hlow. exfalso. apply (Hlow 0); [lia|exact Htop]. }
  rewrite make_move_lowest by assumption. rewrite Hlow.
  eexists. split; [reflexivity|]. simpl.
  apply lowest_empty_Some in Hlow as (Hrow & Hm & _).
  split; [apply wf_place; exact Hwf|].
  apply count_empty_place; auto. split; lia.
Qed.

Lemma choice_in {A : Type} (g : rng) (l : list A) :
  l <> [] -> exists x g', choice g l = Ok (x, g') /\ In x l.
Proof.
  intros Hne. unfold choice.
  assert (Hlen : (0 < length l)%nat) by (destruct l; [contradiction|simpl; lia]).
  destruct (lookup_lt_is_Some_2 l (draws g (pos g) mod length l)) as [x Hx].
  { apply Nat.mod_upper_bound. lia. }
  rewrite Hx. eexists _, _. split; [reflexivity|].
  apply list_elem_of_In. eapply list_elem_of_lookup_2. exact Hx.
Qed.

(** A state that is not terminal has a legal move. *)
Lemma not_terminal_moves (s : Connect4) (moves : list Z) :
  wf_grid (board s) -> is_terminal s = Ok false ->
  get_possible_moves s = Ok moves -> moves <> [].
Proof.
  intros Hwf Ht Hm Hnil. subst moves.
  rewrite is_terminal_first_line in Ht by exact Hwf.
  destruct (first_line_cell (board s)); [discriminate|].
  assert (Hf : forallb (fun col => negb (Ascii.eqb (mark (board s) 0 col) SPACE)) (range 7)
               = false) by congruence.
  assert (Hall : forallb (fun col => negb (Ascii.eqb (mark (board s) 0 col) SPACE)) (range 7)
               = true).
  { apply forallb_forall. intros col Hcol. apply negb_true_iff, Ascii.eqb_neq. intros Hsp.
    assert (Hin : In col []).
    { apply (in_possible_moves s [] col Hwf Hm). apply in_range in Hcol. split; [lia|exact Hsp]. }
    contradiction. }
  congruence.
Qed.

Lemma is_terminal_total (s : Connect4) :
  wf_grid (board s) -> exists t, is_terminal s = Ok t.
Proof. intros Hwf. rewrite is_terminal_first_line by exact Hwf. eauto. Qed.

Lemma evaluate_total (s : Connect4) :
  wf_grid (board s) -> exists v, evaluate s = Ok v.
Proof. intros Hwf. rewrite evaluate_first_line by exact Hwf. eauto. Qed.

(** The rollout ends: every move fills a cell, and a full board is terminal. *)
Lemma simulate_loop_ends (fuel : nat) (g : rng) (s : Connect4) (p : ascii) :
  wf_grid (board s) -> p <> SPACE -> (count_empty (board s) < fuel)%nat ->
  exists v g', Node.simulate_loop fuel g s p = Ok (v, g').
Proof.
  revert g s p. induction fuel as [|fuel IH]; intros g s p Hwf Hp Hfuel; [lia|].
  cbn [Node.simulate_loop].
  destruct (is_terminal_total s Hwf) as [t Ht]. rewrite Ht. cbn [bind].
  destruct t.
  - destruct (evaluate_total s Hwf) as [v Hv]. rewrite Hv. cbn [bind]. eauto.
  - rewrite get_possible_moves_filter by exact Hwf. cbn [bind].
    pose proof (get_possible_moves_filter s Hwf) as Hmoves.
    set (moves := List.filter _ _) in *.
    destruct (choice_in g moves) as (m & g' & Hch & Hin).
    { eapply not_terminal_moves; eassumption. }
    rewrite Hch. cbn [bind fst snd].
    apply (in_possible_moves s moves m Hwf Hmoves) in Hin as [Hcol Htop].
    destruct (make_move_fills s m p Hwf Hcol Htop Hp) as (s' & Hmv & Hwf' & Hcount).
    rewrite Hmv. cbn [bind].
    apply IH; [exact Hwf'|apply other_player_not_space|lia].
Qed.

Lemma count_empty_bound (b : grid) : (count_empty b <= 42)%nat.
Proof.
  unfold count_empty.
  assert (H : forall l : list (Z * Z),
            (list_sum (map (fun rc => if Ascii.eqb (mark b (fst rc) (snd rc)) SPACE
                                      then 1%nat else 0%nat) l) <= length l)%nat).
  { induction l as [|x l IH]; simpl; [lia|].
    destruct (Ascii.eqb (mark b (fst x) (snd x)) SPACE); lia. }
  apply (H all_cells).
Qed.

Lemma simulate_ends (fuel : nat) (g : rng) (h : heap) (node : nat) :
  wf_grid (board (Node.state (h !!! node))) -> Node.player (h !!! node) <> SPACE ->
  (42 < fuel)%nat ->
  exists v g', Node.simulate fuel g h node = Ok (v, g').
Proof.
  intros Hwf Hp Hfuel. unfold Node.simulate.
  apply simulate_loop_ends.
  - rewrite copy_board. exact Hwf.
  - exact Hp.
  - rewrite copy_board. pose proof (count_empty_bound (board (Node.state (h !!! node)))). lia.
Qed.

(** On a terminal state the rollout is the evaluation of the state. *)
Lemma simulate_terminal (fuel : nat) (g : rng) (h : heap) (node : nat) :
  is_terminal (Node.state (h !!! node)) = Ok true -> (0 < fuel)%nat ->
  wf_grid (board (Node.state (h !!! node))) ->
  exists v, evaluate (Node.state (h !!! node)) = Ok v /\
            Node.simulate fuel g h node = Ok (v, g).
Proof.
  intros Ht Hfuel Hwf. destruct fuel as [|fuel]; [lia|].
  destruct (evaluate_total _ Hwf) as [v Hv]. exists v. split; [exact Hv|].
  unfold Node.simulate. cbn [Node.simulate_loop].
  assert (Hc : copy (Node.state (h !!! node)) = Node.state (h !!! node)).
  { destruct (Node.state (h !!! node)) as [b pl]. unfold copy. simpl.
    f_equal. pose proof (copy_board {| board := b; player := pl |}) as E. exact E. }
  rewrite Hc, Ht. cbn [bind]. rewrite Hv. reflexivity.
Qed.

(** ** The way down: selection *)

Lemma lineage_fuel (h : heap) (f1 f2 x : nat) :
  parents_before h -> (x < length h)%nat -> (x < f1)%nat -> (x < f2)%nat ->
  lineage f1 h x = lineage f2 h x.
Proof.
  intros Hpb. revert f2 x. induction f1 as [|f1 IH]; intros f2 x Hx H1 H2; [lia|].
  destruct f2 as [|f2]; [lia|]. simpl.
  destruct (Node.parent (h !!! x)) as [p|] eqn:Hp; [|reflexivity].
  pose proof (Hpb x p Hx Hp). f_equal. apply IH; lia.
Qed.

Lemma lineage_child (h : heap) (c p : nat) :
  parents_before h -> (c < length h)%nat -> Node.parent (h !!! c) = Some p ->
  lineage (S c) h c = c :: lineage (S p) h p.
Proof.
  intros Hpb Hc Hp. pose proof (Hpb c p Hc Hp).
  rewrite (lineage_fuel h (S p) c p) by (auto; lia).
  simpl. rewrite Hp. reflexivity.
Qed.

Lemma lineage_next (h : heap) (fuel x a j p : nat) :
  parents_before h -> (x < length h)%nat -> (x < fuel)%nat ->
  lineage fuel h x !! a = Some j -> Node.parent (h !!! j) = Some p ->
  lineage fuel h x !! S a = Some p.
Proof.
  intros Hpb. revert x a. induction fuel as [|fuel IH]; intros x a Hx Hf Ha Hp; [lia|].
  destruct a as [|a].
  - rewrite lineage_lookup_0 in Ha. injection Ha as <-.
    rewrite (lineage_lookup_S h fuel x p 0 Hp).
    pose proof (Hpb x p Hx Hp). destruct fuel as [|fuel]; [lia|]. apply lineage_lookup_0.
  - destruct (Node.parent (h !!! x)) as [q|] eqn:Hq.
    + rewrite (lineage_lookup_S h fuel x q a Hq) in Ha.
      rewrite (lineage_lookup_S h fuel x q (S a) Hq).
      pose proof (Hpb x q Hx Hq). apply IH; auto; lia.
    + simpl in Ha. rewrite Hq in Ha. destruct a; discriminate.
Qed.

Lemma lineage_closed (h : heap) (fuel x j p : nat) :
  parents_before h -> (x < length h)%nat -> (x < fuel)%nat ->
  In j (lineage fuel h x) -> Node.parent (h !!! j) = Some p ->
  In p (lineage fuel h x).
Proof.
  intros Hpb Hx Hf Hj Hp.
  apply list_elem_of_In, list_elem_of_lookup in Hj as [a Ha].
  apply list_elem_of_In. eapply list_elem_of_lookup_2.
  eapply lineage_next; eassumption.
Qed.

(** The lineage goes strictly down in the heap. *)
Lemma lineage_decreasing (h : heap) (fuel x a b i j : nat) :
  parents_before h -> (x < length h)%nat ->
  lineage fuel h x !! a = Some i -> lineage fuel h x !! b = Some j ->
  (a < b)%nat -> (j < i)%nat.
Proof.
  intros Hpb. revert x a b. induction fuel as [|fuel IH]; intros x a b Hx Ha Hb Hab.
  - discriminate.
  - destruct b as [|b]; [lia|].
    destruct (Node.parent (h !!! x)) as [p|] eqn:Hp.
    2:{ simpl in Hb. rewrite Hp in Hb. destruct b; discriminate. }
    pose proof (Hpb x p Hx Hp) as Hlt.
    rewrite (lineage_lookup_S h fuel x p b Hp) in Hb.
    destruct a as [|a].
    + rewrite lineage_lookup_0 in Ha. injection Ha as <-.
      assert (j <= p)%nat; [|lia].
      eapply (lineage_below h fuel p j Hpb); [lia|].
      apply list_elem_of_In. eapply list_elem_of_lookup_2. exact Hb.
    + rewrite (lineage_lookup_S h fuel x p a Hp) in Ha.
      eapply (IH p a b); eauto; lia.
Qed.

(** Of the children of a node, at most one is in a lineage. *)
Lemma lineage_one_child (h : heap) (fuel x r c1 c2 : nat) :
  parents_before h -> (x < length h)%nat -> (x < fuel)%nat ->
  In c1 (lineage fuel h x) -> In c2 (lineage fuel h x) ->
  Node.parent (h !!! c1) = Some r -> Node.parent (h !!! c2) = Some r ->
  c1 = c2.
Proof.
  intros Hpb Hx Hf H1 H2 Hp1 Hp2.
  apply list_elem_of_In, list_elem_of_lookup in H1 as [a Ha].
  apply list_elem_of_In, list_elem_of_lookup in H2 as [b Hb].
  pose proof (lineage_next h fuel x a c1 r Hpb Hx Hf Ha Hp1) as Hna.
  pose proof (lineage_next h fuel x b c2 r Hpb Hx Hf Hb Hp2) as Hnb.
  destruct (Nat.lt_trichotomy a b) as [Hlt|[->|Hgt]].
  - pose proof (lineage_decreasing h fuel x (S a) (S b) r r Hpb Hx Hna Hnb). lia.
  - congruence.
  - pose proof (lineage_decreasing h fuel x (S b) (S a) r r Hpb Hx Hnb Hna). lia.
Qed.

Lemma select_child_in (h : heap) (node : nat) :
  wf_heap h -> (node < length h)%nat -> Node.children (h !!! node) <> [] ->
  exists c, Node.select_child h node = Ok c /\ In c (Node.children (h !!! node)).
Proof.
  intros [Hpb Hwf] Hn Hne.
  destruct (Hwf node Hn) as (_ & _ & _ & _ & Hch).
  destruct (select_child_first_max h node Hne) as (i & c & Hsel & Hi & _).
  - intros c Hc. destruct (Hch c Hc) as [Hc1 _].
    destruct (Hwf c) as (_ & _ & Hv & _); [lia|exact Hv].
  - exists c. split; [exact Hsel|].
    apply list_elem_of_In. eapply list_elem_of_lookup_2. exact Hi.
Qed.

(** Selection ends on a descendant of the node it starts from, which has no
    children or a terminal state. *)
Lemma select_loop_spec (fuel : nat) (h : heap) (node : nat) :
  wf_heap h -> (node < length h)%nat -> (length h - node < fuel)%nat ->
  exists x,
    select_loop fuel h node = Ok x /\
    (node <= x < length h)%nat /\
    In node (lineage (S x) h x) /\
    (Node.children (h !!! x) = [] \/ is_terminal (Node.state (h !!! x)) = Ok true) /\
    (Node.children (h !!! node) = [] \/ is_terminal (Node.state (h !!! node)) = Ok true ->
     x = node) /\
    (Node.children (h !!! node) <> [] ->
     is_terminal (Node.state (h !!! node)) = Ok false ->
     exists c, In c (Node.children (h !!! node)) /\ In c (lineage (S x) h x)).
Proof.
  intros Hwfh. revert node. induction fuel as [|fuel IH]; intros node Hn Hf; [lia|].
  cbn [select_loop]. pose proof Hwfh as [Hpb Hwf].
  destruct (Hwf node Hn) as (Hgrid & _ & _ & _ & Hch).
  destruct (Node.children (h !!! node)) as [|c0 cs] eqn:Hcs.
  - exists node. split; [reflexivity|]. split; [lia|].
    split; [left; reflexivity|]. split; [left; exact Hcs|].
    split; [reflexivity|]. intros Hc. contradiction.
  - destruct (is_terminal_total _ Hgrid) as [t Ht]. rewrite Ht. cbn [bind].
    destruct t.
    + exists node. split; [reflexivity|]. split; [lia|].
      split; [left; reflexivity|]. split; [right; exact Ht|].
      split; [reflexivity|]. intros _ Hc. discriminate.
    + destruct (select_child_in h node Hwfh Hn) as (c & Hsel & Hc).
      { rewrite Hcs. discriminate. }
      rewrite Hsel. cbn [bind]. rewrite Hcs in Hc.
      destruct (Hch c Hc) as [Hrange Hparent].
      destruct (IH c) as (x & Hloop & Hx & Hlin & Hstop & _ & _); [lia|lia|].
      exists x. split; [exact Hloop|]. split; [lia|].
      split; [eapply lineage_closed; eauto; lia|].
      split; [exact Hstop|]. split.
      * intros [Hc0|Hc0]; discriminate.
      * intros _ _. exists c. split; [exact Hc|exact Hlin].
Qed.

(** ** The tree stays well formed *)

Lemma lineage_same_parents (h h' : heap) (fuel x : nat) :
  parents_before h -> (x < length h)%nat ->
  (forall j, (j <= x)%nat -> Node.parent (h' !!! j) = Node.parent (h !!! j)) ->
  lineage fuel h' x = lineage fuel h x.
Proof.
  intros Hpb. revert x. induction fuel as [|fuel IH]; intros x Hx Hsame; [reflexivity|].
  simpl. rewrite (Hsame x) by lia.
  destruct (Node.parent (h !!! x)) as [p|] eqn:Hp; [|reflexivity].
  pose proof (Hpb x p Hx Hp). f_equal. apply IH; [lia|].
  intros j Hj. apply Hsame. lia.
Qed.

(** [expand] on a node without children keeps the tree well formed. *)
Lemma expand_wf (h : heap) (x : nat) :
  wf_heap h -> (x < length h)%nat -> Node.children (h !!! x) = [] ->
  exists h' moves,
    get_possible_moves (Node.state (h !!! x)) = Ok moves /\
    Node.expand h x = Ok (h', Node.children (h' !!! x)) /\
    wf_heap h' /\ extends h h' /\
    length h' = (length h + length moves)%nat /\ (length moves <= 7)%nat /\
    Node.children (h' !!! x) = seq (length h) (length moves) /\
    (forall j, (j < length h)%nat -> Node.visits (h' !!! j) = Node.visits (h !!! j)) /\
    (forall j, (j < length h)%nat -> j <> x ->
               Node.children (h' !!! j) = Node.children (h !!! j)) /\
    (forall c, In c (Node.children (h' !!! x)) ->
               Node.visits (h' !!! c) = 0 /\ child_by_move h' x c).
Proof.
  intros [Hpb Hwf] Hx Hnone.
  destruct (Hwf x Hx) as (Hgrid & Hplayer & Hvis & _ & _).
  pose proof (get_possible_moves_filter _ Hgrid) as Hmoves.
  set (moves := List.filter _ _) in Hmoves.
  destruct (possible_moves_range _ moves Hgrid Hmoves) as [Hrange Hnd].
  assert (Hle7 : (length moves <= 7)%nat).
  { unfold moves. etransitivity; [apply List.filter_length_le|].
    unfold range. rewrite length_map, length_seq. lia. }
  destruct (expand_loop_spec moves h x Hx Hgrid Hrange)
    as (h' & Hloop & Hlen & Hch & Hst & Hpl & Hvi & Hsc & Hpa & Hframe & Hnew).
  rewrite Hnone in Hch. simpl in Hch.
  assert (Hnewnode : forall c, (length h <= c < length h')%nat ->
            exists move st, In move moves /\
              make_move (Node.state (h !!! x)) move (Node.player (h !!! x)) = Ok st /\
              wf_grid (board st) /\
              h' !!! c = {| Node.state := st;
                            Node.player := other_player (Node.player (h !!! x));
                            Node.children := []; Node.visits := 0; Node.score := 0;
                            Node.parent := Some x |}).
  { intros c Hc. destruct (lookup_lt_is_Some_2 moves (c - length h)) as [move Hmove]; [lia|].
    destruct (Hnew _ move Hmove) as (st & Hmv & Hwfst & Hlook).
    replace (length h + (c - length h))%nat with c in Hlook by lia.
    exists move, st. split; [|auto].
    apply list_elem_of_In. eapply list_elem_of_lookup_2. exact Hmove. }
  exists h', moves. split; [exact Hmoves|].
  split; [unfold Node.expand; rewrite Hmoves; cbn [bind]; rewrite Hloop; reflexivity|].
  assert (Hold : forall j, (j < length h)%nat ->
            Node.state (h' !!! j) = Node.state (h !!! j) /\
            Node.player (h' !!! j) = Node.player (h !!! j) /\
            Node.visits (h' !!! j) = Node.visits (h !!! j) /\
            Node.parent (h' !!! j) = Node.parent (h !!! j) /\
            (j <> x -> Node.children (h' !!! j) = Node.children (h !!! j))).
  { intros j Hj. destruct (decide (j = x)) as [->|Hne].
    - repeat split; auto. intros Hc. contradiction.
    - rewrite Hframe by assumption. repeat split; reflexivity. }
  split; [|split; [|split; [exact Hlen|split; [exact Hle7|split; [exact Hch|split; [|split]]]]]].
  - (* wf_heap h' *)
    split.
    + intros i p Hi Hp. destruct (decide (i < length h)%nat) as [Hlt|Hge].
      * destruct (Hold i Hlt) as (_ & _ & _ & E & _). rewrite E in Hp.
        apply (Hpb i p Hlt Hp).
      * destruct (Hnewnode i) as (mv & st & _ & _ & _ & E); [lia|].
        rewrite E in Hp. simpl in Hp. injection Hp as <-. lia.
    + intros i Hi. destruct (decide (i < length h)%nat) as [Hlt|Hge].
      * destruct (Hold i Hlt) as (Es & Ep & Ev & Epa & Ec).
        destruct (Hwf i Hlt) as (Hg & Hp & Hv & Hn & Hc).
        unfold wf_node. rewrite Es, Ep, Ev.
        split; [exact Hg|]. split; [exact Hp|]. split; [exact Hv|].
        destruct (decide (i = x)) as [->|Hne].
        -- rewrite Hch. split; [apply NoDup_seq|].
           intros c Hcin. apply in_seq in Hcin.
           destruct (Hnewnode c) as (mv & st & _ & _ & _ & E); [lia|].
           rewrite E. simpl. split; [lia|reflexivity].
        -- rewrite (Ec Hne). split; [exact Hn|].
           intros c Hcin. destruct (Hc c Hcin) as [Hr Hpc]. split; [lia|].
           destruct (Hold c) as (_ & _ & _ & E & _); [lia|]. rewrite E. exact Hpc.
      * destruct (Hnewnode i) as (mv & st & _ & _ & Hwfst & E); [lia|].
        unfold wf_node. rewrite E. simpl.
        split; [exact Hwfst|]. split; [apply other_player_not_space|].
        split; [lia|]. split; [constructor|]. intros c [].
  - (* extends *)
    split; [lia|]. intros j Hj. destruct (Hold j Hj) as (Es & Ep & _ & Epa & Ec).
    split; [exact Es|]. split; [exact Ep|]. split; [exact Epa|].
    destruct (decide (j = x)) as [->|Hne]; [right; exact Hnone|left; apply Ec; exact Hne].
  - intros j Hj. apply (Hold j Hj).
  - intros j Hj Hne. apply (Hold j Hj). exact Hne.
  - intros c Hc. rewrite Hch in Hc. apply in_seq in Hc.
    destruct (Hnewnode c) as (mv & st & Hmv & Hmove & _ & E); [lia|].
    rewrite E. simpl. split; [reflexivity|].
    exists mv. split.
    + rewrite List.Forall_forall in Hrange. apply Hrange. exact Hmv.
    + rewrite Hst, Hpl, E. simpl. exact Hmove.
Qed.

(** [backpropagate] keeps the tree well formed. *)
Lemma backpropagate_wf (fuel : nat) (h : heap) (node : nat) (s : Z) :
  wf_heap h -> (node < length h)%nat -> (node < fuel)%nat ->
  exists h',
    Node.backpropagate fuel h node s = Ok h' /\ same_tree h h' /\ wf_heap h' /\
    (forall j, In j (lineage (S node) h node) ->
               Node.visits (h' !!! j) = Node.visits (h !!! j) + 1) /\
    (forall j, ~ In j (lineage (S node) h node) -> h' !!! j = h !!! j).
Proof.
  intros [Hpb Hwf] Hn Hf.
  destruct (backpropagate_spec fuel h node s Hpb Hn Hf) as (h' & Hb & Hst & Hin & Hout).
  assert (Hlin : lineage fuel h node = lineage (S node) h node)
    by (apply lineage_fuel; auto; lia).
  rewrite Hlin in Hin, Hout.
  assert (Hvis : forall j, In j (lineage (S node) h node) ->
            Node.visits (h' !!! j) = Node.visits (h !!! j) + 1).
  { intros j Hj. apply list_elem_of_In, list_elem_of_lookup in Hj as [k Hk].
    apply (Hin k j Hk). }
  exists h'. split; [exact Hb|]. split; [exact Hst|]. split; [|split; assumption].
  destruct Hst as [Hlen Hsame].
  split; [eapply parents_before_same_tree; [split; eassumption|exact Hpb]|].
  intros i Hi. rewrite Hlen in Hi.
  destruct (Hwf i Hi) as (Hg & Hp & Hv & Hnd & Hc).
  destruct (Hsame i) as (Es & Ep & Ec & Epa).
  unfold wf_node. rewrite Es, Ep, Ec.
  split; [exact Hg|]. split; [exact Hp|]. split.
  - destruct (in_dec Nat.eq_dec i (lineage (S node) h node)) as [Hi'|Hi'].
    + rewrite (Hvis i Hi'). lia.
    + rewrite (Hout i Hi'). exact Hv.
  - split; [exact Hnd|]. intros c Hcin. destruct (Hc c Hcin) as [Hr Hpc].
    split; [lia|]. destruct (Hsame c) as (_ & _ & _ & ->). exact Hpc.
Qed.

(** ** The visits of the children *)

Lemma fold_visits_frame (h h' : heap) (l : list nat) (acc : Z) :
  (forall c, In c l -> Node.visits (h' !!! c) = Node.visits (h !!! c)) ->
  fold_left (fun a child => a + Node.visits (h' !!! child)) l acc =
  fold_left (fun a child => a + Node.visits (h !!! child)) l acc.
Proof.
  revert acc. induction l as [|x l IH]; intros acc H; simpl; [reflexivity|].
  rewrite (H x) by (left; reflexivity). apply IH. intros c Hc. apply H. right. exact Hc.
Qed.

Lemma fold_visits_bump (h h' : heap) (l : list nat) (acc : Z) (c1 : nat) :
  NoDup l -> In c1 l ->
  Node.visits (h' !!! c1) = Node.visits (h !!! c1) + 1 ->
  (forall c, In c l -> c <> c1 -> Node.visits (h' !!! c) = Node.visits (h !!! c)) ->
  fold_left (fun a child => a + Node.visits (h' !!! child)) l acc =
  fold_left (fun a child => a + Node.visits (h !!! child)) l acc + 1.
Proof.
  intros Hnd. revert acc. induction Hnd as [|x l Hx Hnd IH]; intros acc Hin H1 Hrest;
    simpl in *; [contradiction|].
  destruct Hin as [->|Hin].
  - rewrite H1. rewrite (fold_visits_frame h h' l).
    + rewrite (fold_visits_shift h l (acc + (_ + 1))), (fold_visits_shift h l (acc + _)). lia.
    + intros c Hc. apply Hrest; [right; exact Hc|].
      intros ->. apply Hx. apply list_elem_of_In. exact Hc.
  - rewrite (Hrest x) by (auto; intros ->; apply Hx, list_elem_of_In; exact Hin).
    apply IH; auto.
Qed.

Lemma total_visits_frame (h h' : heap) (root : nat) :
  Node.children (h' !!! root) = Node.children (h !!! root) ->
  (forall c, In c (Node.children (h !!! root)) ->
             Node.visits (h' !!! c) = Node.visits (h !!! c)) ->
  Node.total_visits h' root = Node.total_visits h root.
Proof.
  intros Hc Hv. unfold Node.total_visits. rewrite Hc. apply fold_visits_frame. exact Hv.
Qed.

Lemma total_visits_unvisited (h : heap) (root : nat) :
  (forall c, In c (Node.children (h !!! root)) -> Node.visits (h !!! c) = 0) ->
  Node.total_visits h root = 0.
Proof.
  intros Hv. unfold Node.total_visits.
  induction (Node.children (h !!! root)) as [|x l IH]; simpl; [reflexivity|].
  rewrite (Hv x) by (left; reflexivity). apply IH. intros c Hc. apply Hv. right. exact Hc.
Qed.

(** A round that goes back up through a child of the root adds one visit to
    the children of the root. *)
Lemma backpropagate_total (fuel : nat) (h : heap) (y root c1 : nat) (s : Z) :
  wf_heap h -> (y < length h)%nat -> (y < fuel)%nat -> (root < length h)%nat ->
  In c1 (Node.children (h !!! root)) -> In c1 (lineage (S y) h y) ->
  exists h',
    Node.backpropagate fuel h y s = Ok h' /\ same_tree h h' /\ wf_heap h' /\
    Node.total_visits h' root = Node.total_visits h root + 1.
Proof.
  intros Hwfh Hy Hf Hroot Hc1 Hlin. pose proof Hwfh as [Hpb Hwf].
  destruct (backpropagate_wf fuel h y s Hwfh Hy Hf) as (h' & Hb & Hst & Hwf' & Hin & Hout).
  exists h'. split; [exact Hb|]. split; [exact Hst|]. split; [exact Hwf'|].
  destruct (Hwf root Hroot) as (_ & _ & _ & Hnd & Hch).
  destruct Hst as [_ Hsame]. destruct (Hsame root) as (_ & _ & Ec & _).
  unfold Node.total_visits. rewrite Ec.
  apply (fold_visits_bump h h' _ 0 c1 Hnd Hc1).
  - apply Hin. exact Hlin.
  - intros c Hc Hne. rewrite Hout; [reflexivity|]. intros Hcl. apply Hne.
    apply (lineage_one_child h (S y) y root c c1 Hpb Hy); auto.
    + apply (Hch c Hc).
    + apply (Hch c1 Hc1).
Qed.

(** A round that goes back up from the root leaves the visits of its
    children as they are. *)
Lemma backpropagate_from_root (fuel : nat) (h : heap) (root : nat) (s : Z) :
  wf_heap h -> (root < length h)%nat -> (root < fuel)%nat ->
  exists h',
    Node.backpropagate fuel h root s = Ok h' /\ same_tree h h' /\ wf_heap h' /\
    Node.total_visits h' root = Node.total_visits h root.
Proof.
  intros Hwfh Hroot Hf. pose proof Hwfh as [Hpb Hwf].
  destruct (backpropagate_wf fuel h root s Hwfh Hroot Hf) as (h' & Hb & Hst & Hwf' & Hin & Hout).
  exists h'. split; [exact Hb|]. split; [exact Hst|]. split; [exact Hwf'|].
  destruct (Hwf root Hroot) as (_ & _ & _ & _ & Hch).
  destruct Hst as [_ Hsame]. destruct (Hsame root) as (_ & _ & Ec & _).
  apply total_visits_frame; [exact Ec|].
  intros c Hc. rewrite Hout; [reflexivity|]. intros Hcl.
  apply lineage_below in Hcl; auto. destruct (Hch c Hc) as [Hr _]. lia.
Qed.

Lemma child_by_move_same (h h' : heap) (node c : nat) :
  Node.state (h' !!! node) = Node.state (h !!! node) ->
  Node.player (h' !!! node) = Node.player (h !!! node) ->
  Node.state (h' !!! c) = Node.state (h !!! c) ->
  child_by_move h node c -> child_by_move h' node c.
Proof.
  intros Es Ep Ec (col & Hcol & Hmv). exists col. split; [exact Hcol|].
  rewrite Es, Ep, Ec. exact Hmv.
Qed.

Lemma extends_refl (h : heap) : extends h h.
Proof. split; [lia|]. intros j Hj. auto. Qed.

Lemma extends_trans (h1 h2 h3 : heap) :
  extends h1 h2 -> extends h2 h3 -> extends h1 h3.
Proof.
  intros [L1 F1] [L2 F2]. split; [lia|]. intros j Hj.
  destruct (F1 j Hj) as (Es1 & Ep1 & Epa1 & Ec1).
  destruct (F2 j) as (Es2 & Ep2 & Epa2 & Ec2); [lia|].
  split; [congruence|]. split; [congruence|]. split; [congruence|].
  destruct Ec1 as [Ec1|Ec1]; [|right; exact Ec1].
  destruct Ec2 as [Ec2|Ec2]; [left; congruence|right; congruence].
Qed.

Lemma same_tree_extends (h h' : heap) : same_tree h h' -> extends h h'.
Proof.
  intros [L F]. split; [lia|]. intros j Hj. destruct (F j) as (? & ? & ? & ?). auto.
Qed.

(** ** One round of the search *)

Lemma iteration_spec (fuel : nat) (h : heap) (g : rng) (root : nat) :
  wf_heap h -> (root < length h)%nat -> (length h + 43 <= fuel)%nat ->
  exists h' g',
    iteration fuel h g root = Ok (h', g') /\
    wf_heap h' /\ extends h h' /\ (length h' <= length h + 7)%nat /\
    (is_terminal (Node.state (h !!! root)) = Ok false ->
       Node.children (h' !!! root) <> [] /\
       Node.total_visits h' root = Node.total_visits h root + 1) /\
    (is_terminal (Node.state (h !!! root)) = Ok true ->
       same_tree h h' /\ Node.total_visits h' root = Node.total_visits h root) /\
    (Node.children (h !!! root) = [] ->
       forall c, In c (Node.children (h' !!! root)) -> child_by_move h' root c).
Proof.
  intros Hwfh Hroot Hfuel. pose proof Hwfh as [Hpb Hwf].
  destruct (select_loop_spec fuel h root Hwfh Hroot)
    as (x & Hsel & Hx & Hlin & Hstop & Hstay & Hdown); [lia|].
  unfold iteration. rewrite Hsel. cbn [bind].
  destruct (Hwf x) as (Hgx & Hpx & _); [lia|].
  destruct (is_terminal_total _ Hgx) as [t Ht]. rewrite Ht. cbn [bind].
  destruct (is_terminal_total _ (proj1 (Hwf root Hroot))) as [tr Htr].
  destruct t; cbn [negb bind fst snd].
  - (* the selected node is terminal *)
    destruct (simulate_ends fuel g h x Hgx Hpx) as (v & g' & Hsim); [lia|].
    rewrite Hsim. cbn [bind fst snd].
    destruct tr.
    + assert (x = root) by (apply Hstay; right; exact Htr). subst x.
      destruct (backpropagate_from_root fuel h root v Hwfh Hroot)
        as (h' & Hb & Hst & Hwf' & Htot); [lia|].
      rewrite Hb. cbn [bind]. exists h', g'. split; [reflexivity|]. split; [exact Hwf'|].
      split; [apply same_tree_extends; exact Hst|].
      pose proof Hst as [Hlen Hsame]. split; [lia|].
      destruct (Hsame root) as (Es & Ep & Ec & _).
      split; [intros; congruence|]. split; [intros _; split; [exact Hst|exact Htot]|].
      intros Hnone c Hc. rewrite Ec, Hnone in Hc. contradiction.
    + assert (Hne : Node.children (h !!! root) <> []).
      { intros Hnone. assert (x = root) by (apply Hstay; left; exact Hnone).
        subst x. congruence. }
      destruct (Hdown Hne Htr) as (c & Hc & Hcl).
      destruct (backpropagate_total fuel h x root c v Hwfh)
        as (h' & Hb & Hst & Hwf' & Htot); auto; try lia.
      rewrite Hb. cbn [bind]. exists h', g'. split; [reflexivity|]. split; [exact Hwf'|].
      split; [apply same_tree_extends; exact Hst|].
      destruct Hst as [Hlen Hsame]. split; [lia|].
      destruct (Hsame root) as (Es & Ep & Ec & _).
      split; [intros _; split; [rewrite Ec; exact Hne|exact Htot]|].
      split; [intros; congruence|].
      intros Hnone. contradiction.
  - (* the selected node is expanded *)
    assert (Hnone : Node.children (h !!! x) = [])
      by (destruct Hstop as [H|H]; [exact H|congruence]).
    destruct (expand_wf h x Hwfh) as
      (h1 & moves & Hmoves & Hexp & Hwf1 & Hext & Hlen & Hle7 & Hch & Hvis & Hchold & Hnew);
      [lia|exact Hnone|].
    rewrite Hexp. cbn [bind fst snd]. rewrite Hch.
    assert (Hmne : moves <> []) by (eapply not_terminal_moves; eassumption).
    assert (Hfirst : getitem (seq (length h) (length moves)) 0 = Ok (length h)).
    { destruct moves; [contradiction|]. reflexivity. }
    rewrite Hfirst. cbn [bind fst snd].
    assert (Hyin : In (length h) (Node.children (h1 !!! x))).
    { rewrite Hch. apply in_seq. destruct moves; [contradiction|]. simpl. lia. }
    pose proof Hwf1 as [Hpb1 Hwfn1].
    assert (Hy : (length h < length h1)%nat).
    { destruct moves; [contradiction|]. simpl in Hlen. lia. }
    destruct (Hwfn1 x) as (_ & _ & _ & _ & Hchx); [lia|].
    destruct (Hchx _ Hyin) as [_ Hpy].
    destruct (Hwfn1 (length h) Hy) as (Hgy & Hply & _).
    destruct (simulate_ends fuel g h1 (length h) Hgy Hply) as (v & g' & Hsim); [lia|].
    rewrite Hsim. cbn [bind fst snd].
    assert (Hliny : lineage (S (length h)) h1 (length h) = length h :: lineage (S x) h x).
    { rewrite (lineage_child h1 (length h) x Hpb1 Hy Hpy). f_equal.
      apply lineage_same_parents; [exact Hpb|lia|].
      intros j Hj. destruct Hext as [_ Hext]. apply (Hext j). lia. }
    assert (Hrootx : x <> root -> Node.children (h !!! root) <> [] /\ tr = false).
    { intros Hne. split.
      - intros Hn. apply Hne, Hstay. left. exact Hn.
      - destruct tr; [|reflexivity]. exfalso. apply Hne, Hstay. right. exact Htr. }
    assert (Hc1 : exists c1, In c1 (Node.children (h1 !!! root)) /\
                             In c1 (lineage (S (length h)) h1 (length h))).
    { destruct (decide (x = root)) as [->|Hne].
      - exists (length h). split; [exact Hyin|]. rewrite Hliny. left. reflexivity.
      - destruct (Hrootx Hne) as [Hcne ->].
        destruct (Hdown Hcne Htr) as (c & Hc & Hcl).
        exists c. split; [rewrite Hchold by auto; exact Hc|].
        rewrite Hliny. right. exact Hcl. }
    assert (Htot1 : Node.total_visits h1 root = Node.total_visits h root).
    { destruct (decide (x = root)) as [->|Hne].
      - rewrite (total_visits_unvisited h1 root) by (intros c Hc; apply (Hnew c Hc)).
        unfold Node.total_visits. rewrite Hnone. reflexivity.
      - apply total_visits_frame; [apply Hchold; auto|].
        intros c Hc. apply Hvis. destruct (Hwf root Hroot) as (_ & _ & _ & _ & Hchr).
        destruct (Hchr c Hc). lia. }
    destruct Hc1 as (c1 & Hc1 & Hc1l).
    destruct (backpropagate_total fuel h1 (length h) root c1 v Hwf1)
      as (h' & Hb & Hst & Hwf' & Htot); auto; try lia.
    rewrite Hb. cbn [bind]. exists h', g'. split; [reflexivity|]. split; [exact Hwf'|].
    split; [eapply extends_trans; [exact Hext|apply same_tree_extends; exact Hst]|].
    destruct Hst as [Hlen' Hsame]. split; [lia|].
    destruct (Hsame root) as (Es & Ep & Ec & _).
    split; [|split].
    + intros _. split; [|lia]. rewrite Ec. intros Hn. rewrite Hn in Hc1. contradiction.
    + intros Htrue. exfalso.
      destruct (decide (x = root)) as [->|Hne]; [congruence|].
      destruct (Hrootx Hne) as [_ ->]. congruence.
    + intros Hrnone c Hc. rewrite Ec in Hc.
      destruct (decide (x = root)) as [->|Hne].
      * destruct (Hnew c Hc) as [_ Hcm].
        destruct (Hsame c) as (Esc & _).
        apply (child_by_move_same h1 h' root c); auto.
      * exfalso. apply (proj1 (Hrootx Hne)). exact Hrnone.
Qed.

(** ** The rounds of [mcts] *)

Lemma iterations_loop_spec (n fuel : nat) (h : heap) (g : rng) (root : nat) :
  wf_heap h -> (root < length h)%nat -> (length h + 7 * n + 43 <= fuel)%nat ->
  exists h' g',
    iterations_loop n fuel h g root = Ok (h', g') /\
    wf_heap h' /\ extends h h' /\ (length h' <= length h + 7 * n)%nat /\
    (is_terminal (Node.state (h !!! root)) = Ok false ->
       (n <> 0%nat -> Node.children (h' !!! root) <> []) /\
       Node.total_visits h' root = Node.total_visits h root + Z.of_nat n) /\
    (is_terminal (Node.state (h !!! root)) = Ok true ->
       same_tree h h' /\ Node.total_visits h' root = Node.total_visits h root) /\
    (Node.children (h !!! root) = [] ->
       forall c, In c (Node.children (h' !!! root)) -> child_by_move h' root c).
Proof.
  revert h g. induction n as [|n IH]; intros h g Hwfh Hroot Hfuel.
  - exists h, g. split; [reflexivity|]. split; [exact Hwfh|].
    split; [apply extends_refl|]. split; [lia|].
    split; [intros _; split; [intros Hc; contradiction|lia]|].
    split; [intros _; split; [apply same_tree_refl|reflexivity]|].
    intros Hnone c Hc. rewrite Hnone in Hc. contradiction.
  - cbn [iterations_loop].
    destruct (iteration_spec fuel h g root Hwfh Hroot)
      as (h1 & g1 & Hit & Hwf1 & Hext1 & Hlen1 & Hnt1 & Ht1 & Hcm1); [lia|].
    rewrite Hit. cbn [bind fst snd].
    pose proof Hext1 as [Hle1 Hold1].
    destruct (Hold1 root Hroot) as (Es1 & Ep1 & Epa1 & Ec1).
    destruct (IH h1 g1 Hwf1) as (h' & g' & Hloop & Hwf' & Hext & Hlen & Hnt & Ht & Hcm);
      [lia|lia|].
    exists h', g'. split; [exact Hloop|]. split; [exact Hwf'|].
    split; [eapply extends_trans; eassumption|]. split; [lia|].
    rewrite Es1 in Hnt, Ht.
    pose proof Hext as [Hle Hold].
    destruct (Hold root) as (Es & Ep & Epa & Ec); [lia|].
    split; [|split].
    + intros Hfalse. destruct (Hnt1 Hfalse) as [Hne1 Htot1].
      destruct (Hnt Hfalse) as [_ Htot]. split; [|lia].
      intros _. destruct Ec as [Ec|Ec]; [rewrite Ec; exact Hne1|contradiction].
    + intros Htrue. destruct (Ht1 Htrue) as [Hst1 Htot1].
      destruct (Ht Htrue) as [Hst Htot].
      split; [eapply same_tree_trans; eassumption|lia].
    + intros Hnone c Hc.
      destruct (decide (Node.children (h1 !!! root) = [])) as [E|NE].
      * apply Hcm; assumption.
      * destruct Ec as [Ec|Ec]; [|contradiction].
        rewrite Ec in Hc. pose proof (Hcm1 Hnone c Hc) as Hc1.
        destruct Hwf1 as [_ Hwfn1].
        destruct (Hwfn1 root) as (_ & _ & _ & _ & Hch); [lia|].
        destruct (Hch c Hc) as [Hcr _].
        destruct (Hold c) as (Esc & _); [lia|].
        apply (child_by_move_same h1 h' root c); auto.
Qed.

Lemma gtb_irrefl (a : Z) : Z.gtb a a = false.
Proof. rewrite Z.gtb_ltb. apply Z.ltb_irrefl. Qed.

Lemma gtb_chain (a b c : Z) :
  Z.gtb c b = true -> Z.gtb a b = false -> Z.gtb c a = true /\ Z.gtb a c = false.
Proof. rewrite !Z.gtb_ltb, !Z.ltb_lt, !Z.ltb_ge. lia. Qed.

(** The child [mcts] returns after its rounds: the first of the most visited
    children of the root. *)
Lemma most_visited_child (h : heap) (root : nat) :
  Node.children (h !!! root) <> [] ->
  exists i best,
    max_key Z.gtb (fun node => Ok (Node.visits (h !!! node))) (Node.children (h !!! root))
      = Ok best /\
    Node.children (h !!! root) !! i = Some best /\
    (forall c, In c (Node.children (h !!! root)) ->
               Node.visits (h !!! c) <= Node.visits (h !!! best)) /\
    (forall j c, (j < i)%nat -> Node.children (h !!! root) !! j = Some c ->
                 Node.visits (h !!! c) < Node.visits (h !!! best)).
Proof.
  intros Hne.
  destruct (max_key_first Z.gtb (fun node => Ok (Node.visits (h !!! node)))
              (fun node => Node.visits (h !!! node)) gtb_irrefl gtb_chain
              (Node.children (h !!! root)) Hne)
    as (i & best & Hmax & Hi & Hall & Hfirst); [reflexivity|].
  exists i, best. split; [exact Hmax|]. split; [exact Hi|]. split.
  - intros c Hc. apply list_elem_of_In, list_elem_of_lookup in Hc as [j Hj].
    specialize (Hall j c Hj). rewrite Z.gtb_ltb in Hall. apply Z.ltb_ge in Hall. exact Hall.
  - intros j c Hj Hc. specialize (Hfirst j c Hj Hc).
    rewrite Z.gtb_ltb in Hfirst. apply Z.ltb_lt in Hfirst. exact Hfirst.
Qed.


(** ** Claims about [mcts] *)

Lemma wf_single (st : Connect4) (p : ascii) :
  wf_grid (board st) -> p <> SPACE -> wf_heap (fst (Node.new [] st p None)).
Proof.
  intros Hg Hp. split.
  - intros i q Hi Hq. simpl in Hi. assert (i = 0%nat) by lia. subst i. discriminate.
  - intros i Hi. simpl in Hi. assert (i = 0%nat) by lia. subst i.
    split; [exact Hg|]. split; [exact Hp|].
    split; [reflexivity|]. split; [constructor|]. intros c [].
Qed.


Lemma wf_terminal_root_expanded : wf_heap terminal_root_expanded.
Proof.
  assert (Hwf : wf_heap terminal_root)
    by (apply wf_single; [apply wf_gridb_spec; reflexivity|discriminate]).
  destruct (expand_wf terminal_root 0 Hwf) as (h1 & moves & _ & Hexp & Hwf1 & _);
    [vm_compute; lia|reflexivity|].
  unfold terminal_root_expanded. rewrite Hexp. exact Hwf1.
Qed.

(** C9, counterexample: the root of [terminal_root_expanded] is terminal and
    has seven children, none of them visited; [mcts] with three rounds
    returns normally, with the first child. *)
Lemma mcts_terminal_root_with_children :
  wf_heap terminal_root_expanded /\
  is_terminal (Node.state (terminal_root_expanded !!! 0%nat)) = Ok true /\
  Node.children (terminal_root_expanded !!! 0%nat) =
    [1; 2; 3; 4; 5; 6; 7]%nat /\
  exists h' g',
    mcts 100 terminal_root_expanded zero_rng 0 3 = Ok (1%nat, h', g') /\
    mcts 100 terminal_root_expanded zero_rng 0 3 <> Raise ValueError.
Proof.
  split; [exact wf_terminal_root_expanded|]. split; [reflexivity|].
  split; [reflexivity|].
  eexists _, _. split; [vm_compute; reflexivity|vm_compute; discriminate].
Qed.

(** C9, as the code has it: on a root whose state is terminal the rounds of
    [mcts] neither expand the root nor add a child anywhere: they leave the
    shape of the tree as it is, whatever their number.  When the root has no
    children, the final choice of the most visited child raises
    [ValueError], the maximum of an empty sequence, and [mcts] never returns
    a node; when the root has children, [mcts] returns the first of the most
    visited of them. *)
Theorem mcts_terminal_root
    (fuel : nat) (h : heap) (g : rng) (root : nat) (iterations : Z) :
  wf_heap h -> (root < length h)%nat ->
  is_terminal (Node.state (h !!! root)) = Ok true ->
  (enough_fuel h iterations <= fuel)%nat ->
  exists h' g',
    iterations_loop (Z.to_nat iterations) fuel h g root = Ok (h', g') /\
    same_tree h h' /\ Node.children (h' !!! root) = Node.children (h !!! root) /\
    (Node.children (h !!! root) = [] ->
     mcts fuel h g root iterations = Raise ValueError) /\
    (Node.children (h !!! root) <> [] ->
     exists i best,
       mcts fuel h g root iterations = Ok (best, h', g') /\
       Node.children (h !!! root) !! i = Some best /\
       (forall c, In c (Node.children (h !!! root)) ->
                  Node.visits (h' !!! c) <= Node.visits (h' !!! best)) /\
       (forall j c, (j < i)%nat -> Node.children (h !!! root) !! j = Some c ->
                    Node.visits (h' !!! c) < Node.visits (h' !!! best))).
Proof.
  intros Hwf Hroot Hterm Hfuel. unfold enough_fuel in Hfuel.
  destruct (iterations_loop_spec (Z.to_nat iterations) fuel h g root Hwf Hroot Hfuel)
    as (h' & g' & Hloop & _ & _ & _ & _ & Ht & _).
  destruct (Ht Hterm) as [Hst _].
  assert (Hc : Node.children (h' !!! root) = Node.children (h !!! root)).
  { destruct Hst as [_ Hsame]. destruct (Hsame root) as (_ & _ & E & _). exact E. }
  exists h', g'. split; [exact Hloop|]. split; [exact Hst|]. split; [exact Hc|].
  unfold mcts. rewrite Hloop. cbn [bind fst snd]. rewrite Hc. split.
  - intros ->. reflexivity.
  - intros Hne. rewrite <- Hc in Hne |- *.
    destruct (most_visited_child h' root Hne) as (i & best & Hmax & Hrest).
    exists i, best. rewrite Hmax. split; [reflexivity|exact Hrest].
Qed.

Lemma mcts_terminal_root_witness :
  (exists h' g',
     iterations_loop (Z.to_nat 3) 100 terminal_root zero_rng 0 = Ok (h', g') /\
     same_tree terminal_root h' /\
     Node.children (h' !!! 0%nat) = Node.children (terminal_root !!! 0%nat) /\
     (Node.children (terminal_root !!! 0%nat) = [] ->
      mcts 100 terminal_root zero_rng 0 3 = Raise ValueError) /\
     (Node.children (terminal_root !!! 0%nat) <> [] ->
      exists i best,
        mcts 100 terminal_root zero_rng 0 3 = Ok (best, h', g') /\
        Node.children (terminal_root !!! 0%nat) !! i = Some best /\
        (forall c, In c (Node.children (terminal_root !!! 0%nat)) ->
                   Node.visits (h' !!! c) <= Node.visits (h' !!! best)) /\
        (forall j c, (j < i)%nat -> Node.children (terminal_root !!! 0%nat) !! j = Some c ->
                     Node.visits (h' !!! c) < Node.visits (h' !!! best)))) /\
  (exists h' g',
     iterations_loop (Z.to_nat 3) 100 terminal_root_expanded zero_rng 0 = Ok (h', g') /\
     same_tree terminal_root_expanded h' /\
     Node.children (h' !!! 0%nat) = Node.children (terminal_root_expanded !!! 0%nat) /\
     (Node.children (terminal_root_expanded !!! 0%nat) = [] ->
      mcts 100 terminal_root_expanded zero_rng 0 3 = Raise ValueError) /\
     (Node.children (terminal_root_expanded !!! 0%nat) <> [] ->
      exists i best,
        mcts 100 terminal_root_expanded zero_rng 0 3 = Ok (best, h', g') /\
        Node.children (terminal_root_expanded !!! 0%nat) !! i = Some best /\
        (forall c, In c (Node.children (terminal_root_expanded !!! 0%nat)) ->
                   Node.visits (h' !!! c) <= Node.visits (h' !!! best)) /\
        (forall j c, (j < i)%nat -> Node.children (terminal_root_expanded !!! 0%nat) !! j = Some c ->
                     Node.visits (h' !!! c) < Node.visits (h' !!! best)))).
Proof.
  split.
  - apply (mcts_terminal_root 100 terminal_root zero_rng 0 3).
    + apply wf_single; [apply wf_gridb_spec; reflexivity|discriminate].
    + vm_compute. lia.
    + reflexivity.
    + vm_compute. lia.
  - apply (mcts_terminal_root 100 terminal_root_expanded zero_rng 0 3).
    + exact wf_terminal_root_expanded.
    + vm_compute. lia.
    + reflexivity.
    + vm_compute. lia.
Defined.






(** ** The scenarios of the specification, run on the model *)

Example possible_moves_empty_board :
  get_possible_moves new_game = Ok [0; 1; 2; 3; 4; 5; 6].
Proof. reflexivity. Qed.

Example six_moves_in_column_0 :
  make_moves new_game 0 [X; O; X; O; X; O] = Ok column0_full /\
  get_possible_moves column0_full = Ok [1; 2; 3; 4; 5; 6] /\
  make_move column0_full 0 X = Ok {| board := board column0_full; player := O |}.
Proof. repeat split; reflexivity. Qed.

Example bottom_row_of_X :
  is_terminal x_wins = Ok true /\ evaluate x_wins = Ok 1.
Proof. split; reflexivity. Qed.

Example column_out_of_range :
  make_move new_game 7 X = Raise IndexError /\
  make_move new_game (-1) X = make_move new_game 6 X.
Proof. split; reflexivity. Qed.

Example first_round_on_fresh_root :
  map Node.visits after_one_round = [1; 1; 0; 0; 0; 0; 0; 0] /\
  Node.children (after_one_round !!! 0%nat) = [1; 2; 3; 4; 5; 6; 7]%nat /\
  mcts 60 after_one_round zero_rng 0 0 = Ok (1%nat, after_one_round, zero_rng).
Proof. repeat split; vm_compute; reflexivity. Qed.

(** * Further properties of the code *)

(** ** The board *)

Lemma filter_sorted {A : Type} (R : A -> A -> Prop) (f : A -> bool) (l : list A) :
  StronglySorted R l -> StronglySorted R (List.filter f l).
Proof.
  induction 1 as [|x l Hs IH Hall]; simpl; [constructor|].
  destruct (f x); [|exact IH]. constructor; [exact IH|].
  rewrite List.Forall_forall in *. intros y Hy. apply List.filter_In in Hy as [Hy _].
  apply Hall. exact Hy.
Qed.

Lemma range_sorted (n : nat) : StronglySorted Z.lt (range n).
Proof.
  unfold range. generalize 0%nat as k. induction n as [|n IH]; intros k; simpl; [constructor|].
  constructor; [apply IH|].
  apply List.Forall_forall. intros z Hz. apply in_map_iff in Hz as (j & <- & Hj).
  apply in_seq in Hj. lia.
Qed.

(** X1: on a 6x7 board [get_possible_moves] returns, in ascending order and
    without repetition, exactly the columns 0..6 whose top cell is empty; the
    list is empty exactly when the top row is full. *)
Theorem get_possible_moves_spec (s : Connect4) :
  wf_grid (board s) ->
  exists moves,
    get_possible_moves s = Ok moves /\
    StronglySorted Z.lt moves /\
    (forall col, In col moves <-> 0 <= col <= 6 /\ mark (board s) 0 col = SPACE) /\
    (moves = [] <-> top_full (board s)).
Proof.
  intros Hwf. pose proof (get_possible_moves_filter s Hwf) as Hm.
  set (moves := List.filter _ _) in Hm.
  assert (Hin : forall col, In col moves <-> 0 <= col <= 6 /\ mark (board s) 0 col = SPACE)
    by (intros col; apply (in_possible_moves s moves col Hwf Hm)).
  exists moves. split; [exact Hm|]. split; [apply filter_sorted, range_sorted|].
  split; [exact Hin|]. split.
  - intros Hnil col Hcol Hsp.
    assert (Hc : In col moves) by (apply Hin; auto). rewrite Hnil in Hc. contradiction.
  - intros Hfull. destruct moves as [|c l] eqn:E; [reflexivity|]. exfalso.
    assert (Hc : In c (c :: l)) by (left; reflexivity).
    apply Hin in Hc as [Hcol Hsp]. apply (Hfull c Hcol Hsp).
Qed.

Lemma get_possible_moves_spec_witness :
  exists moves,
    get_possible_moves column0_full = Ok moves /\
    StronglySorted Z.lt moves /\
    (forall col, In col moves <-> 0 <= col <= 6 /\ mark (board column0_full) 0 col = SPACE) /\
    (moves = [] <-> top_full (board column0_full)).
Proof.
  apply (get_possible_moves_spec column0_full).
  apply wf_gridb_spec. reflexivity.
Defined.

Lemma top_full_forallb (b : grid) :
  forallb (fun col => negb (Ascii.eqb (mark b 0 col) SPACE)) (range 7) = true <->
  top_full b.
Proof.
  unfold top_full. rewrite forallb_forall. split.
  - intros H col Hcol. apply Ascii.eqb_neq, negb_true_iff, H, in_range. lia.
  - intros H col Hcol. apply in_range in Hcol. apply negb_true_iff, Ascii.eqb_neq, H. lia.
Qed.

(** X2: on a 6x7 board [is_terminal] returns true exactly when the board
    holds four aligned identical marks or its top row is full, and false
    otherwise; it never raises. *)
Theorem is_terminal_iff (s : Connect4) :
  wf_grid (board s) ->
  (is_terminal s = Ok true <->
   (exists m, has_line (board s) m) \/ top_full (board s)) /\
  (is_terminal s = Ok false <->
   no_line (board s) /\ ~ top_full (board s)).
Proof.
  intros Hwf. rewrite is_terminal_first_line by exact Hwf.
  destruct (first_line_cell (board s)) as [[row col]|] eqn:Hf.
  - pose proof (first_line_cell_Some _ row col Hf) as Hline. split.
    + split; [intros _; left; eauto|reflexivity].
    + split; [discriminate|]. intros [Hno _]. exfalso. apply (Hno _ Hline).
  - assert (Hno : no_line (board s)).
    { intros m Hm. apply has_line_first in Hm as (r & c & Hm). congruence. }
    destruct (forallb _ (range 7)) eqn:Hall.
    + apply top_full_forallb in Hall. split.
      * split; [intros _; right; exact Hall|reflexivity].
      * split; [discriminate|]. intros [_ Hn]. contradiction.
    + assert (Hn : ~ top_full (board s)).
      { intros Hfull. apply top_full_forallb in Hfull. congruence. }
      split.
      * split; [discriminate|]. intros [[m Hm]|Hfull]; [exfalso; apply (Hno m Hm)|contradiction].
      * split; [intros _; split; assumption|reflexivity].
Qed.

Lemma is_terminal_iff_witness :
  (is_terminal both_lines = Ok true <->
   (exists m, has_line (board both_lines) m) \/ top_full (board both_lines)) /\
  (is_terminal both_lines = Ok false <->
   no_line (board both_lines) /\ ~ top_full (board both_lines)).
Proof.
  apply (is_terminal_iff both_lines).
  apply wf_gridb_spec. reflexivity.
Defined.

(** X3: on a 6x7 board [evaluate] returns 1, 0 or -1 and never raises: 1 only
    when the board holds a line of ['X'], -1 only when it holds a line of
    another mark, 0 exactly when it holds no line; a value other than 0 is
    returned only on a terminal state. *)
Theorem evaluate_spec (s : Connect4) :
  wf_grid (board s) ->
  exists v,
    evaluate s = Ok v /\ (v = 1 \/ v = 0 \/ v = -1) /\
    (v = 1 -> has_line (board s) X) /\
    (v = -1 -> exists m, m <> X /\ has_line (board s) m) /\
    (v = 0 <-> no_line (board s)) /\
    (v <> 0 -> is_terminal s = Ok true).
Proof.
  intros Hwf. rewrite evaluate_first_line, is_terminal_first_line by exact Hwf.
  destruct (first_line_cell (board s)) as [[row col]|] eqn:Hf.
  - pose proof (first_line_cell_Some _ row col Hf) as Hline.
    destruct (Ascii.eqb_spec (mark (board s) row col) X) as [E|NE].
    + exists 1. split; [reflexivity|]. split; [auto|].
      split; [intros _; rewrite <- E; exact Hline|]. split; [discriminate|].
      split; [|reflexivity]. split; [discriminate|]. intros Hno. exfalso. apply (Hno _ Hline).
    + exists (-1). split; [reflexivity|]. split; [auto|]. split; [discriminate|].
      split; [intros _; eauto|]. split; [|reflexivity].
      split; [discriminate|]. intros Hno. exfalso. apply (Hno _ Hline).
  - exists 0. split; [reflexivity|]. split; [auto|]. split; [discriminate|].
    split; [discriminate|]. split; [|intros H; contradiction].
    split; [|reflexivity]. intros _ m Hm.
    apply has_line_first in Hm as (r & c & Hm). congruence.
Qed.

Lemma evaluate_spec_witness :
  exists v,
    evaluate both_lines = Ok v /\ (v = 1 \/ v = 0 \/ v = -1) /\
    (v = 1 -> has_line (board both_lines) X) /\
    (v = -1 -> exists m, m <> X /\ has_line (board both_lines) m) /\
    (v = 0 <-> no_line (board both_lines)) /\
    (v <> 0 -> is_terminal both_lines = Ok true).
Proof.
  apply (evaluate_spec both_lines).
  apply wf_gridb_spec. reflexivity.
Defined.

(** X4: a 6x7 state that is not terminal has a legal move, so that
    [random.choice] in the rollout never gets an empty list; a state without
    a legal move is terminal. *)
Theorem moves_unless_terminal (s : Connect4) :
  wf_grid (board s) ->
  (is_terminal s = Ok false ->
   exists col moves, get_possible_moves s = Ok (col :: moves)) /\
  (get_possible_moves s = Ok [] -> is_terminal s = Ok true).
Proof.
  intros Hwf. pose proof (get_possible_moves_filter s Hwf) as Hm.
  destruct (is_terminal_total s Hwf) as [t Ht]. split.
  - intros Hf. set (moves := List.filter _ _) in Hm.
    destruct moves as [|c l] eqn:E; [|eauto].
    exfalso. eapply not_terminal_moves; eauto.
  - intros Hnil. destruct t; [exact Ht|]. exfalso.
    eapply not_terminal_moves; eauto.
Qed.

Lemma moves_unless_terminal_witness :
  (is_terminal new_game = Ok false ->
   exists col moves, get_possible_moves new_game = Ok (col :: moves)) /\
  (get_possible_moves new_game = Ok [] -> is_terminal new_game = Ok true).
Proof.
  apply (moves_unless_terminal new_game).
  apply wf_gridb_spec. reflexivity.
Defined.

Lemma gravityb_spec (b : grid) : gravityb b = true <-> gravity b.
Proof.
  unfold gravityb, gravity. rewrite forallb_forall. split.
  - intros H row col Hon Hm r Hr.
    assert (Hin : In (row, col) all_cells) by (apply in_all_cells; exact Hon).
    specialize (H _ Hin). cbn [fst snd] in H.
    apply orb_true_iff in H as [H|H]; [apply Ascii.eqb_eq in H; contradiction|].
    rewrite forallb_forall in H.
    assert (Hrin : In r (range 6)) by (apply in_range; destruct Hon; lia).
    specialize (H r Hrin).
    apply orb_true_iff in H as [H|H]; [apply Z.ltb_lt in H; lia|].
    apply negb_true_iff, Ascii.eqb_neq in H. exact H.
  - intros H [row col] Hin. apply in_all_cells in Hin. cbn [fst snd].
    destruct (Ascii.eqb_spec (mark b row col) SPACE) as [E|NE]; [reflexivity|]. cbn [orb].
    apply forallb_forall. intros r Hr. apply in_range in Hr.
    destruct (Z.ltb_spec r row); [reflexivity|]. cbn [orb].
    apply negb_true_iff, Ascii.eqb_neq. apply (H row col Hin NE). lia.
Qed.

(** X5: [make_move] keeps the marks stacked: on a 6x7 board where no mark
    floats above an empty cell, a move of a non-empty mark in a column 0..6
    returns a board where no mark floats either; on such boards a column is
    full exactly when its top cell holds a mark. *)
Theorem make_move_gravity (s : Connect4) (col : Z) (p : ascii) :
  wf_grid (board s) -> gravity (board s) -> 0 <= col <= 6 -> p <> SPACE ->
  (exists s', make_move s col p = Ok s' /\ wf_grid (board s') /\ gravity (board s')) /\
  (mark (board s) 0 col <> SPACE <-> column_full (board s) col).
Proof.
  intros Hwf Hg Hcol Hp. split.
  - rewrite make_move_lowest by assumption.
    destruct (lowest_empty (board s) col) as [row|] eqn:Hlow.
    2:{ eexists. split; [reflexivity|]. simpl. auto. }
    eexists. split; [reflexivity|]. simpl. split; [apply wf_place; exact Hwf|].
    apply lowest_empty_Some in Hlow as (Hrow & Hm & Hbelow).
    intros r0 c0 Hon Hmark r Hr.
    assert (Hon' : on_board r c0) by (destruct Hon; split; lia).
    rewrite mark_place in Hmark by (auto; split; lia).
    rewrite mark_place by (auto; split; lia).
    destruct (Z.eqb_spec c0 col) as [->|Hc].
    + rewrite andb_true_r in *.
      destruct (Z.eqb_spec r row) as [->|Hrr]; [exact Hp|].
      destruct (Z.eqb_spec r0 row) as [->|Hr0].
      * apply Hbelow. lia.
      * apply (Hg r0 col Hon Hmark). exact Hr.
    + rewrite andb_false_r in *. apply (Hg r0 c0 Hon Hmark). exact Hr.
  - split.
    + intros Htop row Hrow. apply (Hg 0 col); [split; lia|exact Htop|lia].
    + intros Hfull. apply Hfull. lia.
Qed.

Lemma make_move_gravity_witness :
  (exists s', make_move column0_full 1 O = Ok s' /\ wf_grid (board s') /\
              gravity (board s')) /\
  (mark (board column0_full) 0 1 <> SPACE <-> column_full (board column0_full) 1).
Proof.
  apply (make_move_gravity column0_full 1 O).
  - apply wf_gridb_spec. reflexivity.
  - apply gravityb_spec. reflexivity.
  - lia.
  - discriminate.
Defined.

Lemma NoDup_all_cells : NoDup all_cells.
Proof. apply (bool_decide_unpack _). vm_compute. exact I. Qed.

Lemma list_sum_change {A : Type} (f g : A -> nat) (l : list A) (x : A) :
  NoDup l -> In x l -> (g x + 1 = f x)%nat ->
  (forall y, In y l -> y <> x -> g y = f y) ->
  (list_sum (map g l) + 1 = list_sum (map f l))%nat.
Proof.
  intros Hnd. induction Hnd as [|y l Hy Hnd IH]; intros Hin Hx Hrest; simpl in *;
    [contradiction|].
  destruct Hin as [->|Hin].
  - assert (E : map g l = map f l).
    { apply map_ext_in. intros z Hz. apply Hrest; [right; exact Hz|].
      intros ->. apply Hy, list_elem_of_In. exact Hz. }
    rewrite E. lia.
  - rewrite (Hrest y) by (auto; intros ->; apply Hy, list_elem_of_In; exact Hin).
    specialize (IH Hin Hx). rewrite <- IH; [lia|].
    intros z Hz Hne. apply Hrest; auto.
Qed.

(** X6: a move of a non-empty mark in a column 0..6 of a 6x7 board whose top
    cell is empty fills exactly one cell; a move in a column without an empty
    cell fills none.  A board has at most 42 empty cells. *)
Theorem make_move_fills_one (s : Connect4) (col : Z) (p : ascii) :
  wf_grid (board s) -> 0 <= col <= 6 -> p <> SPACE ->
  exists s',
    make_move s col p = Ok s' /\
    (count_empty (board s) <= 42)%nat /\
    (mark (board s) 0 col = SPACE ->
     (count_empty (board s') + 1 = count_empty (board s))%nat) /\
    (column_full (board s) col -> count_empty (board s') = count_empty (board s)).
Proof.
  intros Hwf Hcol Hp. rewrite make_move_lowest by assumption.
  eexists. split; [reflexivity|]. simpl. split; [apply count_empty_bound|]. split.
  - intros Htop.
    destruct (lowest_empty (board s) col) as [row|] eqn:Hlow.
    2:{ apply lowest_empty_None in Hlow. exfalso. apply (Hlow 0); [lia|exact Htop]. }
    apply lowest_empty_Some in Hlow as (Hrow & Hm & _).
    unfold count_empty. apply (list_sum_change _ _ all_cells (row, col) NoDup_all_cells).
    + apply in_all_cells. split; lia.
    + simpl. rewrite mark_place by (auto; split; lia).
      rewrite !Z.eqb_refl. simpl. apply Ascii.eqb_neq in Hp. rewrite Hp, Hm.
      rewrite Ascii.eqb_refl. reflexivity.
    + intros [r c] Hin Hne. apply in_all_cells in Hin. simpl.
      rewrite mark_place by (auto; split; lia).
      destruct (Z.eqb_spec r row) as [->|Hr]; [|reflexivity].
      destruct (Z.eqb_spec c col) as [->|Hc]; [contradiction|reflexivity].
  - intros Hfull. apply lowest_empty_None in Hfull. rewrite Hfull. reflexivity.
Qed.

Lemma make_move_fills_one_witness :
  exists s',
    make_move column0_full 0 X = Ok s' /\
    (count_empty (board column0_full) <= 42)%nat /\
    (mark (board column0_full) 0 0 = SPACE ->
     (count_empty (board s') + 1 = count_empty (board column0_full))%nat) /\
    (column_full (board column0_full) 0 ->
     count_empty (board s') = count_empty (board column0_full)).
Proof.
  apply (make_move_fills_one column0_full 0 X).
  - apply wf_gridb_spec. reflexivity.
  - lia.
  - discriminate.
Defined.

Lemma copy_value (s : Connect4) : copy s = s.
Proof.
  destruct s as [b pl]. unfold copy. simpl. f_equal.
  exact (copy_board {| board := b; player := pl |}).
Qed.

(** X7: [copy] is deep: the copy denotes the same state as the receiver, its
    rows are distinct objects created by the call, and every object that
    existed before the call, the rows of the receiver among them, is left as
    it was. *)
Theorem copy_obj_deep (st : store) (o : Connect4_obj) :
  valid_obj st o ->
  value_of (fst (copy_obj st o)) (snd (copy_obj st o)) = value_of st o /\
  copy (value_of st o) = value_of st o /\
  NoDup (row_objs (snd (copy_obj st o))) /\
  length (row_objs (snd (copy_obj st o))) = length (row_objs o) /\
  (forall a, In a (row_objs (snd (copy_obj st o))) ->
             (length st <= a < length (fst (copy_obj st o)))%nat) /\
  (forall a, (a < length st)%nat -> fst (copy_obj st o) !! a = st !! a) /\
  value_of (fst (copy_obj st o)) o = value_of st o.
Proof.
  intros Hval.
  assert (Hframe : forall a, (a < length st)%nat -> fst (copy_obj st o) !! a = st !! a).
  { intros a Ha. unfold copy_obj, new_obj. simpl.
    rewrite <- app_assoc. apply lookup_app_l. exact Ha. }
  split; [rewrite copy_obj_value by exact Hval; apply copy_value|].
  split; [apply copy_value|].
  unfold copy_obj at 1 2 3. simpl row_objs.
  split; [apply NoDup_seq|]. split; [rewrite length_seq, length_map; reflexivity|].
  split.
  - intros a Ha. apply in_seq in Ha. unfold copy_obj, new_obj. simpl fst.
    unfold new_obj in Ha. simpl fst in Ha.
    rewrite !length_app in *. rewrite length_map in *. lia.
  - split; [exact Hframe|]. apply value_of_frame; assumption.
Qed.

Lemma copy_obj_deep_witness :
  value_of (fst (copy_obj (board column0_full) column0_full_obj))
           (snd (copy_obj (board column0_full) column0_full_obj)) =
    value_of (board column0_full) column0_full_obj /\
  copy (value_of (board column0_full) column0_full_obj) =
    value_of (board column0_full) column0_full_obj /\
  NoDup (row_objs (snd (copy_obj (board column0_full) column0_full_obj))) /\
  length (row_objs (snd (copy_obj (board column0_full) column0_full_obj))) =
    length (row_objs column0_full_obj) /\
  (forall a, In a (row_objs (snd (copy_obj (board column0_full) column0_full_obj))) ->
             (length (board column0_full) <= a <
              length (fst (copy_obj (board column0_full) column0_full_obj)))%nat) /\
  (forall a, (a < length (board column0_full))%nat ->
             fst (copy_obj (board column0_full) column0_full_obj) !! a =
             board column0_full !! a) /\
  value_of (fst (copy_obj (board column0_full) column0_full_obj)) column0_full_obj =
    value_of (board column0_full) column0_full_obj.
Proof.
  apply (copy_obj_deep (board column0_full) column0_full_obj).
  repeat constructor.
Defined.

(** ** The rollout *)

Lemma make_move_fills_exactly (s : Connect4) (col : Z) (p : ascii) :
  wf_grid (board s) -> 0 <= col <= 6 -> mark (board s) 0 col = SPACE -> p <> SPACE ->
  exists s', make_move s col p = Ok s' /\ wf_grid (board s') /\
             (count_empty (board s') + 1 = count_empty (board s))%nat.
Proof.
  intros Hwf Hcol Htop Hp.
  destruct (lowest_empty (board s) col) as [row|] eqn:Hlow.
  2:{ apply lowest_empty_None in Hlow. exfalso. apply (Hlow 0); [lia|exact Htop]. }
  rewrite make_move_lowest by assumption. rewrite Hlow.
  eexists. split; [reflexivity|]. simpl. split; [apply wf_place; exact Hwf|].
  apply lowest_empty_Some in Hlow as (Hrow & Hm & _).
  unfold count_empty. apply (list_sum_change _ _ all_cells (row, col) NoDup_all_cells).
  - apply in_all_cells. split; lia.
  - simpl. rewrite mark_place by (auto; split; lia).
    rewrite !Z.eqb_refl. simpl. apply Ascii.eqb_neq in Hp. rewrite Hp, Hm.
    rewrite Ascii.eqb_refl. reflexivity.
  - intros [r c] Hin Hne. apply in_all_cells in Hin. simpl.
    rewrite mark_place by (auto; split; lia).
    destruct (Z.eqb_spec r row) as [->|Hr]; [|reflexivity].
    destruct (Z.eqb_spec c col) as [->|Hc]; [contradiction|reflexivity].
Qed.

Lemma choice_spec {A : Type} (g : rng) (l : list A) :
  l <> [] ->
  exists x, choice g l = Ok (x, {| draws := draws g; pos := S (pos g) |}) /\ In x l.
Proof.
  intros Hne. destruct (choice_in g l Hne) as (x & g' & Hch & Hin).
  exists x. split; [|exact Hin]. unfold choice in *.
  destruct (l !! _); [|discriminate]. injection Hch as -> <-. reflexivity.
Qed.

Lemma existsb_eqb_in (col : Z) (moves : list Z) :
  In col moves -> existsb (Z.eqb col) moves = true.
Proof. intros H. apply existsb_exists. exists col. split; [exact H|apply Z.eqb_refl]. Qed.

(** The loop of [simulate]: a sequence of legal moves, one for each number
    drawn, up to a terminal state, whose evaluation is returned. *)
Lemma simulate_loop_spec (fuel : nat) (g : rng) (s : Connect4) (p : ascii) :
  wf_grid (board s) -> p <> SPACE -> (count_empty (board s) < fuel)%nat ->
  exists v cols s',
    Node.simulate_loop fuel g s p =
      Ok (v, {| draws := draws g; pos := (pos g + length cols)%nat |}) /\
    play_legal s p cols = Some s' /\
    is_terminal s' = Ok true /\ evaluate s' = Ok v /\
    (count_empty (board s') + length cols = count_empty (board s))%nat.
Proof.
  revert g s p. induction fuel as [|fuel IH]; intros g s p Hwf Hp Hfuel; [lia|].
  cbn [Node.simulate_loop].
  destruct (is_terminal_total s Hwf) as [t Ht]. rewrite Ht. cbn [bind].
  destruct t.
  - destruct (evaluate_total s Hwf) as [v Hv]. rewrite Hv. cbn [bind].
    exists v, [], s. simpl. rewrite Nat.add_0_r. destruct g. auto.
  - pose proof (get_possible_moves_filter s Hwf) as Hmoves.
    rewrite Hmoves. cbn [bind].
    set (moves := List.filter _ _) in *.
    destruct (choice_spec g moves) as (m & Hch & Hin).
    { eapply not_terminal_moves; eassumption. }
    rewrite Hch. cbn [bind fst snd].
    pose proof Hin as Hin'.
    apply (in_possible_moves s moves m Hwf Hmoves) in Hin as [Hcol Htop].
    destruct (make_move_fills_exactly s m p Hwf Hcol Htop Hp) as (s1 & Hmv & Hwf1 & Hcount).
    rewrite Hmv. cbn [bind].
    destruct (IH {| draws := draws g; pos := S (pos g) |} s1 (other_player p) Hwf1)
      as (v & cols & s' & Hsim & Hplay & Hterm & Hev & Hcnt);
      [apply other_player_not_space|lia|].
    exists v, (m :: cols), s'. split.
    + rewrite Hsim. simpl. do 3 f_equal. lia.
    + split.
      * cbn [play_legal]. rewrite Ht, Hmoves, Hmv, (existsb_eqb_in m moves Hin'). exact Hplay.
      * split; [exact Hterm|]. split; [exact Hev|]. simpl. lia.
Qed.

(** X8: [simulate] on a node with a 6x7 board ends: it plays legal moves, the
    players taking turns from the node's player, one move for each random
    number it draws and at most one for each empty cell, until the state is
    terminal, and returns the evaluation of that state, which is 1, 0 or -1. *)
Theorem simulate_spec (fuel : nat) (g : rng) (h : heap) (self : nat) :
  wf_grid (board (Node.state (h !!! self))) -> Node.player (h !!! self) <> SPACE ->
  (42 < fuel)%nat ->
  exists v cols s',
    Node.simulate fuel g h self =
      Ok (v, {| draws := draws g; pos := (pos g + length cols)%nat |}) /\
    play_legal (Node.state (h !!! self)) (Node.player (h !!! self)) cols = Some s' /\
    is_terminal s' = Ok true /\ evaluate s' = Ok v /\
    (v = 1 \/ v = 0 \/ v = -1) /\
    (count_empty (board s') + length cols =
     count_empty (board (Node.state (h !!! self))))%nat /\
    (length cols <= 42)%nat.
Proof.
  intros Hwf Hp Hfuel. unfold Node.simulate. rewrite copy_value.
  pose proof (count_empty_bound (board (Node.state (h !!! self)))) as Hb.
  destruct (simulate_loop_spec fuel g (Node.state (h !!! self)) (Node.player (h !!! self)) Hwf Hp)
    as (v & cols & s' & Hsim & Hplay & Hterm & Hev & Hcnt); [lia|].
  exists v, cols, s'. split; [exact Hsim|]. split; [exact Hplay|].
  split; [exact Hterm|]. split; [exact Hev|]. split; [|split; [exact Hcnt|lia]].
  assert (Hwf' : wf_grid (board s')).
  { clear - Hplay Hwf. revert Hplay Hwf.
    generalize (Node.state (h !!! self)) as s0, (Node.player (h !!! self)) as p0.
    induction cols as [|c cols IH]; intros s0 p0 Hplay Hwf0; simpl in Hplay.
    - injection Hplay as <-. exact Hwf0.
    - destruct (is_terminal s0) as [[|]| |]; try discriminate.
      destruct (get_possible_moves s0) as [moves| |] eqn:Hm; try discriminate.
      destruct (make_move s0 c p0) as [s1| |] eqn:Hmv; try discriminate.
      destruct (existsb (Z.eqb c) moves) eqn:Hex; [|discriminate].
      apply existsb_exists in Hex as (c' & Hin & Heq). apply Z.eqb_eq in Heq. subst c'.
      apply (in_possible_moves s0 moves c Hwf0 Hm) in Hin as [Hcol _].
      destruct (make_move_ok s0 c p0 Hwf0 Hcol) as (s1' & Hmv' & Hwf1 & _).
      rewrite Hmv in Hmv'. injection Hmv' as <-. apply (IH s1 (other_player p0)); assumption. }
  rewrite evaluate_first_line in Hev by exact Hwf'.
  destruct (first_line_cell (board s')) as [[r c]|]; [|injection Hev as <-; auto].
  destruct (Ascii.eqb (mark (board s') r c) X); injection Hev as <-; auto.
Qed.

Lemma simulate_spec_witness :
  exists v cols s',
    Node.simulate 43 zero_rng fresh_root 0 =
      Ok (v, {| draws := draws zero_rng; pos := (pos zero_rng + length cols)%nat |}) /\
    play_legal (Node.state (fresh_root !!! 0%nat)) (Node.player (fresh_root !!! 0%nat)) cols
      = Some s' /\
    is_terminal s' = Ok true /\ evaluate s' = Ok v /\
    (v = 1 \/ v = 0 \/ v = -1) /\
    (count_empty (board s') + length cols =
     count_empty (board (Node.state (fresh_root !!! 0%nat))))%nat /\
    (length cols <= 42)%nat.
Proof.
  apply (simulate_spec 43 zero_rng fresh_root 0).
  - apply wf_gridb_spec. reflexivity.
  - discriminate.
  - lia.
Defined.

(** X9: on a node whose state is terminal [simulate] returns the evaluation
    of that state and draws no random number. *)
Theorem simulate_on_terminal (fuel : nat) (g : rng) (h : heap) (self : nat) :
  wf_grid (board (Node.state (h !!! self))) ->
  is_terminal (Node.state (h !!! self)) = Ok true -> (0 < fuel)%nat ->
  exists v, evaluate (Node.state (h !!! self)) = Ok v /\
            Node.simulate fuel g h self = Ok (v, g).
Proof. intros Hwf Ht Hfuel. apply simulate_terminal; assumption. Qed.

Lemma simulate_on_terminal_witness :
  exists v, evaluate (Node.state (terminal_root !!! 0%nat)) = Ok v /\
            Node.simulate 1 zero_rng terminal_root 0 = Ok (v, zero_rng).
Proof.
  apply (simulate_on_terminal 1 zero_rng terminal_root 0).
  - apply wf_gridb_spec. reflexivity.
  - reflexivity.
  - lia.
Defined.

(** ** Edges of [expand] and [select_child] *)

(** X10: [expand] does not look at the children a node already has: on a
    6x7 board it appends one new child for every possible move to them, so
    that a second call doubles the children of the first; when the state has
    no possible move it leaves the heap as it is. *)
Theorem expand_appends (h : heap) (self : nat) (moves : list Z) :
  (self < length h)%nat -> wf_grid (board (Node.state (h !!! self))) ->
  get_possible_moves (Node.state (h !!! self)) = Ok moves ->
  exists h',
    Node.expand h self = Ok (h', Node.children (h' !!! self)) /\
    Node.children (h' !!! self) =
      Node.children (h !!! self) ++ seq (length h) (length moves) /\
    length h' = (length h + length moves)%nat /\
    (moves = [] -> h' = h) /\
    (exists h'',
       Node.expand h' self = Ok (h'', Node.children (h'' !!! self)) /\
       Node.children (h'' !!! self) =
         Node.children (h !!! self) ++ seq (length h) (length moves)
         ++ seq (length h + length moves) (length moves)).
Proof.
  intros Hself Hwf Hmoves.
  destruct (possible_moves_range _ moves Hwf Hmoves) as [Hrange _].
  destruct (expand_loop_spec moves h self Hself Hwf Hrange)
    as (h' & Hloop & Hlen & Hch & Hst & _).
  exists h'. split; [unfold Node.expand; rewrite Hmoves; cbn [bind]; rewrite Hloop; reflexivity|].
  split; [exact Hch|]. split; [exact Hlen|]. split.
  - intros ->. simpl in Hloop. congruence.
  - assert (Hself' : (self < length h')%nat) by lia.
    assert (Hwf' : wf_grid (board (Node.state (h' !!! self)))) by (rewrite Hst; exact Hwf).
    assert (Hmoves' : get_possible_moves (Node.state (h' !!! self)) = Ok moves)
      by (rewrite Hst; exact Hmoves).
    destruct (expand_loop_spec moves h' self Hself' Hwf' Hrange)
      as (h'' & Hloop' & Hlen' & Hch' & _).
    exists h''. split.
    + unfold Node.expand. rewrite Hmoves'. cbn [bind]. rewrite Hloop'. reflexivity.
    + rewrite Hch', Hch, Hlen, <- app_assoc. reflexivity.
Qed.

Lemma expand_appends_witness :
  exists h',
    Node.expand fresh_root 0 = Ok (h', Node.children (h' !!! 0%nat)) /\
    Node.children (h' !!! 0%nat) =
      Node.children (fresh_root !!! 0%nat)
      ++ seq (length fresh_root) (length [0; 1; 2; 3; 4; 5; 6]) /\
    length h' = (length fresh_root + length [0; 1; 2; 3; 4; 5; 6])%nat /\
    ([0; 1; 2; 3; 4; 5; 6] = [] -> h' = fresh_root) /\
    (exists h'',
       Node.expand h' 0 = Ok (h'', Node.children (h'' !!! 0%nat)) /\
       Node.children (h'' !!! 0%nat) =
         Node.children (fresh_root !!! 0%nat)
         ++ seq (length fresh_root) (length [0; 1; 2; 3; 4; 5; 6])
         ++ seq (length fresh_root + length [0; 1; 2; 3; 4; 5; 6])
                (length [0; 1; 2; 3; 4; 5; 6])).
Proof.
  apply (expand_appends fresh_root 0 [0; 1; 2; 3; 4; 5; 6]).
  - vm_compute. lia.
  - apply wf_gridb_spec. reflexivity.
  - reflexivity.
Defined.




(** ** What the rounds of [mcts] keep *)


Section RoundInvariant.

(** [P k h]: the property of the heap [h] after [k] rounds on [root]. *)
Variable root : nat.
Variable P : nat -> heap -> Prop.

Hypothesis P_expand : forall k h x h',
  wf_heap h -> P k h -> (x < length h)%nat -> Node.children (h !!! x) = [] ->
  is_terminal (Node.state (h !!! x)) = Ok false ->
  Node.expand h x = Ok (h', Node.children (h' !!! x)) -> P k h'.

Hypothesis P_backpropagate : forall k fuel h y s h',
  wf_heap h -> P k h -> (y < length h)%nat -> (y < fuel)%nat ->
  In root (lineage (S y) h y) ->
  s = 1 \/ s = 0 \/ s = -1 ->
  Node.backpropagate fuel h y s = Ok h' -> P (S k) h'.



End RoundInvariant.





















(** X18: with an iteration count of 0 or less [mcts] runs no round: it leaves
    the tree and the random source as they are and returns the first of the
    most visited children the root already has, or raises [ValueError] when
    the root has none. *)
Theorem mcts_no_round
    (fuel : nat) (h : heap) (g : rng) (root : nat) (iterations : Z) :
  iterations <= 0 ->
  (Node.children (h !!! root) = [] ->
   mcts fuel h g root iterations = Raise ValueError) /\
  (Node.children (h !!! root) <> [] ->
   exists i best,
     mcts fuel h g root iterations = Ok (best, h, g) /\
     Node.children (h !!! root) !! i = Some best /\
     (forall c, In c (Node.children (h !!! root)) ->
                Node.visits (h !!! c) <= Node.visits (h !!! best)) /\
     (forall j c, (j < i)%nat -> Node.children (h !!! root) !! j = Some c ->
                  Node.visits (h !!! c) < Node.visits (h !!! best))).
Proof.
  intros HN. assert (E : Z.to_nat iterations = 0%nat) by lia.
  unfold mcts. rewrite E. cbn [iterations_loop bind fst snd]. split.
  - intros ->. reflexivity.
  - intros Hne. destruct (most_visited_child h root Hne) as (i & best & Hmax & Hrest).
    exists i, best. rewrite Hmax. split; [reflexivity|exact Hrest].
Qed.

Lemma mcts_no_round_witness :
  (Node.children (after_one_round !!! 0%nat) = [] ->
   mcts 0 after_one_round zero_rng 0 0 = Raise ValueError) /\
  (Node.children (after_one_round !!! 0%nat) <> [] ->
   exists i best,
     mcts 0 after_one_round zero_rng 0 0 = Ok (best, after_one_round, zero_rng) /\
     Node.children (after_one_round !!! 0%nat) !! i = Some best /\
     (forall c, In c (Node.children (after_one_round !!! 0%nat)) ->
                Node.visits (after_one_round !!! c) <= Node.visits (after_one_round !!! best)) /\
     (forall j c, (j < i)%nat -> Node.children (after_one_round !!! 0%nat) !! j = Some c ->
                  Node.visits (after_one_round !!! c) < Node.visits (after_one_round !!! best))).
Proof.
  apply (mcts_no_round 0 after_one_round zero_rng 0 0).
  lia.
Defined.

(** ** [play_game] *)








(** X20: [play_game] on a tree whose root state is already terminal runs no
    search: it prints the result line alone, returns the root it was given,
    leaves the random source and the shape of the tree as they are, and
    counts one more visit with the value of [evaluate] on the root. *)
Theorem play_game_finished_game
    (rounds fuel : nat) (h : heap) (g : rng) (root : nat) :
  wf_heap h -> (root < length h)%nat -> (0 < rounds)%nat -> (root < fuel)%nat ->
  is_terminal (Node.state (h !!! root)) = Ok true ->
  exists h' score,
    evaluate (Node.state (h !!! root)) = Ok score /\
    play_game rounds fuel h g root =
      Ok (h', g, ("Game over. Result: " ++ result_text score ++ newline)%string, root) /\
    same_tree h h' /\
    Node.visits (h' !!! root) = Node.visits (h !!! root) + 1 /\
    Node.score (h' !!! root) = Node.score (h !!! root) + score.
Proof.
  intros Hwf Hroot Hrounds Hfuel Hterm.
  pose proof Hwf as [Hpb Hwfn]. destruct (Hwfn root Hroot) as (Hgrid & _).
  destruct (evaluate_total _ Hgrid) as (score & Hscore).
  destruct (backpropagate_spec fuel h root score Hpb Hroot Hfuel)
    as (h' & Hb & Hsame & Hin & _).
  exists h', score. split; [exact Hscore|].
  destruct rounds as [|rounds]; [lia|]. destruct fuel as [|fuel]; [lia|].
  unfold play_game. cbn [play_loop]. rewrite Hterm. cbn [bind negb].
  rewrite Hscore. cbn [bind]. rewrite Hb. cbn [bind].
  split; [reflexivity|]. split; [exact Hsame|].
  destruct (Hin 0%nat root (lineage_lookup_0 h fuel root)) as [Hv Hs].
  split; [exact Hv|]. rewrite Hs. change ((-1) ^ Z.of_nat 0) with 1. lia.
Qed.

Lemma play_game_finished_game_witness :
  exists h' score,
    evaluate (Node.state (terminal_root !!! 0%nat)) = Ok score /\
    play_game 1 1 terminal_root zero_rng 0 =
      Ok (h', zero_rng, ("Game over. Result: " ++ result_text score ++ newline)%string,
          0%nat) /\
    same_tree terminal_root h' /\
    Node.visits (h' !!! 0%nat) = Node.visits (terminal_root !!! 0%nat) + 1 /\
    Node.score (h' !!! 0%nat) = Node.score (terminal_root !!! 0%nat) + score.
Proof.
  apply (play_game_finished_game 1 1 terminal_root zero_rng 0).
  - apply wf_single; [apply wf_gridb_spec; reflexivity|discriminate].
  - vm_compute. lia.
  - lia.
  - lia.
  - reflexivity.
Defined.
